(** * CodexHelper: the chat request path of the background worker

    A shallow embedding of the request/response ingestion code of the
    extension's background script (the second module of [src/options.js]:
    [fetchWithRetry], [extractResponseText], [extractStreamDelta],
    [readSseTextStream], [readResponseText] and the [CANCEL_CHAT] / [CHAT]
    message handlers) and of [buildAuthHeaders] from [src/shared/config.js].

    Conventions of the embedding.
    - A JavaScript string is a sequence of UTF-16 code units.  The
      development covers the strings whose code units are below 256 and
      writes each unit as an [ascii]; [String.length] is then the [length]
      of the source.  A [TextDecoder] is the identity on such text, so a
      chunk handed out by [reader.read()] is modelled by the text that
      [decoder.decode(value, { stream: true })] returns for it.
    - Exceptions are explicit: a computation returns [Ok v] or [Throw e],
      where [e] carries the [name] and [message] of the thrown [Error].
    - The host runtime is a parameter wherever the code only calls it:
      [JSON.parse], the IEEE numbers it produces, [fetch] and the stream
      reader.  A concrete JSON reader, [Json.parse], instantiates the
      parameter for the worked examples. *)

From Stdlib Require Import String Ascii List ZArith Lia Bool.
From stdpp Require Import gmap strings pretty.
Import ListNotations.

Open Scope string_scope.
Arguments String.append !s1 s2 /.
Set Warnings "-register-all".

(** ** JavaScript strings *)

Module Js.

Definition LF : ascii := "010"%char.
Definition DQ : ascii := "034"%char.
Definition CR : ascii := "013"%char.
Definition nl : string := String LF "".
Definition cr : string := String CR "".
Definition crlf : string := String CR (String LF "").

(** White space and line terminators, as [trim], [trimStart] and the
    regular-expression class [\s] see them (units below 256). *)
Definition is_space (c : ascii) : bool :=
  match c with
  | "009" | "010" | "011" | "012" | "013" | " " | "160" => true
  | _ => false
  end%char.

Fixpoint trimStart (s : string) : string :=
  match s with
  | "" => ""
  | String c s' => if is_space c then trimStart s' else s
  end.

Fixpoint trimEnd (s : string) : string :=
  match s with
  | "" => ""
  | String c s' =>
      match trimEnd s' with
      | "" => if is_space c then "" else String c ""
      | r => String c r
      end
  end.

Definition trim (s : string) : string := trimEnd (trimStart s).

(** [s.startsWith(p)] *)
Fixpoint startsWith (s p : string) : bool :=
  match p, s with
  | "", _ => true
  | String _ _, "" => false
  | String a p', String b s' => if Ascii.eqb a b then startsWith s' p' else false
  end.

(** [s.indexOf(p)]; [None] stands for the source's [-1]. *)
Fixpoint indexOf (s p : string) : option nat :=
  if startsWith s p then Some 0
  else match s with
       | "" => None
       | String _ s' => option_map S (indexOf s' p)
       end.

(** [s.includes(p)] *)
Definition includes (s p : string) : bool :=
  match indexOf s p with Some _ => true | None => false end.

(** [s.slice(0, n)] and [s.slice(n)] for [0 <= n]. *)
Fixpoint slice_to (n : nat) (s : string) : string :=
  match n, s with
  | S n', String c s' => String c (slice_to n' s')
  | _, _ => ""
  end.

Fixpoint slice_from (n : nat) (s : string) : string :=
  match n, s with
  | S n', String _ s' => slice_from n' s'
  | _, _ => s
  end.

(** [s.split(sep)] for a one-unit separator: never the empty list. *)
Fixpoint split (sep : ascii) (s : string) : list string :=
  match s with
  | "" => [""]
  | String c s' =>
      if Ascii.eqb c sep then "" :: split sep s'
      else match split sep s' with
           | l :: ls => String c l :: ls
           | [] => [String c ""]
           end
  end.

(** [parts.join(sep)] *)
Definition join (sep : string) (parts : list string) : string :=
  String.concat sep parts.

(** [s.replace(/\r\n/g, "\n")] *)
Fixpoint replace_crlf (s : string) : string :=
  match s with
  | "" => ""
  | String c s' =>
      match s' with
      | String c' s'' =>
          if Ascii.eqb c CR && Ascii.eqb c' LF then String LF (replace_crlf s'')
          else String c (replace_crlf s')
      | "" => String c ""
      end
  end.

(** [s.replace(/\r/g, "\n")] *)
Fixpoint replace_cr (s : string) : string :=
  match s with
  | "" => ""
  | String c s' => String (if Ascii.eqb c CR then LF else c) (replace_cr s')
  end.

(** Case folding of a regular expression with the [i] flag and no [u]
    flag: a unit above 127 never folds onto a letter of [A-Z], so on a
    pattern of ASCII letters the match compares ASCII-lowered text. *)
Definition lower (c : ascii) : ascii :=
  let n := nat_of_ascii c in
  if (65 <=? n)%nat && (n <=? 90)%nat then ascii_of_nat (n + 32) else c.

Fixpoint toLowerAscii (s : string) : string :=
  match s with
  | "" => ""
  | String c s' => String (lower c) (toLowerAscii s')
  end.

(** [/p/i.test(s)] for a pattern [p] of lower-case letters. *)
Definition test_ci (p s : string) : bool := includes (toLowerAscii s) p.

End Js.

Import Js.

(** ** Exceptions *)

(** What the chat path throws and catches: [Error] objects created by the
    code itself and the rejections of the host ([TypeError], and the
    [DOMException] named [AbortError] of an aborted signal). *)
Record error := mkError { name : string; message : string }.

(** [new Error(msg)] *)
Definition Error (msg : string) : error := {| name := "Error"; message := msg |}.

(** [String(err)], that is [Error.prototype.toString]. *)
Definition error_toString (err : error) : string :=
  if name err =? "" then message err
  else if message err =? "" then name err
  else name err ++ ": " ++ message err.

Inductive result (A : Type) : Type :=
| Ok (a : A)
| Throw (err : error).
Arguments Ok {A} a.
Arguments Throw {A} err.

#[global] Instance result_bind : MBind result := fun A B k r =>
  match r with
  | Ok a => k a
  | Throw err => Throw err
  end.

(** ** JavaScript values *)

(** The values [JSON.parse] builds, and [undefined] for a missing
    property.  An object keeps its own properties as an association list
    in which a key occurs once; [number] is the host's number type. *)
Inductive value (number : Type) : Type :=
| VUndefined
| VNull
| VBool (b : bool)
| VNum (n : number)
| VStr (s : string)
| VArr (items : list (value number))
| VObj (fields : list (string * value number)).
Arguments VUndefined {number}.
Arguments VNull {number}.
Arguments VBool {number} b.
Arguments VNum {number} n.
Arguments VStr {number} s.
Arguments VArr {number} items.
Arguments VObj {number} fields.

(** The host: IEEE numbers are kept abstract (only their truthiness and
    their [ToString] are observed), and so is [JSON.parse], [None] standing
    for its [SyntaxError]. *)
Class Host := {
  number : Type;
  number_falsy : number -> bool;
  number_toString : number -> string;
  JSON_parse : string -> option (value number)
}.

Section Values.
Context `{Host}.

Abbreviation value := (value number).

Fixpoint lookup_field (key : string) (fields : list (string * value)) : value :=
  match fields with
  | [] => VUndefined
  | (k, v) :: rest => if k =? key then v else lookup_field key rest
  end.

Definition has_field (key : string) (fields : list (string * value)) : bool :=
  existsb (fun kv => fst kv =? key) fields.

(** [v?.key], and [v.key] where [v] is known not to be nullish, for the
    property names of this code; none of them is found on the prototype
    of a string, number, boolean or array. *)
Definition prop (v : value) (key : string) : value :=
  match v with
  | VObj fields => lookup_field key fields
  | _ => VUndefined
  end.

(** [v?.[0]] *)
Definition index0 (v : value) : value :=
  match v with
  | VArr (x :: _) => x
  | VObj fields => lookup_field "0" fields
  | VStr (String c _) => VStr (String c "")
  | _ => VUndefined
  end.

(** [a ?? b] *)
Definition nullish_or (a b : value) : value :=
  match a with
  | VUndefined | VNull => b
  | _ => a
  end.

(** [Boolean(v)] *)
Definition truthy (v : value) : bool :=
  match v with
  | VUndefined | VNull => false
  | VBool b => b
  | VNum n => negb (number_falsy n)
  | VStr s => negb (s =? "")
  | VArr _ | VObj _ => true
  end.

(** [typeof v === "object"] *)
Definition typeof_object (v : value) : bool :=
  match v with
  | VNull | VArr _ | VObj _ => true
  | _ => false
  end.

(** [typeof v === "string"] *)
Definition typeof_string (v : value) : bool :=
  match v with VStr _ => true | _ => false end.

(** [v === s] for a string literal [s] *)
Definition is_str (v : value) (s : string) : bool :=
  match v with VStr s' => s' =? s | _ => false end.

(** The string held by a value whose [typeof] is ["string"]. *)
Definition str_of (v : value) : string :=
  match v with VStr s => s | _ => "" end.

(** The [TypeError] of a conversion to a primitive that finds no method
    to call. *)
Definition TypeError_primitive : error :=
  {| name := "TypeError"; message := "Cannot convert object to primitive value" |}.

(** [String(v)].  An object made by [JSON.parse] has no callable
    [toString] of its own: with such an own property the conversion
    throws, without it [Object.prototype.toString] answers.  An array
    joins its elements with a comma, [null] and [undefined] among them
    printing as the empty string. *)
Fixpoint js_String (v : value) : result string :=
  match v with
  | VUndefined => Ok "undefined"
  | VNull => Ok "null"
  | VBool b => Ok (if b then "true" else "false")
  | VNum n => Ok (number_toString n)
  | VStr s => Ok s
  | VArr items =>
      parts ← (fix each (l : list value) : result (list string) :=
                  match l with
                  | [] => Ok []
                  | x :: l' =>
                      s ← match x with
                          | VUndefined | VNull => Ok ""
                          | _ => js_String x
                          end;
                      rest ← each l';
                      Ok (s :: rest)
                  end) items;
      Ok (join "," parts)
  | VObj fields =>
      if has_field "toString" fields then Throw TypeError_primitive
      else Ok "[object Object]"
  end.

End Values.

(** ** Text extraction *)

Section Extraction.
Context `{Host}.

Abbreviation value := (value number).

(** [extractResponseText(data)]: the text of a whole response document. *)
Definition extractResponseText (data : value) : value :=
  if negb (truthy data) || negb (typeof_object data) then VStr ""
  else if typeof_string (prop data "output_text") then prop data "output_text"
  else
    let output := match prop data "output" with VArr l => l | _ => [] end in
    let chunks :=
      flat_map (fun item =>
        let contents := match prop item "content" with VArr l => l | _ => [] end in
        flat_map (fun c =>
          if negb (truthy c) || negb (typeof_object c) then []
          else
            ((if is_str (prop c "type") "output_text" && typeof_string (prop c "text")
              then [str_of (prop c "text")] else [])
             ++
             (if is_str (prop c "type") "text" && typeof_string (prop c "text")
              then [str_of (prop c "text")] else []))%list)
          contents)
        output in
    if negb (length chunks =? 0)%nat then VStr (join "" chunks)
    else
      nullish_or (prop (prop (index0 (prop data "choices")) "message") "content")
        (nullish_or (prop (index0 (prop data "choices")) "text")
           (VStr "")).

(** [extractStreamDelta(payload)]: the incremental text of one event. *)
Definition extractStreamDelta (payload : value) : string :=
  if negb (truthy payload) || negb (typeof_object payload) then ""
  else if is_str (prop payload "type") "response.output_text.delta"
          && typeof_string (prop payload "delta")
  then str_of (prop payload "delta")
  else
    let maybeText :=
      nullish_or (prop (prop payload "delta") "content")
        (nullish_or (prop (prop (index0 (prop payload "choices")) "delta") "content")
           (nullish_or (prop (prop (index0 (prop payload "choices")) "delta") "text")
              (VStr ""))) in
    if typeof_string maybeText then str_of maybeText else "".

End Extraction.

(** ** The stream decoder *)

(** The closure variables of [readSseTextStream] that [flushEventBlock]
    updates. *)
Record accumulator `{Host} := mkAcc {
  textChunks : list string;
  doneText : string;
  completedResponse : value number
}.

(** What one [await reader.read()] yields before the stream is done: a
    chunk of text, or a rejection (the signal was aborted, the connection
    broke).  A reader is the list of these; at its end [done] is true. *)
Inductive read_result :=
| Chunk (text : string)
| ReadError (err : error).

Section Decoder.
Context `{Host}.

Definition initial_accumulator : accumulator :=
  {| textChunks := []; doneText := ""; completedResponse := VNull |}.

(** The [data:] lines of a block, each without the prefix and its leading
    white space, and the payload they join into. *)
Definition dataLines (block : string) : list string :=
  map (fun line => trimStart (slice_from 5 line))
      (List.filter (fun line => startsWith line "data:") (split LF block)).

Definition dataStr (block : string) : string :=
  trim (join nl (dataLines block)).

(** What [flushEventBlock] does with a payload that parsed. *)
Definition handle_payload (payload : value number) (st : accumulator) : result accumulator :=
  if is_str (prop payload "type") "response.completed"
     && truthy (prop payload "response")
  then Ok {| textChunks := textChunks st;
             doneText := doneText st;
             completedResponse := prop payload "response" |}
  else if is_str (prop payload "type") "response.output_text.done"
          && typeof_string (prop payload "text")
  then Ok {| textChunks := textChunks st;
             doneText := str_of (prop payload "text");
             completedResponse := completedResponse st |}
  else if is_str (prop payload "type") "response.error"
  then
    let msg := prop (prop payload "error") "message" in
    Throw (Error (if typeof_string msg && negb (trim (str_of msg) =? "")
                  then str_of msg else "Response error."))
  else
    let delta := extractStreamDelta payload in
    Ok {| textChunks :=
            if negb (delta =? "") then (textChunks st ++ [delta])%list
            else textChunks st;
          doneText := doneText st;
          completedResponse :=
            if truthy (prop payload "response")
               && typeof_object (prop payload "response")
            then prop payload "response"
            else completedResponse st |}.

(** [flushEventBlock(block)] *)
Definition flushEventBlock (block : string) (st : accumulator) : result accumulator :=
  if (length (dataLines block) =? 0)%nat then Ok st
  else
    let dataStr := dataStr block in
    if (dataStr =? "") || (dataStr =? "[DONE]") then Ok st
    else
      match JSON_parse dataStr with
      | None =>
          Ok {| textChunks := (textChunks st ++ [dataStr])%list;
                doneText := doneText st;
                completedResponse := completedResponse st |}
      | Some payload => handle_payload payload st
      end.

(** The inner loop: flush every block that a blank line terminates.  The
    buffer shrinks at each turn, so [fuel] above its length is enough. *)
Fixpoint drain_blocks (fuel : nat) (buffer : string) (st : accumulator)
  : result (string * accumulator) :=
  match fuel with
  | O => Ok (buffer, st)
  | S fuel' =>
      match indexOf buffer (nl ++ nl) with
      | None => Ok (buffer, st)
      | Some sepIndex =>
          let block := slice_to sepIndex buffer in
          let buffer := slice_from (sepIndex + 2) buffer in
          st ← flushEventBlock block st;
          drain_blocks fuel' buffer st
      end
  end.

Definition drain (buffer : string) (st : accumulator) : result (string * accumulator) :=
  drain_blocks (S (String.length buffer)) buffer st.

(** [decoded.replace(/\r\n/g, "\n").replace(/\r/g, "\n")] *)
Definition normalize (decoded : string) : string :=
  replace_cr (replace_crlf decoded).

(** The outer loop: drain, read, append the normalised chunk. *)
Fixpoint read_loop (reader : list read_result) (buffer : string) (st : accumulator)
  : result (string * accumulator) :=
  '(buffer, st) ← drain buffer st;
  match reader with
  | [] => Ok (buffer, st)
  | ReadError err :: _ => Throw err
  | Chunk decoded :: reader' => read_loop reader' (buffer ++ normalize decoded) st
  end.

(** The last lines of [readSseTextStream]: the precedence between the
    declared final text, the streamed text and the recorded response. *)
Definition resolve_text (st : accumulator) : result string :=
  let streamedText := join "" (textChunks st) in
  if negb (trim (doneText st) =? "")
     && (String.length streamedText <=? String.length (doneText st))%nat
  then Ok (doneText st)
  else if negb (trim streamedText =? "") then Ok streamedText
  else if negb (trim (doneText st) =? "") then Ok (doneText st)
  else
    let completedText := extractResponseText (completedResponse st) in
    js_String (if truthy completedText then completedText else VStr "").

(** [readSseTextStream(reader, initialBuffer)] *)
Definition readSseTextStream (reader : list read_result) (initialBuffer : string)
  : result string :=
  '(buffer, st) ← read_loop reader initialBuffer initial_accumulator;
  st ← (if negb (trim buffer =? "") then flushEventBlock buffer st else Ok st);
  resolve_text st.

End Decoder.

(** ** Responses and the transport *)

(** A [Response]: the fields the code reads, and the body as the reader
    that [res.body.getReader()] returns ([None] for a null body). *)
Record response := mkResponse {
  ok : bool;
  status : nat;
  statusText : string;
  body : option (list read_result)
}.

(** [await res.text()] *)
Fixpoint read_all (reader : list read_result) : result string :=
  match reader with
  | [] => Ok ""
  | Chunk decoded :: reader' => rest ← read_all reader'; Ok (decoded ++ rest)
  | ReadError err :: _ => Throw err
  end.

Definition response_text (res : response) : result string :=
  match body res with
  | None => Ok ""
  | Some reader => read_all reader
  end.

(** One call of [fetch]: it resolves to a response, or rejects with [err]
    while [options.signal.aborted] reads [signal_aborted] in the handler
    of the rejection. *)
Inductive fetch_outcome :=
| Resolved (res : response)
| Rejected (err : error) (signal_aborted : bool).

(** The transport tells the outcome of the [k]-th call of [fetch],
    counted from 0. *)
Definition transport := nat -> fetch_outcome.

(** The request options the claims are about. *)
Record request_options := mkOptions {
  method : string;
  headers : list (string * string)
}.

(** What the retrier does to the outside: calls of [fetch], and timers
    armed by [sleep] with their duration in milliseconds. *)
Inductive io_event :=
| EvFetch (url : string) (options : request_options)
| EvTimer (ms : Z).

(** [sleep(ms)] arms a timer of [Math.max(0, Number(ms) || 0)]. *)
Definition sleep (ms : Z) : io_event := EvTimer (Z.max 0 ms).

Section Retrier.
Variable fetch : transport.
Variables (url : string) (options : request_options).
Variables (retries retryDelayMs : Z).

(** [Math.max(0, Number.isFinite(retries) ? retries : 0) + 1], for an
    integral [retries]. *)
Definition attemptCount : Z := Z.max 0 retries + 1.

(** [throw lastError]; [lastError] is still [undefined] when no attempt
    has failed, which prints as the empty string. *)
Definition throw_lastError (lastError : option error) : result response :=
  match lastError with
  | Some err => Throw err
  | None => Throw {| name := ""; message := "" |}
  end.

(** The [for] loop, entered with [attempt] and [fuel] turns left before
    [attempt < attemptCount] fails. *)
Fixpoint attempt_loop (fuel : nat) (attempt : nat) (lastError : option error)
  : list io_event * result response :=
  match fuel with
  | O => ([], throw_lastError lastError)
  | S fuel' =>
      match fetch attempt with
      | Resolved res => ([EvFetch url options], Ok res)
      | Rejected err signal_aborted =>
          let aborted := signal_aborted || (name err =? "AbortError") in
          if aborted then ([EvFetch url options], Throw err)
          else if (attemptCount <=? Z.of_nat attempt + 1)%Z
          then ([EvFetch url options], throw_lastError (Some err))
          else
            let '(events, r) := attempt_loop fuel' (attempt + 1) (Some err) in
            (EvFetch url options :: sleep (retryDelayMs * (Z.of_nat attempt + 1)) :: events, r)
      end
  end.

(** [fetchWithRetry(url, options, { retries, retryDelayMs })] *)
Definition fetchWithRetry : list io_event * result response :=
  attempt_loop (Z.to_nat attemptCount) 0 None.

End Retrier.

(** ** Reading a response *)

Section Reading.
Context `{Host}.

(** The first [await reader.read()]: its [value], its [done] flag and
    the rest of the reader. *)
Definition read_first (reader : list read_result)
  : result (option string * bool * list read_result) :=
  match reader with
  | [] => Ok (None, true, [])
  | Chunk decoded :: reader' => Ok (Some decoded, false, reader')
  | ReadError err :: _ => Throw err
  end.

Definition looksLikeJson (trimmed : string) : bool :=
  startsWith trimmed "{" || startsWith trimmed "[".

Definition looksLikeSse (trimmed normalizedFirst : string) : bool :=
  startsWith trimmed "data:"
  || startsWith trimmed "event:"
  || startsWith trimmed ":"
  || includes normalizedFirst (nl ++ "data:")
  || includes normalizedFirst (nl ++ "event:").

(** The last lines of [readResponseText]: the buffered body read as one
    JSON document. *)
Definition json_document (all : string) : result (value number) :=
  match JSON_parse all with
  | None => Throw (Error "Invalid JSON response from API.")
  | Some data => Ok (extractResponseText data)
  end.

(** [readResponseText(res)] *)
Definition readResponseText (res : response) : result (value number) :=
  match body res with
  | None => Throw (Error "Missing response body.")
  | Some reader =>
      '(first_value, first_done, reader) ← read_first reader;
      let firstChunk := match first_value with Some decoded => decoded | None => "" end in
      let normalizedFirst := normalize firstChunk in
      let trimmed := trimStart normalizedFirst in
      let looksLikeJson := looksLikeJson trimmed in
      let looksLikeSse := looksLikeSse trimmed normalizedFirst in
      if negb first_done && looksLikeSse && negb looksLikeJson
      then text ← readSseTextStream reader normalizedFirst; Ok (VStr text)
      else
        all ← (if negb first_done
               then rest ← read_all reader; Ok (normalizedFirst ++ rest)
               else Ok normalizedFirst);
        if looksLikeSse && negb looksLikeJson
        then text ← readSseTextStream [Chunk all] ""; Ok (VStr text)
        else json_document all
  end.

End Reading.

(** ** Configuration *)

Record config := mkConfig {
  apiUrl : string;
  token : string;
  model : string;
  systemPrompt : string
}.

(** [/^Bearer\\s+/i.test(t)], the pattern as [src/shared/config.js] writes
    it: the letters of [Bearer] in any case, a backslash, then at least
    one [s] in any case. *)
Definition bearer_pattern (t : string) : bool :=
  startsWith (toLowerAscii t) "bearer\s".

(** [buildAuthHeaders(token)]: the properties of the object it returns. *)
Definition buildAuthHeaders (token : string) : list (string * string) :=
  let t := trim token in
  if t =? "" then []
  else if bearer_pattern t then [("Authorization", t)]
  else [("Authorization", "Bearer " ++ t)].

(** ** The request input *)

(** [arr.map(f)] for a callback that may throw: the first throw ends the
    map. *)
Fixpoint map_throwing {A B : Type} (f : A -> result B) (l : list A) : result (list B) :=
  match l with
  | [] => Ok []
  | x :: l' => y ← f x; ys ← map_throwing f l'; Ok (y :: ys)
  end.

Section RequestInput.
Context `{Host}.

(** [Array.isArray(v) ? v : []] *)
Definition as_array (v : value number) : list (value number) :=
  match v with VArr items => items | _ => [] end.

(** [toResponsesInput(messages)]: one item per message that is an object,
    in order; [String(m.content || "")] may throw. *)
Definition toResponsesInput (messages : value number) : result (list (value number)) :=
  let arr := as_array messages in
  map_throwing (fun m =>
          text ← js_String (if truthy (prop m "content") then prop m "content" else VStr "");
          Ok (VObj [("role", prop m "role");
                    ("content",
                     VArr [VObj [("type",
                                  VStr (if is_str (prop m "role") "assistant"
                                        then "output_text" else "input_text"));
                                 ("text", VStr text)]])]))
       (List.filter (fun m => truthy m && typeof_object m) arr).

(** The input item of a message of [role] with the text [content]: an
    assistant's text goes out as ["output_text"], any other as
    ["input_text"]. *)
Definition input_item (role content : string) : value number :=
  VObj [("role", VStr role);
        ("content",
         VArr [VObj [("type", VStr (if role =? "assistant"
                                    then "output_text" else "input_text"));
                     ("text", VStr content)]])].

End RequestInput.

(** ** The message handlers *)

(** What [sendResponse] is called with by the [CHAT] handler:
    [{ ok: true, content }], [{ ok: false, error }] and
    [{ ok: false, cancelled: true, error: "Cancelled." }]. *)
Inductive chat_response :=
| Success (content : string)
| Failed (error : string)
| Cancelled.

(** [inflightChats], and the controllers on which [abort()] was called.
    A controller is named by a number. *)
Record registry := mkRegistry {
  inflightChats : gmap string nat;
  aborted : gset nat
}.

(** [inflightChats.set(requestId, controller)] *)
Definition register (requestId : string) (controller : nat) (reg : registry) : registry :=
  {| inflightChats := <[requestId := controller]> (inflightChats reg);
     aborted := aborted reg |}.

(** [inflightChats.delete(requestId)] *)
Definition retire (requestId : string) (reg : registry) : registry :=
  {| inflightChats := delete requestId (inflightChats reg);
     aborted := aborted reg |}.

(** The [CANCEL_CHAT] branch; the result is the [aborted] field of the
    response [{ ok: true, aborted }]. *)
Definition cancel_chat (message_requestId : option string) (reg : registry)
  : bool * registry :=
  let requestId := match message_requestId with Some s => s | None => "" end in
  match inflightChats reg !! requestId with
  | Some controller =>
      (true, retire requestId
               {| inflightChats := inflightChats reg;
                  aborted := {[controller]} ∪ aborted reg |})
  | None => (false, reg)
  end.

(** The surroundings of one [CHAT] call. *)
Record chat_env := mkEnv {
  loadConfig : result config;
  makeRequestId : string;
  new_controller : nat;
  fetch : transport;
  (** what the handlers that ran during the [await]s of the call did to
      the registry *)
  meanwhile : registry -> registry
}.

Record chat_outcome := mkOutcome {
  sent : chat_response;
  events : list io_event;
  registry_after : registry
}.

Section Chat.
Context `{Host}.

Definition chat_requestId (message_requestId : option string) (env : chat_env) : string :=
  match message_requestId with
  | Some s => if negb (trim s =? "") then trim s else makeRequestId env
  | None => makeRequestId env
  end.

Definition chat_options (cfg : config) : request_options :=
  {| method := "POST";
     headers := ([("Content-Type", "application/json");
                  ("Accept", "text/event-stream")]
                 ++ buildAuthHeaders (token cfg))%list |}.

(** The branch of a response whose [ok] is false. *)
Definition http_failure (res : response) : result chat_response :=
  text ← response_text res;
  let msg :=
    match JSON_parse text with
    | Some maybe => prop (prop maybe "error") "message"
    | None => VUndefined
    end in
  if typeof_string msg && negb (trim (str_of msg) =? "")
  then Ok (Failed ("HTTP " ++ pretty (status res) ++ ": " ++ str_of msg))
  else Ok (Failed ("HTTP " ++ pretty (status res) ++ ": "
                   ++ (if negb (text =? "") then text else statusText res))).

(** The [try] block, for the [messages] of the request.  A throw of
    [toResponsesInput] ends it before any call is made; the input it
    returns goes into the body of the call, which [request_options] does
    not keep. *)
Definition chat_try (message_messages : value number) (env : chat_env)
  : list io_event * result chat_response :=
  match loadConfig env with
  | Throw err => ([], Throw err)
  | Ok cfg =>
      let apiUrl := trim (apiUrl cfg) in
      if apiUrl =? "" then ([], Throw (Error "Missing API URL (internal error)."))
      else if token cfg =? "" then ([], Throw (Error "Missing API token. Set it in Options."))
      else if model cfg =? "" then ([], Throw (Error "Missing model. Set it in Options."))
      else
        let messages := VArr (as_array message_messages) in
        match toResponsesInput messages with
        | Throw err => ([], Throw err)
        | Ok input =>
            let '(events, fetched) :=
              fetchWithRetry (fetch env) apiUrl (chat_options cfg) 1 350 in
            (events,
             res ← fetched;
             if negb (ok res) then http_failure res
             else
               content ← readResponseText res;
               text ← js_String (if truthy content then content else VStr "");
               Ok (Success text))
        end
  end.

(** The [catch] block. *)
Definition chat_catch (err : error) : chat_response :=
  let isAbort :=
    (name err =? "AbortError")
    || test_ci "aborted" (message err)
    || test_ci "abort" (error_toString err) in
  if isAbort then Cancelled
  else
    let rawMsg := if negb (message err =? "") then message err else error_toString err in
    let msg :=
      if rawMsg =? "Failed to fetch"
      then "Network error: Failed to fetch (temporary connection issue or API unreachable)."
      else rawMsg in
    Failed (if negb (msg =? "") then msg else "Request failed.").

(** The [CHAT] branch: register, try, catch, and retire in [finally]. *)
Definition chat (message_requestId : option string) (message_messages : value number)
  (env : chat_env) (reg : registry) : chat_outcome :=
  let requestId := chat_requestId message_requestId env in
  let reg := register requestId (new_controller env) reg in
  let '(events, r) := chat_try message_messages env in
  let sent := match r with Ok response => response | Throw err => chat_catch err end in
  let reg := meanwhile env reg in
  {| sent := sent;
     events := events;
     registry_after := retire requestId reg |}.

End Chat.

(** ** A JSON reader for the worked examples *)

(** [Json.parse] follows the grammar [JSON.parse] accepts.  A number
    literal is kept as the exact decimal it denotes instead of the double
    nearest to it, and a [\u] escape must name a unit below 256. *)
Module Json.

Record decimal := mkDecimal { mantissa : Z; exponent : Z }.

Definition decimal_falsy (d : decimal) : bool := (mantissa d =? 0)%Z.

(** Drop the trailing zeros of the mantissa of a negative exponent. *)
Fixpoint reduce (fuel : nat) (m e : Z) : Z * Z :=
  match fuel with
  | O => (m, e)
  | S fuel' =>
      if (e <? 0)%Z && (m mod 10 =? 0)%Z && negb (m =? 0)%Z
      then reduce fuel' (m / 10)%Z (e + 1)%Z
      else (m, e)
  end.

Fixpoint zeros (n : nat) : string :=
  match n with O => "" | S n' => String "0" (zeros n') end.

(** Positional notation of [m * 10 ^ e]. *)
Definition decimal_toString (d : decimal) : string :=
  if (mantissa d =? 0)%Z then "0"
  else
    let '(m, e) := reduce (Z.to_nat (- exponent d)) (mantissa d) (exponent d) in
    if (0 <=? e)%Z then pretty (m * 10 ^ e)%Z
    else
      let scale := (10 ^ (- e))%Z in
      let int_part := (Z.abs m / scale)%Z in
      let frac_part := pretty (Z.abs m mod scale)%Z in
      (if (m <? 0)%Z then "-" else "")
      ++ pretty int_part ++ "."
      ++ zeros (Z.to_nat (- e) - String.length frac_part) ++ frac_part.

Abbreviation jvalue := (value decimal).

Definition is_ws (c : ascii) : bool :=
  match c with
  | " " | "009" | "010" | "013" => true
  | _ => false
  end%char.

Fixpoint skip_ws (s : string) : string :=
  match s with
  | String c s' => if is_ws c then skip_ws s' else s
  | "" => ""
  end.

Definition digit (c : ascii) : option Z :=
  let n := nat_of_ascii c in
  if (48 <=? n)%nat && (n <=? 57)%nat then Some (Z.of_nat (n - 48)) else None.

Definition hex (c : ascii) : option nat :=
  let n := nat_of_ascii c in
  if (48 <=? n)%nat && (n <=? 57)%nat then Some (n - 48)%nat
  else if (65 <=? n)%nat && (n <=? 70)%nat then Some (n - 55)%nat
  else if (97 <=? n)%nat && (n <=? 102)%nat then Some (n - 87)%nat
  else None.

(** The digits at the head of [s]: their value after [acc], how many
    they are, and what follows them. *)
Fixpoint digits (s : string) (acc : Z) (count : nat) : Z * nat * string :=
  match s with
  | String c s' =>
      match digit c with
      | Some d => digits s' (acc * 10 + d)%Z (S count)
      | None => (acc, count, s)
      end
  | "" => (acc, count, s)
  end.

Definition parse_number (s : string) : option (decimal * string) :=
  let '(negative, s) :=
    match s with String "-" s' => (true, s') | _ => (false, s) end in
  let '(int_value, int_count, after_int) := digits s 0%Z 0%nat in
  if (int_count =? 0)%nat then None
  else if negb (int_count =? 1)%nat && startsWith s "0" then None
  else
    let frac :=
      match after_int with
      | String "." s' =>
          let '(m, frac_count, after_frac) := digits s' int_value 0%nat in
          if (frac_count =? 0)%nat then None else Some (m, Z.of_nat frac_count, after_frac)
      | _ => Some (int_value, 0%Z, after_int)
      end in
    match frac with
    | None => None
    | Some (m, frac_count, after_frac) =>
        let signed := if negative then (- m)%Z else m in
        let is_e c := Ascii.eqb c "e" || Ascii.eqb c "E" in
        match after_frac with
        | String c s' =>
            if is_e c then
              let '(exp_negative, s'') :=
                match s' with
                | String "-" t => (true, t)
                | String "+" t => (false, t)
                | _ => (false, s')
                end in
              let '(e, exp_count, rest) := digits s'' 0%Z 0%nat in
              if (exp_count =? 0)%nat then None
              else Some ({| mantissa := signed;
                            exponent := (if exp_negative then - e else e) - frac_count |},
                         rest)
            else Some ({| mantissa := signed; exponent := (- frac_count)%Z |}, after_frac)
        | "" => Some ({| mantissa := signed; exponent := (- frac_count)%Z |}, after_frac)
        end
    end.

(** A string literal after its opening quote. *)
Fixpoint parse_string (s : string) : option (string * string) :=
  match s with
  | "" => None
  | String c s' =>
      if Ascii.eqb c DQ then Some ("", s')
      else if Ascii.eqb c "\" then
        match s' with
        | String e s'' =>
            let simple (unit : ascii) :=
              match parse_string s'' with
              | Some (text, rest) => Some (String unit text, rest)
              | None => None
              end in
            match e with
            | "034" => simple DQ
            | "\" => simple "\"
            | "/" => simple "/"
            | "b" => simple "008"
            | "f" => simple "012"
            | "n" => simple "010"
            | "r" => simple "013"
            | "t" => simple "009"
            | "u" =>
                match s'' with
                | String h1 (String h2 (String h3 (String h4 s4))) =>
                    match hex h1, hex h2, hex h3, hex h4, parse_string s4 with
                    | Some 0%nat, Some 0%nat, Some a, Some b, Some (text, rest) =>
                        Some (String (ascii_of_nat (16 * a + b)) text, rest)
                    | _, _, _, _, _ => None
                    end
                | _ => None
                end
            | _ => None
            end%char
        | "" => None
        end
      else if (nat_of_ascii c <? 32)%nat then None
      else
        match parse_string s' with
        | Some (text, rest) => Some (String c text, rest)
        | None => None
        end
  end.

(** A later member replaces an earlier one of the same key. *)
Fixpoint set_field (key : string) (v : jvalue) (fields : list (string * jvalue))
  : list (string * jvalue) :=
  match fields with
  | [] => [(key, v)]
  | (k, w) :: rest =>
      if k =? key then (k, v) :: rest else (k, w) :: set_field key v rest
  end.

Definition keyword (word : string) (v : jvalue) (s : string) : option (jvalue * string) :=
  if startsWith s word then Some (v, slice_from (String.length word) s) else None.

Fixpoint parse_value (fuel : nat) (s : string) : option (jvalue * string) :=
  match fuel with
  | O => None
  | S fuel' =>
      match skip_ws s with
      | "" => None
      | String c s' =>
          if Ascii.eqb c "{" then
            match skip_ws s' with
            | String "}" rest => Some (VObj [], rest)
            | _ => parse_members fuel' s' []
            end
          else if Ascii.eqb c "[" then
            match skip_ws s' with
            | String "]" rest => Some (VArr [], rest)
            | _ => parse_elements fuel' s' []
            end
          else if Ascii.eqb c DQ then
            match parse_string s' with
            | Some (text, rest) => Some (VStr text, rest)
            | None => None
            end
          else if Ascii.eqb c "t" then keyword "true" (VBool true) (String c s')
          else if Ascii.eqb c "f" then keyword "false" (VBool false) (String c s')
          else if Ascii.eqb c "n" then keyword "null" VNull (String c s')
          else
            match parse_number (String c s') with
            | Some (d, rest) => Some (VNum d, rest)
            | None => None
            end
      end
  end
with parse_elements (fuel : nat) (s : string) (acc : list jvalue)
  : option (jvalue * string) :=
  match fuel with
  | O => None
  | S fuel' =>
      match parse_value fuel' s with
      | None => None
      | Some (v, rest) =>
          match skip_ws rest with
          | String "," rest' => parse_elements fuel' rest' (acc ++ [v])%list
          | String "]" rest' => Some (VArr (acc ++ [v])%list, rest')
          | _ => None
          end
      end
  end
with parse_members (fuel : nat) (s : string) (acc : list (string * jvalue))
  : option (jvalue * string) :=
  match fuel with
  | O => None
  | S fuel' =>
      match skip_ws s with
      | String "034" s' =>
          match parse_string s' with
          | None => None
          | Some (key, after_key) =>
              match skip_ws after_key with
              | String ":" after_colon =>
                  match parse_value fuel' after_colon with
                  | None => None
                  | Some (v, rest) =>
                      match skip_ws rest with
                      | String "," rest' => parse_members fuel' rest' (set_field key v acc)
                      | String "}" rest' => Some (VObj (set_field key v acc), rest')
                      | _ => None
                      end
                  end
              | _ => None
              end
          end
      | _ => None
      end
  end.

(** [JSON.parse(text)]: one value and nothing but white space after it.
    Every call below the first consumes a unit of the text, so the fuel
    is never the reason for a [None]. *)
Definition parse (text : string) : option jvalue :=
  match parse_value (2 * String.length text + 2) text with
  | Some (v, rest) => if skip_ws rest =? "" then Some v else None
  | None => None
  end.

End Json.

#[global] Instance json_host : Host := {|
  number := Json.decimal;
  number_falsy := Json.decimal_falsy;
  number_toString := Json.decimal_toString;
  JSON_parse := Json.parse
|}.


(** ** Example texts *)

(** The examples write a JSON text with apostrophes where the text has
    double quotes; [quoted] puts the double quotes back. *)
Fixpoint quoted (s : string) : string :=
  match s with
  | "" => ""
  | String c s' => String (if Ascii.eqb c "'" then DQ else c) (quoted s')
  end.

(** An event block of one [data:] line, with its blank line. *)
Definition event (data : string) : string := "data: " ++ quoted data ++ nl ++ nl.

(** ** Reading the retrier's trace *)

(** A rejection that [fetchWithRetry] takes for a cancellation. *)
Definition is_cancellation (o : fetch_outcome) : bool :=
  match o with
  | Rejected err signal_aborted => signal_aborted || (name err =? "AbortError")
  | Resolved _ => false
  end.

(** Any other rejection. *)
Definition is_transient (o : fetch_outcome) : bool :=
  match o with
  | Rejected err signal_aborted => negb (signal_aborted || (name err =? "AbortError"))
  | Resolved _ => false
  end.

Definition is_fetch (e : io_event) : bool :=
  match e with EvFetch _ _ => true | EvTimer _ => false end.

(** The number of HTTP calls in a trace. *)
Definition fetches (events : list io_event) : nat :=
  length (List.filter is_fetch events).

(** The trace of [n] attempts that come after [done] earlier ones: before
    attempt [k] (counted from 1) a timer of [delay * (k - 1)]. *)
Definition backoff_from (url : string) (options : request_options) (delay : Z)
  (done n : nat) : list io_event :=
  match n with
  | O => []
  | S n' =>
      EvFetch url options
      :: flat_map (fun k => [EvTimer (delay * (Z.of_nat k - 1)); EvFetch url options])
           (seq (done + 2) n')
  end.

Definition backoff (url : string) (options : request_options) (delay : Z) (n : nat)
  : list io_event :=
  backoff_from url options delay 0 n.

(** ** Reading the decoder *)

Section Blocks.
Context `{Host}.

(** The blocks that a blank line terminates in [text], in order, and the
    unterminated text after the last of them. *)
Fixpoint split_blocks (fuel : nat) (text : string) : list string * string :=
  match fuel with
  | O => ([], text)
  | S fuel' =>
      match indexOf text (nl ++ nl) with
      | None => ([], text)
      | Some sepIndex =>
          let '(blocks, rest) := split_blocks fuel' (slice_from (sepIndex + 2) text) in
          (slice_to sepIndex text :: blocks, rest)
      end
  end.

Definition event_blocks (text : string) : list string * string :=
  split_blocks (S (String.length text)) text.

(** The blocks of a whole stream: the terminated ones, then the
    unterminated rest as one final block. *)
Definition stream_blocks (text : string) : list string :=
  let '(blocks, rest) := event_blocks text in (blocks ++ [rest])%list.

(** [flushEventBlock] over blocks in order, stopping at the first throw. *)
Fixpoint flush_all (blocks : list string) (st : accumulator) : result accumulator :=
  match blocks with
  | [] => Ok st
  | block :: blocks' => st ← flushEventBlock block st; flush_all blocks' st
  end.

(** The text the decoder has appended to its buffer once the reader is
    exhausted. *)
Definition stream_text (initialBuffer : string) (chunks : list string) : string :=
  initialBuffer ++ String.concat "" (map normalize chunks).

(** The precedence of the specification between the declared final text,
    the concatenation of the incremental chunks and the recorded envelope,
    for a given reading of "non-empty". *)
Definition precedence (non_empty : string -> bool) (st : accumulator) : result string :=
  let streamed := String.concat "" (textChunks st) in
  if non_empty (doneText st)
     && (String.length streamed <=? String.length (doneText st))%nat
  then Ok (doneText st)
  else if non_empty streamed then Ok streamed
  else if non_empty (doneText st) then Ok (doneText st)
  else
    let extracted := extractResponseText (completedResponse st) in
    js_String (if truthy extracted then extracted else VStr "").

(** A block whose data payload parses to an explicit error event, and
    the message such an event carries: its [error.message] when that is a
    string and not blank, a generic one otherwise. *)
Definition error_event (block : string) (payload : value number) : Prop :=
  dataStr block <> "" /\ dataStr block <> "[DONE]"
  /\ JSON_parse (dataStr block) = Some payload
  /\ is_str (prop payload "type") "response.error" = true.

Definition carried_message (payload : value number) : string :=
  match prop (prop payload "error") "message" with
  | VStr msg => if trim msg =? "" then "Response error." else msg
  | _ => "Response error."
  end.

Definition not_empty (s : string) : bool := negb (s =? "").
Definition not_blank (s : string) : bool := negb (trim s =? "").

End Blocks.

(** A chunk whose last unit is a carriage return. *)
Fixpoint ends_with_cr (s : string) : bool :=
  match s with
  | "" => false
  | String c s' =>
      match s' with
      | "" => Ascii.eqb c CR
      | String _ _ => ends_with_cr s'
      end
  end.

(** ** Reading the sniffer *)

Inductive mode := json | event_stream.

(** The mode [readResponseText] settles on for a first chunk. *)
Definition sniff (firstChunk : string) : mode :=
  let normalizedFirst := normalize firstChunk in
  let trimmed := trimStart normalizedFirst in
  if looksLikeSse trimmed normalizedFirst && negb (looksLikeJson trimmed)
  then event_stream else json.

(** Some line of [text] begins with [p]. *)
Definition line_begins (text p : string) : bool :=
  existsb (fun line => startsWith line p) (split LF text).

(** The precedence of the specification; [line_prefixes] are the field
    prefixes that count when a line of the text begins with them. *)
Definition sniff_by_lines (line_prefixes : list string) (firstChunk : string) : mode :=
  let text := normalize firstChunk in
  let trimmed := trimStart text in
  if startsWith trimmed "{" || startsWith trimmed "[" then json
  else if existsb (fun p => startsWith trimmed p) ["data:"; "event:"; ":"]
          || existsb (fun p => line_begins text p) line_prefixes
  then event_stream
  else json.

(** ** Reading the authorization header *)

(** A token that carries the scheme: [Bearer] in any case, then white
    space. *)
Definition scheme_prefix (t : string) : bool :=
  startsWith (toLowerAscii t) "bearer"
  && match slice_from 6 t with
     | String c _ => is_space c
     | "" => false
     end.

(** The header value the specification describes for a token. *)
Definition described_authorization (token : string) : string :=
  if scheme_prefix token then token else "Bearer " ++ token.

(** ** Reading the registry *)

(** Whether a step took the entry of [requestId] out of the table. *)
Definition removes (requestId : string) (before after : registry) : bool :=
  bool_decide (is_Some (inflightChats before !! requestId)
               /\ inflightChats after !! requestId = None).

(** ** Reading the chat handler *)

(** A configuration that passes the three checks of the [try] block. *)
Definition configured (env : chat_env) (cfg : config) : Prop :=
  loadConfig env = Ok cfg
  /\ trim (apiUrl cfg) <> "" /\ token cfg <> "" /\ model cfg <> "".

(** ** Example inputs *)

(** One retry, a transport that fails twice and would then succeed: the
    second failure after two attempts, 350 ms apart. *)
Definition failing_twice : transport := fun k =>
  if (k <? 2)%nat
  then Rejected {| name := "TypeError"; message := "Failed to fetch" |} false
  else Resolved {| ok := true; status := 200; statusText := "OK"; body := Some [] |}.


(** A configuration as [loadConfig] returns it, and the surroundings of a
    call whose only [fetch] resolves to [res] while nothing else runs. *)
Definition example_config : config :=
  {| apiUrl := "https://api.example/v1/responses"; token := "sk-123";
     model := "gpt-5.2"; systemPrompt := "" |}.

Definition answering (res : response) : chat_env :=
  {| loadConfig := Ok example_config;
     makeRequestId := "req-1";
     new_controller := 1%nat;
     fetch := fun _ => Resolved res;
     meanwhile := fun reg => reg |}.

(** The messages of a request, one question of the user, and the input
    [toResponsesInput] makes of them. *)
Definition example_messages `{Host} : value number :=
  VArr [VObj [("role", VStr "user"); ("content", VStr "Hello")]].

Definition example_input `{Host} : list (value number) :=
  [input_item "user" "Hello"].

(** Messages that [toResponsesInput] refuses: the content of the message
    is an object with a property [toString] of its own that cannot be
    called. *)
Definition refused_messages `{Host} : value number :=
  VArr [VObj [("role", VStr "user"); ("content", VObj [("toString", VNull)])]].

(** A response of status 200 with the given body chunks. *)
Definition ok_response (chunks : list string) : response :=
  {| ok := true; status := 200; statusText := "OK"; body := Some (map Chunk chunks) |}.

(** A response of a failed status with a JSON error body. *)
Definition failed_response (status : nat) (statusText text : string) : response :=
  {| ok := false; status := status; statusText := statusText;
     body := Some [Chunk text] |}.

(** The surroundings of a call that the user cancels during [fetch]. *)
Definition cancelled_during_fetch : chat_env :=
  {| loadConfig := Ok example_config;
     makeRequestId := "req-1";
     new_controller := 1%nat;
     fetch := fun _ =>
       Rejected {| name := "AbortError"; message := "The user aborted a request." |} true;
     meanwhile := fun reg =>
       snd (cancel_chat (Some "req-1") reg) |}.

(** ** Reading a response document *)

Section ResponseDocument.
Context `{Host}.

(** A content part of the type ["output_text"] that carries [text]. *)
Definition is_output_text (part : value number) (text : string) : Prop :=
  truthy part && typeof_object part = true
  /\ prop part "type" = VStr "output_text"
  /\ prop part "text" = VStr text.

(** An output item whose content is parts of these texts, in their
    order. *)
Definition has_output_texts (item : value number) (texts : list string) : Prop :=
  exists parts, prop item "content" = VArr parts /\ Forall2 is_output_text parts texts.

End ResponseDocument.

(** ** Reading the calls of the handler *)

(** The one HTTP call the handler repeats. *)
Definition chat_fetch (cfg : config) : io_event :=
  EvFetch (trim (apiUrl cfg)) (chat_options cfg).

(** The surroundings [env] with another transport. *)
Definition with_fetch (env : chat_env) (f : transport) : chat_env :=
  {| loadConfig := loadConfig env;
     makeRequestId := makeRequestId env;
     new_controller := new_controller env;
     fetch := f;
     meanwhile := meanwhile env |}.

(** The detail of the answer to a failed status: the message of a JSON
    error body when it is a string and not blank, else the body text, else
    the status text. *)
Definition failure_detail `{Host} (res : response) (text : string) : string :=
  let msg :=
    match JSON_parse text with
    | Some maybe => prop (prop maybe "error") "message"
    | None => VUndefined
    end in
  match msg with
  | VStr m => if trim m =? "" then (if text =? "" then statusText res else text) else m
  | _ => if text =? "" then statusText res else text
  end.

(** A transport whose first call is rejected and whose second resolves. *)
Definition failing_once (res : response) : transport := fun k =>
  if (k <? 1)%nat
  then Rejected {| name := "TypeError"; message := "Failed to fetch" |} false
  else Resolved res.

(** The surroundings [env] in which a [CANCEL_CHAT] for [requestId]
    arrives while the call is in flight. *)
Definition cancelled_meanwhile (env : chat_env) (requestId : string) : chat_env :=
  {| loadConfig := loadConfig env;
     makeRequestId := makeRequestId env;
     new_controller := new_controller env;
     fetch := fetch env;
     meanwhile := fun reg => snd (cancel_chat (Some requestId) reg) |}.

(** ** Extension storage *)

(** A storage area of [chrome.storage]: the values kept under their keys.
    Its calls are taken to succeed, and a value is kept as it is given. *)
Abbreviation storage_area number := (gmap string (value number)).

(** [(await area.get(key))?.[key]] *)
Definition storage_get `{Host} (area : storage_area number) (key : string) : value number :=
  match area !! key with
  | Some v => v
  | None => VUndefined
  end.

(** ** The chat history ([src/shared/history.js]) *)

Module History.

Definition HISTORY_KEY : string := "aihelper_chat_history_v1".
Definition MAX_MESSAGES : nat := 30.

Section History.
Context `{Host}.

(** [trimChatHistory(history)] *)
Definition trimChatHistory (history : value number) : list (value number) :=
  let arr := as_array history in
  if (length arr <=? MAX_MESSAGES)%nat then arr
  else drop (length arr - MAX_MESSAGES) arr.

(** [loadChatHistory()], on the area that [getArea()] gives. *)
Definition loadChatHistory (area : storage_area number) : list (value number) :=
  let data := storage_get area HISTORY_KEY in
  let arr := as_array data in
  trimChatHistory
    (VArr
       (List.filter
          (fun m => (is_str (prop m "role") "user" || is_str (prop m "role") "assistant")
                    && typeof_string (prop m "content"))
          (map (fun m => VObj [("role", prop m "role"); ("content", prop m "content")])
               (List.filter (fun m => truthy m && typeof_object m) arr)))).

(** [saveChatHistory(history)] *)
Definition saveChatHistory (history : value number) (area : storage_area number)
  : storage_area number :=
  <[HISTORY_KEY := VArr (trimChatHistory history)]> area.

(** The object [{ role, content }] of two strings. *)
Definition chat_message (role content : string) : value number :=
  VObj [("role", VStr role); ("content", VStr content)].

(** A message as the history keeps them: of the user or of the assistant,
    with a text. *)
Definition is_chat_message (m : value number) : Prop :=
  exists role content,
    m = chat_message role content /\ (role = "user" \/ role = "assistant").

End History.

End History.

(** ** Settings ([src/shared/config.js]) *)

(** What the code reads of a parsed [URL]: [u.protocol] and
    [u.toString()]. *)
Record url := mkUrl {
  protocol : string;
  href : string
}.

(** [new URL(raw)] is the host's; [None] stands for its [TypeError]. *)
Class UrlHost := {
  URL_parse : string -> option url
}.

Module Config.

Definition DEFAULT_API_URL : string := "https://api.openai.com/v1/responses".
Definition DEFAULT_MODEL : string := "gpt-5.2".
Definition FIXED_SYSTEM_PROMPT : string :=
  "You are a helpful assistant. When page context is provided, use it to answer accurately and concisely.".
Definition CONFIG_KEY : string := "aihelper_config_v1".

(** The object [loadConfig] and [saveConfig] return: the configuration the
    [CHAT] handler reads, and the switch of the selection actions. Its
    [temperature] and [maxPageChars] are the same two constants in every
    one of them. *)
Record settings := mkSettings {
  base : config;
  enableSelectionActions : bool
}.

(** [DEFAULT_CONFIG], with the fixed prompt. *)
Definition DEFAULT_CONFIG : settings :=
  {| base := {| apiUrl := DEFAULT_API_URL;
                token := "";
                model := DEFAULT_MODEL;
                systemPrompt := FIXED_SYSTEM_PROMPT |};
     enableSelectionActions := false |}.

Section Config.
Context `{Host} `{UrlHost}.

(** [normalizeApiUrl(value)]: the conversion to a string is outside the
    [try]. *)
Definition normalizeApiUrl (value : value number) : result string :=
  converted ← js_String (if truthy value then value else VStr "");
  let raw := trim converted in
  if raw =? "" then Ok DEFAULT_API_URL
  else
    match URL_parse raw with
    | Some u => if negb (protocol u =? "https:") then Ok DEFAULT_API_URL else Ok (href u)
    | None => Ok DEFAULT_API_URL
    end.

(** The object kept under [CONFIG_KEY], or [{}]. *)
Definition saved_config (sync : storage_area number) : value number :=
  let kept := storage_get sync CONFIG_KEY in
  if truthy kept && typeof_object kept then kept else VObj [].

(** [loadConfig()] *)
Definition loadConfig (sync : storage_area number) : result settings :=
  let saved := saved_config sync in
  apiUrl ← normalizeApiUrl (prop saved "apiUrl");
  let token := if typeof_string (prop saved "token") then str_of (prop saved "token") else "" in
  let modelRaw := if typeof_string (prop saved "model") then str_of (prop saved "model") else "" in
  let model := if negb (trim modelRaw =? "") then trim modelRaw else DEFAULT_MODEL in
  Ok {| base := {| apiUrl := apiUrl;
                   token := token;
                   model := model;
                   systemPrompt := FIXED_SYSTEM_PROMPT |};
        enableSelectionActions := truthy (prop saved "enableSelectionActions") |}.

(** [saveConfig(nextConfig)]: what it returns, and the area after it. *)
Definition saveConfig (nextConfig : value number) (sync : storage_area number)
  : result (settings * storage_area number) :=
  current ← loadConfig sync;
  nextApiUrl ← (if typeof_string (prop nextConfig "apiUrl")
                then normalizeApiUrl (prop nextConfig "apiUrl")
                else Ok (apiUrl (base current)));
  let nextToken :=
    if typeof_string (prop nextConfig "token")
    then str_of (prop nextConfig "token") else token (base current) in
  let nextModel :=
    if typeof_string (prop nextConfig "model")
    then str_of (prop nextConfig "model") else model (base current) in
  let nextEnableSelectionActions :=
    match prop nextConfig "enableSelectionActions" with
    | VBool b => b
    | _ => enableSelectionActions current
    end in
  Ok ({| base := {| apiUrl := nextApiUrl;
                    token := nextToken;
                    model := nextModel;
                    systemPrompt := systemPrompt (base current) |};
         enableSelectionActions := nextEnableSelectionActions |},
      <[CONFIG_KEY := VObj [("apiUrl", VStr nextApiUrl);
                            ("token", VStr nextToken);
                            ("model", VStr nextModel);
                            ("enableSelectionActions", VBool nextEnableSelectionActions)]]>
        sync).

(** What [normalizeApiUrl] can give: the default, or the text of a URL
    that the host parsed with the protocol [https:]. *)
Definition normalized (apiUrl : string) : Prop :=
  apiUrl = DEFAULT_API_URL
  \/ exists raw u, URL_parse raw = Some u /\ protocol u = "https:" /\ apiUrl = href u.

End Config.

End Config.

(** ** The options page ([src/options.js]) *)

Module Options.

(** The [value]s of the fields of the form. *)
Record form := mkForm {
  apiUrl_value : string;
  token_value : string;
  model_value : string;
  enableSelectionActions_value : string
}.

Section Options.
Context `{Host} `{UrlHost}.

(** What a handler of the page leaves: the status line, the delay after
    which a timer clears it, if it set one, and the storage. *)
Record page_outcome := mkPage {
  status_text : string;
  status_cleared_after : option nat;
  sync_after : storage_area number
}.

(** [normalizeApiUrl(value)] of the page, which throws where the one of
    [config.js] falls back. *)
Definition normalizeApiUrl (value : string) : result string :=
  let raw := trim value in
  if raw =? "" then Ok Config.DEFAULT_API_URL
  else
    match URL_parse raw with
    | None => Throw (Error "API URL is invalid.")
    | Some u =>
        if negb (protocol u =? "https:")
        then Throw (Error "API URL must start with https://")
        else Ok (href u)
    end.

(** [fillForm()]: the values it assigns to the fields. *)
Definition fillForm (sync : storage_area number) : result form :=
  cfg ← Config.loadConfig sync;
  Ok {| apiUrl_value :=
          if negb (apiUrl (Config.base cfg) =? "")
          then apiUrl (Config.base cfg) else Config.DEFAULT_API_URL;
        token_value := token (Config.base cfg);
        model_value :=
          if negb (model (Config.base cfg) =? "")
          then model (Config.base cfg) else Config.DEFAULT_MODEL;
        enableSelectionActions_value :=
          if Config.enableSelectionActions cfg then "true" else "false" |}.

(** The [try] block of [onSubmit]. *)
Definition submit (fields : form) (sync : storage_area number)
  : result (storage_area number) :=
  apiUrl ← normalizeApiUrl (apiUrl_value fields);
  let model := trim (model_value fields) in
  if model =? "" then Throw (Error "Model is required.")
  else
    '(_, sync') ← Config.saveConfig
                    (VObj [("apiUrl", VStr apiUrl);
                           ("token", VStr (token_value fields));
                           ("model", VStr model);
                           ("enableSelectionActions",
                            VBool (enableSelectionActions_value fields =? "true"))])
                    sync;
    Ok sync'.

(** [onSubmit(e)] *)
Definition onSubmit (fields : form) (sync : storage_area number) : page_outcome :=
  match submit fields sync with
  | Ok sync' =>
      {| status_text := "Saved."; status_cleared_after := Some 1200%nat; sync_after := sync' |}
  | Throw err =>
      {| status_text := if negb (message err =? "") then message err else error_toString err;
         status_cleared_after := None;
         sync_after := sync |}
  end.

(** [onReset()]: the fields it fills and what it leaves; a throw of
    [saveConfig] or of [fillForm] is not caught. *)
Definition onReset (sync : storage_area number) : result (form * page_outcome) :=
  '(_, sync') ← Config.saveConfig
                  (VObj [("apiUrl", VStr Config.DEFAULT_API_URL);
                         ("token", VStr "");
                         ("model", VStr Config.DEFAULT_MODEL);
                         ("enableSelectionActions", VBool false)])
                  sync;
  fields ← fillForm sync';
  Ok (fields,
      {| status_text := "Reset."; status_cleared_after := Some 1200%nat; sync_after := sync' |}).

End Options.

End Options.

(** A host that parses the two schemes of the examples: a text that
    begins with [https://] or [http://] is a URL, and is serialized as it
    is written. *)
Definition example_urls : UrlHost :=
  {| URL_parse := fun raw =>
       if startsWith raw "https://" then Some {| protocol := "https:"; href := raw |}
       else if startsWith raw "http://" then Some {| protocol := "http:"; href := raw |}
       else None |}.


(** * Theorems *)

(** ** Facts about strings *)

Section StringFacts.

Lemma append_nil_r (s : string) : s ++ "" = s.
Proof. induction s as [|c s IH]; cbn; [reflexivity|]. rewrite IH. reflexivity. Qed.

Lemma append_assoc (s t u : string) : (s ++ t) ++ u = s ++ t ++ u.
Proof. induction s as [|c s IH]; cbn; [reflexivity|]. rewrite IH. reflexivity. Qed.

Lemma length_append (s t : string) :
  String.length (s ++ t) = (String.length s + String.length t)%nat.
Proof. induction s as [|c s IH]; cbn; [reflexivity|]. rewrite IH. reflexivity. Qed.

Lemma startsWith_length (s p : string) :
  startsWith s p = true -> (String.length p <= String.length s)%nat.
Proof.
  revert s. induction p as [|a p IH]; intros [|b s] Hp; cbn in *; try lia; try discriminate.
  destruct (Ascii.eqb a b); [|discriminate]. apply IH in Hp. lia.
Qed.

Lemma startsWith_append (s t p : string) :
  (String.length p <= String.length s)%nat ->
  startsWith (s ++ t) p = startsWith s p.
Proof.
  revert s. induction p as [|a p IH]; intros [|b s] Hlen; cbn in *; try lia; try reflexivity.
  - destruct t; reflexivity.
  - destruct (Ascii.eqb a b); [|reflexivity]. apply IH. lia.
Qed.

Lemma indexOf_bound (s p : string) (i : nat) :
  indexOf s p = Some i -> (i + String.length p <= String.length s)%nat.
Proof.
  revert i. induction s as [|c s IH]; intros i Hi.
  - cbn [indexOf] in Hi. destruct (startsWith "" p) eqn:Hp; [|discriminate].
    injection Hi as <-. apply startsWith_length in Hp. cbn in *. lia.
  - cbn [indexOf] in Hi. destruct (startsWith (String c s) p) eqn:Hp.
    + injection Hi as <-. apply startsWith_length in Hp. cbn in *. lia.
    + destruct (indexOf s p) as [i'|]; [|discriminate].
      injection Hi as <-. specialize (IH i' eq_refl). cbn. lia.
Qed.

Lemma indexOf_append (s t p : string) (i : nat) :
  indexOf s p = Some i -> indexOf (s ++ t) p = Some i.
Proof.
  revert i. induction s as [|c s IH]; intros i Hi.
  - pose proof (indexOf_bound _ _ _ Hi) as Hb. cbn in Hb.
    destruct p; cbn in Hb; [|lia]. assert (i = 0%nat) as -> by lia.
    destruct t; reflexivity.
  - pose proof (indexOf_bound _ _ _ Hi) as Hb.
    cbn [indexOf] in Hi. change (String c s ++ t) with (String c (s ++ t)).
    cbn [indexOf].
    change (String c (s ++ t)) with (String c s ++ t).
    rewrite startsWith_append by lia.
    destruct (startsWith (String c s) p); [assumption|].
    destruct (indexOf s p) as [i'|] eqn:Hs; [|discriminate].
    rewrite (IH i' eq_refl). assumption.
Qed.

Lemma slice_to_append (s t : string) (i : nat) :
  (i <= String.length s)%nat -> slice_to i (s ++ t) = slice_to i s.
Proof.
  revert s. induction i as [|i IH]; intros [|c s] Hi; cbn in *; try lia; try reflexivity.
  rewrite IH by lia. reflexivity.
Qed.

Lemma slice_from_append (s t : string) (i : nat) :
  (i <= String.length s)%nat -> slice_from i (s ++ t) = slice_from i s ++ t.
Proof.
  revert s. induction i as [|i IH]; intros [|c s] Hi; cbn in *; try lia; try reflexivity.
  apply IH. lia.
Qed.

Lemma length_slice_from (s : string) (i : nat) :
  String.length (slice_from i s) = (String.length s - i)%nat.
Proof.
  revert s. induction i as [|i IH]; intros [|c s]; cbn; try reflexivity. apply IH.
Qed.

End StringFacts.



(** ** The transport retrier *)

Section RetrierFacts.
Variable fetch : transport.
Variables (url : string) (options : request_options).
Variables (retries delay : Z).
Hypothesis delay_nonneg : (0 <= delay)%Z.

Let count : nat := Z.to_nat (attemptCount retries).

Lemma attemptCount_count : attemptCount retries = Z.of_nat count.
Proof. unfold count, attemptCount. lia. Qed.

Lemma count_retries : count = (Z.to_nat retries + 1)%nat.
Proof. unfold count, attemptCount. lia. Qed.

(** The loop entered at [attempt] with the turns that are left. *)
Lemma attempt_loop_trace (fuel attempt : nat) (last : option error) :
  (attempt + fuel = count)%nat -> (0 < fuel)%nat ->
  let '(events, r) := attempt_loop fetch url options retries delay fuel attempt last in
  (1 <= fetches events <= fuel)%nat
  /\ events = backoff_from url options delay attempt (fetches events).
Proof.
  revert attempt last. induction fuel as [|fuel IH]; intros attempt last Hsum Hpos; [lia|].
  cbn [attempt_loop].
  destruct (fetch attempt) as [res|err ab].
  - cbn. split; [lia|reflexivity].
  - destruct (ab || (name err =? "AbortError")).
    + cbn. split; [lia|reflexivity].
    + rewrite attemptCount_count.
      destruct (Z.leb_spec (Z.of_nat count) (Z.of_nat attempt + 1)) as [Hlast|Hmore].
      * cbn. split; [lia|reflexivity].
      * specialize (IH (attempt + 1)%nat (Some err)).
        destruct (attempt_loop fetch url options retries delay fuel (attempt + 1) (Some err))
          as [events r].
        destruct IH as [Hn Hev]; [lia|lia|].
        unfold fetches in *. cbn [List.filter is_fetch length sleep].
        split; [lia|].
        rewrite Hev at 1. unfold backoff_from.
        destruct (length (List.filter is_fetch events)) as [|n]; [lia|].
        cbn [seq flat_map app]. 
        replace (Z.of_nat (attempt + 2) - 1)%Z with (Z.of_nat attempt + 1)%Z by lia.
        unfold sleep. rewrite Z.max_r by nia.
        replace (attempt + 1 + 2)%nat with (S (attempt + 2)) by lia.
        reflexivity.
Qed.


(** A cancellation at attempt [i], after rejections of the other kind. *)
Lemma attempt_loop_cancel (fuel attempt i : nat) (last : option error) err ab :
  (attempt + fuel = count)%nat -> (attempt <= i < count)%nat ->
  (forall j, (attempt <= j < i)%nat -> is_transient (fetch j) = true) ->
  fetch i = Rejected err ab -> is_cancellation (fetch i) = true ->
  let '(events, r) := attempt_loop fetch url options retries delay fuel attempt last in
  r = Throw err /\ (attempt + fetches events = i + 1)%nat.
Proof.
  revert attempt last. induction fuel as [|fuel IH]; intros attempt last Hsum Hi Hbefore Hat Hcancel; [lia|].
  cbn [attempt_loop].
  destruct (Nat.eq_dec attempt i) as [-> | Hne].
  - rewrite Hat in *. cbn in Hcancel. rewrite Hcancel. cbn. split; [reflexivity|lia].
  - pose proof (Hbefore attempt ltac:(lia)) as Htr.
    destruct (fetch attempt) as [res|err' ab']; cbn in Htr; [discriminate|].
    apply negb_true_iff in Htr. rewrite Htr.
    rewrite attemptCount_count.
    destruct (Z.leb_spec (Z.of_nat count) (Z.of_nat attempt + 1)) as [Hlast|Hmore]; [lia|].
    specialize (IH (attempt + 1)%nat (Some err')).
    destruct (attempt_loop fetch url options retries delay fuel (attempt + 1) (Some err'))
      as [events r].
    destruct IH as [Hr Hn]; [lia|lia| |assumption|assumption|].
    + intros j Hj. apply Hbefore. lia.
    + split; [assumption|]. unfold fetches in *. cbn. lia.
Qed.

(** Rejections of the other kind until the budget is spent. *)
Lemma attempt_loop_exhaust (fuel attempt : nat) (last : option error) :
  (attempt + fuel = count)%nat -> (0 < fuel)%nat ->
  (forall j, (attempt <= j < count)%nat -> is_transient (fetch j) = true) ->
  let '(events, r) := attempt_loop fetch url options retries delay fuel attempt last in
  exists err ab, fetch (count - 1) = Rejected err ab
    /\ r = Throw err /\ (attempt + fetches events = count)%nat.
Proof.
  revert attempt last. induction fuel as [|fuel IH]; intros attempt last Hsum Hpos Hall; [lia|].
  cbn [attempt_loop].
  pose proof (Hall attempt ltac:(lia)) as Htr.
  destruct (fetch attempt) as [res|err ab] eqn:Hat; cbn in Htr; [discriminate|].
  apply negb_true_iff in Htr. rewrite Htr.
  rewrite attemptCount_count.
  destruct (Z.leb_spec (Z.of_nat count) (Z.of_nat attempt + 1)) as [Hlast|Hmore].
  - exists err, ab. replace (count - 1)%nat with attempt by lia.
    cbn. repeat split; [assumption|lia].
  - specialize (IH (attempt + 1)%nat (Some err)).
    destruct (attempt_loop fetch url options retries delay fuel (attempt + 1) (Some err))
      as [events r].
    destruct IH as (err' & ab' & Hlast' & Hr & Hn); [lia|lia| |].
    + intros j Hj. apply Hall. lia.
    + exists err', ab'. repeat split; [assumption|assumption|].
      unfold fetches in *. cbn. lia.
Qed.

(** What the loop throws is a rejection of [fetch]: [lastError] is set by
    the time it is thrown. *)
Lemma attempt_loop_throws (fuel attempt : nat) (last : option error) (err : error) :
  (attempt + fuel = count)%nat -> (0 < fuel)%nat ->
  snd (attempt_loop fetch url options retries delay fuel attempt last) = Throw err ->
  exists i signal_aborted, fetch i = Rejected err signal_aborted.
Proof.
  revert attempt last. induction fuel as [|fuel IH]; intros attempt last Hsum Hpos; [lia|].
  cbn [attempt_loop].
  destruct (fetch attempt) as [res|err' ab] eqn:Hat.
  - cbn. discriminate.
  - destruct (ab || (name err' =? "AbortError")).
    + cbn. intros Heq. injection Heq as <-. eauto.
    + rewrite attemptCount_count.
      destruct (Z.leb_spec (Z.of_nat count) (Z.of_nat attempt + 1)) as [Hlast|Hmore].
      * cbn. intros Heq. injection Heq as <-. eauto.
      * specialize (IH (attempt + 1)%nat (Some err')).
        destruct (attempt_loop fetch url options retries delay fuel (attempt + 1) (Some err'))
          as [evs r].
        cbn [snd] in *. apply IH; lia.
Qed.

End RetrierFacts.

(** [fetchWithRetry] throws nothing but what [fetch] rejected with. *)
Lemma fetchWithRetry_throws (fetch : transport) (url : string)
  (options : request_options) (retries delay : Z) (err : error) :
  snd (fetchWithRetry fetch url options retries delay) = Throw err ->
  exists i signal_aborted, fetch i = Rejected err signal_aborted.
Proof.
  unfold fetchWithRetry. apply attempt_loop_throws.
  - lia.
  - unfold attemptCount. lia.
Qed.

(** C4. With [retries >= 0] (and a delay that is a duration),
    [fetchWithRetry] calls [fetch] at least once and at most [retries + 1]
    times; its trace is [backoff]: before attempt [k >= 2] a timer of
    [retryDelayMs * (k - 1)]; a rejection under an aborted signal or named
    [AbortError] is thrown at once, after no further attempt; rejections
    of any other kind are retried until [retries + 1] attempts were made,
    and the last of them is thrown: with [retries = 1], two such
    rejections give the second one after exactly two attempts. *)
Theorem fetchWithRetry_budget (fetch : transport) (url : string)
  (options : request_options) (retries retryDelayMs : Z) :
  (0 <= retries)%Z -> (0 <= retryDelayMs)%Z ->
  let outcome := fetchWithRetry fetch url options retries retryDelayMs in
  let n := fetches (fst outcome) in
  ((1 <= n)%nat /\ (Z.of_nat n <= retries + 1)%Z)
  /\ fst outcome = backoff url options retryDelayMs n
  /\ (forall (i : nat) err signal_aborted,
        (Z.of_nat i <= retries)%Z ->
        (forall j, (j < i)%nat -> is_transient (fetch j) = true) ->
        fetch i = Rejected err signal_aborted ->
        signal_aborted = true \/ name err = "AbortError" ->
        snd outcome = Throw err /\ n = (i + 1)%nat)
  /\ ((forall j, (Z.of_nat j <= retries)%Z -> is_transient (fetch j) = true) ->
      exists err signal_aborted,
        fetch (Z.to_nat retries) = Rejected err signal_aborted
        /\ snd outcome = Throw err /\ Z.of_nat n = (retries + 1)%Z)
  /\ (retries = 1%Z ->
      forall first second,
        fetch 0%nat = Rejected first false -> name first <> "AbortError" ->
        fetch 1%nat = Rejected second false -> name second <> "AbortError" ->
        snd outcome = Throw second /\ n = 2%nat).
Proof.
  intros Hretries Hdelay outcome n.
  pose proof (count_retries retries) as Hcount.
  assert (Hexhaust :
    (forall j, (Z.of_nat j <= retries)%Z -> is_transient (fetch j) = true) ->
    exists err signal_aborted,
      fetch (Z.to_nat retries) = Rejected err signal_aborted
      /\ snd outcome = Throw err /\ Z.of_nat n = (retries + 1)%Z).
  { intros Hall.
    pose proof (attempt_loop_exhaust fetch url options retries retryDelayMs
                  (Z.to_nat (attemptCount retries)) 0 None) as Hex.
    subst outcome n. unfold fetchWithRetry.
    destruct (attempt_loop fetch url options retries retryDelayMs
                (Z.to_nat (attemptCount retries)) 0 None) as [events r].
    destruct Hex as (err & ab & Hlast & Hr & Hn); [lia|lia| |].
    - intros j Hj. apply Hall. lia.
    - exists err, ab. cbn [fst snd].
      replace (Z.to_nat retries) with (Z.to_nat (attemptCount retries) - 1)%nat by lia.
      repeat split; [assumption|assumption|lia]. }
  split; [|split; [|split; [|split; [exact Hexhaust|]]]].
  - pose proof (attempt_loop_trace fetch url options retries retryDelayMs Hdelay
                  (Z.to_nat (attemptCount retries)) 0 None) as Htr.
    subst outcome n. unfold fetchWithRetry.
    destruct (attempt_loop fetch url options retries retryDelayMs
                (Z.to_nat (attemptCount retries)) 0 None) as [events r].
    destruct Htr as [Hn _]; [lia|lia|]. cbn [fst]. lia.
  - pose proof (attempt_loop_trace fetch url options retries retryDelayMs Hdelay
                  (Z.to_nat (attemptCount retries)) 0 None) as Htr.
    subst outcome n. unfold fetchWithRetry, backoff.
    destruct (attempt_loop fetch url options retries retryDelayMs
                (Z.to_nat (attemptCount retries)) 0 None) as [events r].
    destruct Htr as [_ Hev]; [lia|lia|]. exact Hev.
  - intros i err ab Hi Hbefore Hat Hcancel.
    pose proof (attempt_loop_cancel fetch url options retries retryDelayMs
                  (Z.to_nat (attemptCount retries)) 0 i None err ab) as Hc.
    subst outcome n. unfold fetchWithRetry.
    destruct (attempt_loop fetch url options retries retryDelayMs
                (Z.to_nat (attemptCount retries)) 0 None) as [events r].
    destruct Hc as [Hr Hn]; [lia|lia| |assumption| |].
    + intros j Hj. apply Hbefore. lia.
    + rewrite Hat. cbn. destruct Hcancel as [-> | ->]; [reflexivity|].
      apply orb_true_r.
    + cbn [fst snd]. split; [assumption|lia].
  - intros -> first second H0 Hn0 H1 Hn1.
    destruct Hexhaust as (err & ab & Hlast & Hr & Hn).
    + intros j Hj. assert (j = 0 \/ j = 1)%nat as [-> | ->] by lia.
      * rewrite H0. cbn. apply negb_true_iff, String.eqb_neq. assumption.
      * rewrite H1. cbn. apply negb_true_iff, String.eqb_neq. assumption.
    + change (Z.to_nat 1) with 1%nat in Hlast. rewrite H1 in Hlast.
      injection Hlast as <- <-. split; [assumption|lia].
Qed.

Lemma fetchWithRetry_budget_witness :
  let outcome :=
    fetchWithRetry failing_twice "https://api" (mkOptions "POST" []) 1 350 in
  fst outcome
  = [EvFetch "https://api" (mkOptions "POST" []); EvTimer 350;
     EvFetch "https://api" (mkOptions "POST" [])]
  /\ snd outcome = Throw {| name := "TypeError"; message := "Failed to fetch" |}
  /\ fetches (fst outcome) = 2%nat.
Proof.
  pose proof (fetchWithRetry_budget failing_twice "https://api" (mkOptions "POST" []) 1 350
                ltac:(lia) ltac:(lia)) as (_ & Htrace & _ & _ & Hlast).
  destruct (Hlast eq_refl _ _ eq_refl ltac:(discriminate) eq_refl ltac:(discriminate))
    as [Hr Hn].
  cbv zeta. split; [|split].
  - rewrite Htrace, Hn. reflexivity.
  - exact Hr.
  - exact Hn.
Defined.


(** ** The request lifecycle registry *)

Section RegistryFacts.
Context `{Host}.

Lemma retire_lookup (requestId : string) (reg : registry) :
  inflightChats (retire requestId reg) !! requestId = None.
Proof. apply lookup_delete_eq. Qed.

Lemma retire_absent (requestId : string) (reg : registry) :
  inflightChats reg !! requestId = None -> retire requestId reg = reg.
Proof.
  intros Habsent. destruct reg as [table flags]. unfold retire. cbn in *.
  f_equal. apply delete_id. assumption.
Qed.

Lemma cancel_absent (requestId : string) (reg : registry) :
  inflightChats reg !! requestId = None ->
  cancel_chat (Some requestId) reg = (false, reg).
Proof. intros Habsent. unfold cancel_chat. rewrite Habsent. reflexivity. Qed.

(** C5. Cancelling a registered [requestId] aborts its controller, removes
    the entry and answers [aborted: true]; cancelling an absent one answers
    [aborted: false] and changes nothing; the [finally] of a [CHAT] call
    leaves no entry for its [requestId], whatever the call came to and
    whatever ran meanwhile; and in either order of cancellation and
    completion the first removes the entry and the second finds it absent
    and changes nothing. *)
Theorem registry_cancel_retire (reg : registry) (requestId : string) (controller : nat) :
  inflightChats reg !! requestId = Some controller ->
  (cancel_chat (Some requestId) reg
   = (true, {| inflightChats := delete requestId (inflightChats reg);
               aborted := {[controller]} ∪ aborted reg |}))
  /\ (forall (other : string) (reg' : registry),
        inflightChats reg' !! other = None ->
        cancel_chat (Some other) reg' = (false, reg'))
  /\ (forall (message_requestId : option string) (messages : value number)
             (env : chat_env) (reg' : registry),
        inflightChats (registry_after (chat message_requestId messages env reg'))
          !! chat_requestId message_requestId env = None)
  /\ (let cancelled := snd (cancel_chat (Some requestId) reg) in
      removes requestId reg cancelled = true
      /\ retire requestId cancelled = cancelled
      /\ removes requestId cancelled (retire requestId cancelled) = false)
  /\ (let retired := retire requestId reg in
      removes requestId reg retired = true
      /\ cancel_chat (Some requestId) retired = (false, retired)
      /\ removes requestId retired (snd (cancel_chat (Some requestId) retired)) = false).
Proof.
  intros Hlive.
  assert (Hcancel : cancel_chat (Some requestId) reg
    = (true, {| inflightChats := delete requestId (inflightChats reg);
                aborted := {[controller]} ∪ aborted reg |})).
  { unfold cancel_chat. rewrite Hlive. reflexivity. }
  split; [exact Hcancel|].
  split; [intros other reg'; apply cancel_absent|].
  split.
  { intros message_requestId messages env reg'. unfold chat.
    destruct (chat_try messages env) as [events r]. cbn [registry_after].
    apply retire_lookup. }
  split.
  - cbv zeta. rewrite Hcancel. cbn [snd].
    split; [|split].
    + unfold removes. apply bool_decide_eq_true. cbn.
      split; [eauto|apply lookup_delete_eq].
    + apply retire_absent. cbn. apply lookup_delete_eq.
    + unfold removes. apply bool_decide_eq_false. cbn.
      intros [[c Hc] _]. rewrite lookup_delete_eq in Hc. discriminate.
  - cbv zeta. rewrite (cancel_absent requestId (retire requestId reg)) by apply retire_lookup.
    split; [|split; [reflexivity|]].
    + unfold removes. apply bool_decide_eq_true.
      split; [eauto|apply retire_lookup].
    + unfold removes. apply bool_decide_eq_false. cbn [snd].
      intros [[c Hc] _]. rewrite retire_lookup in Hc. discriminate.
Qed.

End RegistryFacts.

Lemma registry_cancel_retire_witness :
  let reg := {| inflightChats := {["req-1" := 7%nat]}; aborted := ∅ |} in
  cancel_chat (Some "req-1") reg
  = (true, {| inflightChats := delete "req-1" (inflightChats reg);
              aborted := {[7%nat]} ∪ ∅ |})
  /\ cancel_chat (Some "req-1") (retire "req-1" reg) = (false, retire "req-1" reg).
Proof.
  intros reg.
  assert (Hlive : inflightChats reg !! "req-1" = Some 7%nat) by (vm_compute; reflexivity).
  pose proof (registry_cancel_retire reg "req-1" 7%nat Hlive)
    as (Hcancel & _ & _ & _ & _ & Hsecond & _).
  split; [exact Hcancel|exact Hsecond].
Defined.

(** ** The stream decoder: framing *)

Section DecoderFacts.
Context `{Host}.

Lemma bind_Ok {A B : Type} (a : A) (k : A -> result B) : (Ok a ≫= k) = k a.
Proof. reflexivity. Qed.

Lemma flush_all_app (blocks blocks' : list string) (st : accumulator) :
  flush_all (blocks ++ blocks') st = (flush_all blocks st ≫= flush_all blocks').
Proof.
  revert st. induction blocks as [|block blocks IH]; intros st; cbn [flush_all app].
  - reflexivity.
  - destruct (flushEventBlock block st) as [st'|err]; cbn; [apply IH|reflexivity].
Qed.

(** Enough fuel is as good as any more. *)
Lemma split_blocks_fuel (fuel fuel' : nat) (text : string) :
  (String.length text < fuel)%nat -> (String.length text < fuel')%nat ->
  split_blocks fuel text = split_blocks fuel' text.
Proof.
  revert fuel' text. induction fuel as [|fuel IH]; intros fuel' text Hf Hf'; [lia|].
  destruct fuel' as [|fuel']; [lia|]. cbn [split_blocks].
  destruct (indexOf text (nl ++ nl)) as [sepIndex|] eqn:Hsep; [|reflexivity].
  apply indexOf_bound in Hsep. cbn in Hsep.
  rewrite (IH fuel'); [reflexivity| |];
    rewrite length_slice_from; lia.
Qed.

(** The inner loop flushes the terminated blocks of the buffer and keeps
    the rest. *)
Lemma drain_blocks_split (fuel : nat) (buffer : string) (st : accumulator) :
  drain_blocks fuel buffer st
  = (st' ← flush_all (fst (split_blocks fuel buffer)) st;
     Ok (snd (split_blocks fuel buffer), st')).
Proof.
  revert buffer st. induction fuel as [|fuel IH]; intros buffer st; cbn [drain_blocks split_blocks].
  - reflexivity.
  - destruct (indexOf buffer (nl ++ nl)) as [sepIndex|]; [|reflexivity].
    destruct (split_blocks fuel (slice_from (sepIndex + 2) buffer)) as [blocks rest] eqn:Hsplit.
    cbn [fst snd flush_all].
    destruct (flushEventBlock (slice_to sepIndex buffer) st) as [st'|err]; [|reflexivity].
    rewrite !bind_Ok, IH, Hsplit. reflexivity.
Qed.

Lemma drain_split (buffer : string) (st : accumulator) :
  drain buffer st
  = (st' ← flush_all (fst (event_blocks buffer)) st;
     Ok (snd (event_blocks buffer), st')).
Proof. apply drain_blocks_split. Qed.

(** One turn of the framing. *)
Lemma event_blocks_step (text : string) :
  event_blocks text
  = match indexOf text (nl ++ nl) with
    | None => ([], text)
    | Some sepIndex =>
        (slice_to sepIndex text :: fst (event_blocks (slice_from (sepIndex + 2) text)),
         snd (event_blocks (slice_from (sepIndex + 2) text)))
    end.
Proof.
  unfold event_blocks at 1. cbn [split_blocks].
  destruct (indexOf text (nl ++ nl)) as [sepIndex|] eqn:Hsep; [|reflexivity].
  apply indexOf_bound in Hsep. cbn in Hsep.
  rewrite (split_blocks_fuel _ (S (String.length (slice_from (sepIndex + 2) text))))
    by (rewrite ?length_slice_from; lia).
  fold (event_blocks (slice_from (sepIndex + 2) text)).
  destruct (event_blocks (slice_from (sepIndex + 2) text)). reflexivity.
Qed.

(** Framing a text that grows: the blocks of its first part come first,
    and what follows is framed after the rest of that part. *)
Lemma event_blocks_append (a b : string) :
  event_blocks (a ++ b)
  = ((fst (event_blocks a) ++ fst (event_blocks (snd (event_blocks a) ++ b)))%list,
     snd (event_blocks (snd (event_blocks a) ++ b))).
Proof.
  remember (String.length a) as n eqn:Hn. revert a Hn.
  induction n as [n IH] using lt_wf_ind. intros a Hn.
  rewrite (event_blocks_step a).
  destruct (indexOf a (nl ++ nl)) as [sepIndex|] eqn:Hsep.
  - pose proof (indexOf_bound _ _ _ Hsep) as Hb. cbn in Hb.
    rewrite (event_blocks_step (a ++ b)).
    rewrite (indexOf_append _ b _ _ Hsep).
    rewrite slice_to_append, slice_from_append by lia.
    set (a' := slice_from (sepIndex + 2) a).
    assert (Ha' : (String.length a' < n)%nat).
    { unfold a'. rewrite length_slice_from. lia. }
    rewrite (IH _ Ha' a' eq_refl).
    cbn [fst snd app]. reflexivity.
  - cbn [fst snd app]. destruct (event_blocks (a ++ b)). reflexivity.
Qed.

(** The outer loop over a reader that hands out chunks: the terminated
    blocks of the whole text, flushed in order, and the rest. *)
Lemma read_loop_blocks (chunks : list string) (buffer : string) (st : accumulator) :
  read_loop (map Chunk chunks) buffer st
  = (st' ← flush_all (fst (event_blocks (stream_text buffer chunks))) st;
     Ok (snd (event_blocks (stream_text buffer chunks)), st')).
Proof.
  revert buffer st. induction chunks as [|decoded chunks IH]; intros buffer st;
    cbn [map read_loop]; rewrite drain_split.
  - unfold stream_text. cbn [map String.concat]. rewrite append_nil_r.
    destruct (flush_all (fst (event_blocks buffer)) st); reflexivity.
  - replace (stream_text buffer (decoded :: chunks))
      with (buffer ++ stream_text (normalize decoded) chunks).
    2:{ unfold stream_text. cbn [map String.concat].
        destruct chunks; cbn [map]; [rewrite !append_nil_r; reflexivity|].
        cbn [String.append]. reflexivity. }
    rewrite event_blocks_append.
    cbn [fst snd]. rewrite flush_all_app.
    destruct (flush_all (fst (event_blocks buffer)) st) as [st'|err]; [|reflexivity].
    rewrite !bind_Ok. rewrite IH.
    unfold stream_text. rewrite append_assoc. reflexivity.
Qed.

End DecoderFacts.

(** ** The stream decoder: final text *)

Section FinalText.
Context `{Host}.

Lemma trimStart_head (s : string) (c : ascii) (r : string) :
  trimStart s = String c r -> is_space c = false.
Proof.
  induction s as [|a s IH]; cbn [trimStart]; [discriminate|].
  destruct (is_space a) eqn:Ha; [exact IH|].
  intros Heq. injection Heq as <- _. exact Ha.
Qed.

Lemma trim_empty (s : string) : trim s = "" -> trimStart s = "".
Proof.
  unfold trim. destruct (trimStart s) as [|c r] eqn:Hstart; [reflexivity|].
  apply trimStart_head in Hstart. cbn [trimEnd]. rewrite Hstart.
  destruct (trimEnd r); discriminate.
Qed.

(** A text of white space has no [data:] line. *)
Lemma blank_no_data (s : string) :
  trimStart s = "" ->
  List.filter (fun line => startsWith line "data:") (split LF s) = [].
Proof.
  induction s as [|c s IH]; [reflexivity|].
  cbn [trimStart split]. destruct (is_space c) eqn:Hc; [|discriminate].
  intros Hs. specialize (IH Hs).
  destruct (Ascii.eqb c LF); [exact IH|].
  destruct (split LF s) as [|l ls]; cbn [List.filter startsWith] in *.
  - destruct c as [[] [] [] [] [] [] [] []]; try discriminate; reflexivity.
  - assert (Hd : Ascii.eqb "d" c = false).
    { destruct c as [[] [] [] [] [] [] [] []]; try discriminate; reflexivity. }
    rewrite Hd. destruct (startsWith l "data:"); [discriminate|exact IH].
Qed.

(** Flushing a blank block changes nothing: the code may skip it. *)
Lemma flushEventBlock_blank (block : string) (st : accumulator) :
  trim block = "" -> flushEventBlock block st = Ok st.
Proof.
  intros Hblank. unfold flushEventBlock, dataLines.
  rewrite (blank_no_data block (trim_empty block Hblank)). reflexivity.
Qed.

(** The decoder over a reader that hands out [chunks] and then is done:
    the blocks of the whole normalised text are flushed in order, the
    unterminated rest as a last block, and the final text is resolved. *)
Lemma readSseTextStream_blocks (chunks : list string) (initialBuffer : string) :
  readSseTextStream (map Chunk chunks) initialBuffer
  = (st ← flush_all (stream_blocks (stream_text initialBuffer chunks)) initial_accumulator;
     precedence not_blank st).
Proof.
  unfold readSseTextStream, stream_blocks. rewrite read_loop_blocks.
  destruct (event_blocks (stream_text initialBuffer chunks)) as [blocks rest].
  cbn [fst snd]. rewrite flush_all_app.
  destruct (flush_all blocks initial_accumulator) as [st|err]; [|reflexivity].
  rewrite !bind_Ok. cbn [flush_all].
  destruct (String.eqb_spec (trim rest) "") as [Hblank|_]; cbn [negb].
  - rewrite (flushEventBlock_blank rest st Hblank). reflexivity.
  - destruct (flushEventBlock rest st); reflexivity.
Qed.

End FinalText.

(** C1, as the code has it.  Once the reader is exhausted the decoder has
    flushed the blocks of the whole text in order, the unterminated rest
    as one final block, and its final text is: the declared done-text if
    it is not blank and at least as long as the concatenation of the
    incremental chunks; otherwise that concatenation if it is not blank;
    otherwise the done-text if it is not blank; otherwise the text that the
    whole-document extraction finds in the recorded envelope, the empty
    string when it finds none.  Blank means empty after [trim].  The deltas
    [Hel] and [lo] followed by the done-text [Hello] resolve to [Hello]. *)
Theorem final_text_precedence :
  (forall (H : Host) (chunks : list string) (initialBuffer : string),
      readSseTextStream (map Chunk chunks) initialBuffer
      = (st ← flush_all (stream_blocks (stream_text initialBuffer chunks))
                initial_accumulator;
         precedence not_blank st))
  /\ readSseTextStream
       [Chunk (event "{'type':'response.output_text.delta','delta':'Hel'}");
        Chunk (event "{'type':'response.output_text.delta','delta':'lo'}");
        Chunk (event "{'type':'response.output_text.done','text':'Hello'}")] ""
     = Ok "Hello".
Proof.
  split.
  - intros H chunks initialBuffer. apply readSseTextStream_blocks.
  - vm_compute. reflexivity.
Qed.

(** C1 as the specification words it fails on a done-text of one space:
    read as "non-empty", the precedence keeps the space, while the code
    finds it blank and ends on the empty string. *)
Lemma final_text_blank_done :
  let chunks := [event "{'type':'response.output_text.done','text':' '}"] in
  readSseTextStream (map Chunk chunks) "" = Ok ""
  /\ (st ← flush_all (stream_blocks (stream_text "" chunks)) initial_accumulator;
      precedence not_empty st) = Ok " ".
Proof. vm_compute. split; reflexivity. Qed.

(** ** The stream decoder: chunk boundaries *)

Section ChunkFacts.
Context `{Host}.

Lemma replace_cr_append (a b : string) :
  replace_cr (a ++ b) = replace_cr a ++ replace_cr b.
Proof. induction a as [|c a IH]; cbn; [reflexivity|]. rewrite IH. reflexivity. Qed.

Lemma replace_crlf_pair (c c' : ascii) (s : string) :
  replace_crlf (String c (String c' s))
  = if Ascii.eqb c CR && Ascii.eqb c' LF then String LF (replace_crlf s)
    else String c (replace_crlf (String c' s)).
Proof. reflexivity. Qed.

(** [\r\n] is replaced within each part when no pair is cut in two. *)
Lemma replace_crlf_append (a b : string) :
  ends_with_cr a = false ->
  replace_crlf (a ++ b) = replace_crlf a ++ replace_crlf b.
Proof.
  enough (Hboth : (ends_with_cr a = false ->
                   replace_crlf (a ++ b) = replace_crlf a ++ replace_crlf b)
                  /\ (forall c, ends_with_cr (String c a) = false ->
                        replace_crlf (String c a ++ b)
                        = replace_crlf (String c a) ++ replace_crlf b))
    by tauto.
  induction a as [|c' a IH].
  - split; [reflexivity|]. intros c Hc. cbn [ends_with_cr] in Hc.
    cbn [String.append replace_crlf]. rewrite Hc. cbn [andb].
    destruct b; reflexivity.
  - destruct IH as [IHa IHc]. split; [apply IHc|].
    intros c Hc. change (ends_with_cr (String c' a) = false) in Hc.
    change (String c (String c' a) ++ b) with (String c (String c' (a ++ b))).
    rewrite !replace_crlf_pair.
    destruct (Ascii.eqb c CR && Ascii.eqb c' LF).
    + destruct a as [|c'' a].
      * cbn [String.append]. reflexivity.
      * change (ends_with_cr (String c'' a) = false) in Hc.
        rewrite IHa by assumption. reflexivity.
    + change (String c' (a ++ b)) with (String c' a ++ b).
      rewrite IHc by assumption. reflexivity.
Qed.

Lemma normalize_append (a b : string) :
  ends_with_cr a = false -> normalize (a ++ b) = normalize a ++ normalize b.
Proof.
  intros Ha. unfold normalize. rewrite replace_crlf_append by assumption.
  apply replace_cr_append.
Qed.

Lemma concat_cons (x : string) (xs : list string) :
  String.concat "" (x :: xs) = x ++ String.concat "" xs.
Proof. destruct xs; cbn; [rewrite append_nil_r|]; reflexivity. Qed.

(** The text of chunks of which none ends on a carriage return is the
    normalised text of their concatenation. *)
Lemma stream_text_concat (chunks : list string) :
  Forall (fun decoded => ends_with_cr decoded = false) chunks ->
  stream_text "" chunks = normalize (String.concat "" chunks).
Proof.
  unfold stream_text. cbn [String.append].
  induction 1 as [|decoded chunks Hdecoded _ IH]; [reflexivity|].
  cbn [map]. rewrite !concat_cons, IH.
  symmetry. apply normalize_append. assumption.
Qed.

(** Chunk boundaries that cut no [\r\n] in two do not change the final
    text. *)
Lemma chunk_independence_without_cut (chunks : list string) :
  Forall (fun decoded => ends_with_cr decoded = false) chunks ->
  readSseTextStream (map Chunk chunks) ""
  = readSseTextStream [Chunk (String.concat "" chunks)] "".
Proof.
  intros Hchunks.
  change [Chunk (String.concat "" chunks)] with (map Chunk [String.concat "" chunks]).
  rewrite !readSseTextStream_blocks. rewrite (stream_text_concat chunks Hchunks).
  unfold stream_text. cbn [map]. rewrite concat_cons, append_nil_r. reflexivity.
Qed.

End ChunkFacts.

(** C2 fails in the code on a boundary inside a [\r\n] pair.  An event of
    two [data:] lines, delivered whole, is one block whose payload parses;
    delivered with the boundary between the [\r] and the [\n] of its first
    line end, each half of the pair becomes a line feed, the blank line
    they make ends the block early, and the two halves of the payload are
    appended as literal text. *)
Lemma chunk_boundary_inside_crlf :
  let line1 := quoted "data: {'type':'response.output_text.delta'," in
  let line2 := quoted "data: 'delta':'Hi'}" in
  readSseTextStream [Chunk (line1 ++ crlf ++ line2 ++ crlf ++ crlf)] "" = Ok "Hi"
  /\ readSseTextStream [Chunk (line1 ++ cr); Chunk (nl ++ line2 ++ crlf ++ crlf)] ""
     = Ok (quoted "{'type':'response.output_text.delta','delta':'Hi'}")
  /\ readSseTextStream [Chunk ("data: a" ++ crlf ++ "data: b" ++ crlf ++ crlf)] ""
     = Ok ("a" ++ nl ++ "b")
  /\ readSseTextStream [Chunk ("data: a" ++ cr); Chunk (nl ++ "data: b" ++ crlf ++ crlf)] ""
     = Ok "ab".
Proof. vm_compute. repeat split; reflexivity. Qed.

(** ** The response mode sniffer *)

Section SnifferFacts.

Lemma includes_cons (c : ascii) (s p : string) :
  includes (String c s) p = startsWith (String c s) p || includes s p.
Proof.
  unfold includes. cbn [indexOf].
  destruct (startsWith (String c s) p); [reflexivity|].
  destruct (indexOf s p); reflexivity.
Qed.

(** A prefix without a line feed is met by the first line of a text as it
    is by the text, and by a later line right after a line feed. *)
Lemma split_lines_begin (text : string) :
  forall p : string,
    includes p nl = false ->
    match split LF text with
    | [] => False
    | first :: later =>
        startsWith first p = startsWith text p
        /\ existsb (fun line => startsWith line p) later = includes text (nl ++ p)
    end.
Proof.
  induction text as [|c text IH]; intros p Hp.
  - cbn. split; [reflexivity|]. destruct p; reflexivity.
  - cbn [split]. destruct (Ascii.eqb_spec c LF) as [->|Hc].
    + specialize (IH p Hp). destruct (split LF text) as [|first later]; [contradiction|].
      destruct IH as [Hfirst Hlater]. split.
      * destruct p as [|a p]; [reflexivity|].
        cbn [startsWith]. destruct (Ascii.eqb_spec a LF) as [->|Ha]; [|reflexivity].
        rewrite includes_cons in Hp.
        assert (Hnl : startsWith (String LF p) nl = true) by (destruct p; reflexivity).
        rewrite Hnl in Hp. discriminate.
      * cbn [existsb]. rewrite Hfirst, Hlater.
        rewrite includes_cons.
        change (nl ++ p) with (String LF p). cbn [startsWith].
        rewrite Ascii.eqb_refl. reflexivity.
    + pose proof (IH p Hp) as IHp.
      destruct (split LF text) as [|first later] eqn:Hsplit; [contradiction|].
      destruct IHp as [Hfirst Hlater]. split.
      * destruct p as [|a p]; [reflexivity|]. cbn [startsWith].
        destruct (Ascii.eqb a c); [|reflexivity].
        assert (Hp' : includes p nl = false).
        { rewrite includes_cons in Hp. apply orb_false_iff in Hp. tauto. }
        specialize (IH p Hp'). tauto.
      * rewrite Hlater. rewrite includes_cons.
        change (nl ++ p) with (String LF p). cbn [startsWith].
        destruct (Ascii.eqb_spec LF c) as [<-|_]; [contradiction|]. reflexivity.
Qed.

Lemma line_begins_includes (text p : string) :
  includes p nl = false ->
  line_begins text p = startsWith text p || includes text (nl ++ p).
Proof.
  intros Hp. unfold line_begins. pose proof (split_lines_begin text p Hp) as Hs.
  destruct (split LF text) as [|first later]; [contradiction|].
  destruct Hs as [Hfirst Hlater]. cbn [existsb]. rewrite Hfirst, Hlater. reflexivity.
Qed.

(** Leading white space hides nothing that begins with a visible unit. *)
Lemma startsWith_trimStart (text p : string) :
  match p with String a _ => is_space a = false | "" => True end ->
  startsWith text p = true -> startsWith (trimStart text) p = true.
Proof.
  intros Hp Hs. destruct text as [|c text]; [assumption|].
  destruct p as [|a p]; [destruct (trimStart (String c text)); reflexivity|].
  cbn [startsWith] in Hs. destruct (Ascii.eqb_spec a c) as [<-|]; [|discriminate].
  cbn [trimStart]. rewrite Hp. cbn [startsWith]. rewrite Ascii.eqb_refl. assumption.
Qed.

Lemma sniff_prefix (text p : string) :
  includes p nl = false ->
  match p with String a _ => is_space a = false | "" => True end ->
  startsWith (trimStart text) p || includes text (nl ++ p)
  = startsWith (trimStart text) p || line_begins text p.
Proof.
  intros Hnl Hp. rewrite line_begins_includes by assumption.
  destruct (startsWith text p) eqn:Hs; [|reflexivity].
  rewrite (startsWith_trimStart text p Hp Hs). reflexivity.
Qed.

End SnifferFacts.

(** C7, as the code has it.  A first chunk is read as [json] when its
    trimmed text starts with an opening brace or bracket, whatever else it
    holds; otherwise as [event_stream] when the trimmed text starts with
    [data:], [event:] or a colon, or when a line of the text begins with
    [data:] or [event:]; otherwise as [json]. A later line that begins
    with a colon alone decides nothing. *)
Theorem sniff_precedence (firstChunk : string) :
  sniff firstChunk = sniff_by_lines ["data:"; "event:"] firstChunk.
Proof.
  unfold sniff, sniff_by_lines, looksLikeSse, looksLikeJson.
  set (text := normalize firstChunk). set (trimmed := trimStart text).
  cbn [existsb].
  pose proof (sniff_prefix text "data:" eq_refl eq_refl) as Hdata.
  pose proof (sniff_prefix text "event:" eq_refl eq_refl) as Hevent.
  fold trimmed in Hdata, Hevent.
  destruct (startsWith trimmed "{"), (startsWith trimmed "["),
    (startsWith trimmed "data:"), (startsWith trimmed "event:"),
    (startsWith trimmed ":"),
    (includes text (nl ++ "data:")), (includes text (nl ++ "event:")),
    (line_begins text "data:"), (line_begins text "event:");
    cbn in *; try reflexivity; try discriminate.
Qed.

(** C7 as the specification words it fails on a later line that begins
    with a colon: the words make it an event stream, the code reads
    [json]. *)
Lemma sniff_colon_line :
  let firstChunk := "status" ++ nl ++ ": ok" in
  sniff firstChunk = json
  /\ sniff_by_lines ["data:"; "event:"; ":"] firstChunk = event_stream.
Proof. vm_compute. split; reflexivity. Qed.

(** ** Reading a response: the sniff decides *)

Section ReadingFacts.
Context `{Host}.

(** A body whose first read hands out a chunk: read as an event stream or
    as one JSON document, as the chunk is sniffed. *)
Lemma readResponseText_first (ok : bool) (status : nat)
  (statusText firstChunk : string) (reader : list read_result) :
  readResponseText
    {| ok := ok; status := status; statusText := statusText;
       body := Some (Chunk firstChunk :: reader) |}
  = match sniff firstChunk with
    | event_stream =>
        text ← readSseTextStream reader (normalize firstChunk); Ok (VStr text)
    | json =>
        rest ← read_all reader; json_document (normalize firstChunk ++ rest)
    end.
Proof.
  unfold readResponseText, sniff. cbn [body read_first]. rewrite bind_Ok.
  cbn [negb andb].
  destruct (looksLikeSse (trimStart (normalize firstChunk)) (normalize firstChunk)
            && negb (looksLikeJson (trimStart (normalize firstChunk)))) eqn:Hsse.
  - reflexivity.
  - destruct (read_all reader) as [rest|err]; [|reflexivity].
    rewrite !bind_Ok. reflexivity.
Qed.

End ReadingFacts.

(** C6, as the code has it.  The mode settled on for the first chunk
    decides how the body is read: a body sniffed as an event stream is
    decoded as one and the result of the decoder is the result of the
    read, whatever text it yields and also when it yields none; the body
    is parsed as one JSON document only when the first chunk is sniffed as
    [json]. *)
Theorem readResponseText_by_sniff (H : Host) (ok : bool) (status : nat)
  (statusText firstChunk : string) (reader : list read_result) :
  let res := {| ok := ok; status := status; statusText := statusText;
                body := Some (Chunk firstChunk :: reader) |} in
  (sniff firstChunk = event_stream ->
   readResponseText res
   = (text ← readSseTextStream reader (normalize firstChunk); Ok (VStr text)))
  /\ (sniff firstChunk = json ->
      readResponseText res
      = (rest ← read_all reader; json_document (normalize firstChunk ++ rest)))
  /\ (sniff firstChunk = event_stream ->
      readSseTextStream reader (normalize firstChunk) = Ok "" ->
      readResponseText res = Ok (VStr "")).
Proof.
  intros res. subst res. rewrite readResponseText_first.
  split; [|split].
  - intros ->. reflexivity.
  - intros ->. reflexivity.
  - intros -> ->. reflexivity.
Qed.

(** C6 as the specification words it fails on a body that is one comment
    block: it is sniffed as an event stream, the decoder finds no text in
    it, and the read answers the empty text; the body is not parsed as a
    JSON document, which would have failed. *)
Lemma sniffed_stream_without_text :
  let firstChunk := ": ping" ++ nl ++ nl in
  let res := {| ok := true; status := 200; statusText := "OK";
                body := Some [Chunk firstChunk] |} in
  sniff firstChunk = event_stream
  /\ readSseTextStream [] (normalize firstChunk) = Ok ""
  /\ readResponseText res = Ok (VStr "")
  /\ json_document firstChunk = Throw (Error "Invalid JSON response from API.").
Proof. vm_compute. repeat split; reflexivity. Qed.

(** ** The chat handler *)

Section ChatFacts.
Context `{Host}.

(** A first call of [fetch] that resolves is the only one. *)
Lemma fetchWithRetry_resolved (fetch : transport) (url : string)
  (options : request_options) (retries delay : Z) (res : response) :
  fetch 0%nat = Resolved res ->
  fetchWithRetry fetch url options retries delay = ([EvFetch url options], Ok res).
Proof.
  intros Hres. unfold fetchWithRetry.
  destruct (Z.to_nat (attemptCount retries)) as [|fuel] eqn:Hfuel.
  - unfold attemptCount in Hfuel. lia.
  - cbn [attempt_loop]. rewrite Hres. reflexivity.
Qed.


(** The default budget of the handler, call by call. *)
Lemma fetchWithRetry_default (f : transport) (url : string) (options : request_options) :
  fetchWithRetry f url options 1 350
  = match f 0%nat with
    | Resolved res => ([EvFetch url options], Ok res)
    | Rejected err0 aborted0 =>
        if aborted0 || (name err0 =? "AbortError")
        then ([EvFetch url options], Throw err0)
        else ([EvFetch url options; EvTimer 350; EvFetch url options],
              match f 1%nat with
              | Resolved res => Ok res
              | Rejected err1 _ => Throw err1
              end)
    end.
Proof.
  unfold fetchWithRetry. change (Z.to_nat (attemptCount 1)) with 2%nat.
  cbn [attempt_loop]. destruct (f 0%nat) as [res|err0 ab0]; [reflexivity|].
  destruct (ab0 || (name err0 =? "AbortError")); [reflexivity|].
  change (attemptCount 1 <=? Z.of_nat 0 + 1)%Z with false. cbn iota.
  change (0 + 1)%nat with 1%nat.
  destruct (f 1%nat) as [res|err1 ab1]; [reflexivity|].
  destruct (ab1 || (name err1 =? "AbortError")); reflexivity.
Qed.

(** [toResponsesInput] reads its argument through [Array.isArray], as the
    handler does before it. *)
Lemma toResponsesInput_as_array (messages : value number) :
  toResponsesInput (VArr (as_array messages)) = toResponsesInput messages.
Proof. reflexivity. Qed.

(** The [try] block of a configured call whose messages are converted. *)
Lemma chat_try_configured (messages : value number) (input : list (value number))
  (env : chat_env) (cfg : config) :
  configured env cfg -> toResponsesInput messages = Ok input ->
  chat_try messages env
  = (fst (fetchWithRetry (fetch env) (trim (apiUrl cfg)) (chat_options cfg) 1 350),
     res ← snd (fetchWithRetry (fetch env) (trim (apiUrl cfg)) (chat_options cfg) 1 350);
     if negb (ok res) then http_failure res
     else
       content ← readResponseText res;
       text ← js_String (if truthy content then content else VStr "");
       Ok (Success text)).
Proof.
  intros (Hcfg & Hurl & Htoken & Hmodel) Hinput. unfold chat_try. rewrite Hcfg.
  apply String.eqb_neq in Hurl, Htoken, Hmodel. rewrite Hurl, Htoken, Hmodel.
  cbv zeta. rewrite toResponsesInput_as_array, Hinput.
  destruct (fetchWithRetry (fetch env) (trim (apiUrl cfg)) (chat_options cfg) 1 350).
  reflexivity.
Qed.

(** The [try] block of a configured call whose messages are refused: the
    error of the conversion, and no call. *)
Lemma chat_try_refused (messages : value number) (err : error)
  (env : chat_env) (cfg : config) :
  configured env cfg -> toResponsesInput messages = Throw err ->
  chat_try messages env = ([], Throw err).
Proof.
  intros (Hcfg & Hurl & Htoken & Hmodel) Hinput. unfold chat_try. rewrite Hcfg.
  apply String.eqb_neq in Hurl, Htoken, Hmodel. rewrite Hurl, Htoken, Hmodel.
  cbv zeta. rewrite toResponsesInput_as_array, Hinput. reflexivity.
Qed.

Lemma chat_sent (message_requestId : option string) (messages : value number)
  (env : chat_env) (reg : registry) :
  sent (chat message_requestId messages env reg)
  = match snd (chat_try messages env) with
    | Ok response => response
    | Throw err => chat_catch err
    end.
Proof. unfold chat. destruct (chat_try messages env). reflexivity. Qed.

Lemma chat_events (message_requestId : option string) (messages : value number)
  (env : chat_env) (reg : registry) :
  events (chat message_requestId messages env reg) = fst (chat_try messages env).
Proof. unfold chat. destruct (chat_try messages env). reflexivity. Qed.

Lemma http_failure_detail (res : response) (text : string) :
  response_text res = Ok text ->
  http_failure res
  = Ok (Failed ("HTTP " ++ pretty (status res) ++ ": " ++ failure_detail res text)).
Proof.
  intros Htext. unfold http_failure, failure_detail. rewrite Htext, bind_Ok.
  destruct (match JSON_parse text with
            | Some maybe => prop (prop maybe "error") "message"
            | None => VUndefined
            end) as [| | | |m| |]; cbn [typeof_string str_of andb];
    try (destruct (text =? ""); reflexivity).
  destruct (trim m =? ""); cbn [negb]; [|reflexivity].
  destruct (text =? ""); reflexivity.
Qed.

(** The call whose first [fetch] resolves to a response with [ok] set:
    one HTTP call, and what is sent comes from reading the response. *)
Lemma chat_resolved (message_requestId : option string) (messages : value number)
  (input : list (value number)) (env : chat_env)
  (reg : registry) (cfg : config) (res : response) :
  configured env cfg -> toResponsesInput messages = Ok input ->
  fetch env 0%nat = Resolved res -> ok res = true ->
  events (chat message_requestId messages env reg)
    = [EvFetch (trim (apiUrl cfg)) (chat_options cfg)]
  /\ sent (chat message_requestId messages env reg)
     = match readResponseText res with
       | Throw err => chat_catch err
       | Ok content =>
           match js_String (if truthy content then content else VStr "") with
           | Throw err => chat_catch err
           | Ok text => Success text
           end
       end.
Proof.
  intros Hcfg Hinput Hres Hok.
  rewrite chat_sent, chat_events, (chat_try_configured messages input env cfg Hcfg Hinput).
  rewrite (fetchWithRetry_resolved _ _ _ _ _ _ Hres). cbn [fst snd].
  rewrite bind_Ok, Hok. cbn [negb]. split; [reflexivity|].
  destruct (readResponseText res) as [content|err]; [|reflexivity].
  rewrite bind_Ok.
  destruct (js_String (if truthy content then content else VStr "")); reflexivity.
Qed.

End ChatFacts.

(** ** A body that is neither JSON nor an event stream *)




(** ** An explicit error event *)

Section ErrorEventFacts.
Context `{Host}.

Lemma dataStr_no_lines (block : string) :
  length (dataLines block) = 0%nat -> dataStr block = "".
Proof.
  unfold dataStr. destruct (dataLines block); [reflexivity|discriminate].
Qed.

(** Flushing an error event throws the message it carries. *)
Lemma flushEventBlock_error (block : string) (payload : value number) (st : accumulator) :
  error_event block payload ->
  flushEventBlock block st = Throw (Error (carried_message payload)).
Proof.
  intros (Hdata & Hdone & Hparse & Htype). unfold flushEventBlock.
  destruct (Nat.eqb_spec (length (dataLines block)) 0) as [Hnone|_].
  { apply dataStr_no_lines in Hnone. contradiction. }
  apply String.eqb_neq in Hdata, Hdone. rewrite Hdata, Hdone. cbn [orb].
  rewrite Hparse. unfold handle_payload.
  destruct (prop payload "type") as [| | | |type| |]; try discriminate.
  cbn [is_str] in *. apply String.eqb_eq in Htype. subst type.
  cbn [String.eqb Ascii.eqb Bool.eqb andb].
  unfold carried_message.
  destruct (prop (prop payload "error") "message"); cbn [typeof_string str_of andb]; try reflexivity.
  destruct (trim s =? ""); reflexivity.
Qed.

Lemma read_loop_drain_throw (reader : list read_result) (buffer : string)
  (st : accumulator) (err : error) :
  drain buffer st = Throw err -> read_loop reader buffer st = Throw err.
Proof.
  intros Hdrain. destruct reader as [|[decoded|err'] reader];
    cbn [read_loop]; rewrite Hdrain; reflexivity.
Qed.

(** What the loop threw it throws whatever the reader still holds. *)
Lemma read_loop_abort (reader more : list read_result) (buffer : string)
  (st : accumulator) (err : error) :
  read_loop reader buffer st = Throw err ->
  read_loop (reader ++ more) buffer st = Throw err.
Proof.
  revert buffer st. induction reader as [|[decoded|err'] reader IH]; intros buffer st;
    cbn [app].
  - cbn [read_loop]. intros Hthrow. apply read_loop_drain_throw.
    destruct (drain buffer st) as [[buffer' st']|err']; [discriminate|exact Hthrow].
  - cbn [read_loop].
    destruct (drain buffer st) as [[buffer' st']|err']; [|intros Hthrow; exact Hthrow].
    rewrite !bind_Ok. apply IH.
  - cbn [read_loop].
    destruct (drain buffer st) as [[buffer' st']|err'']; intros Hthrow; exact Hthrow.
Qed.

Lemma flush_all_abort (before after : list string) (block : string)
  (st0 st : accumulator) (err : error) :
  flush_all before st0 = Ok st -> flushEventBlock block st = Throw err ->
  flush_all (before ++ block :: after) st0 = Throw err.
Proof.
  intros Hbefore Hblock. rewrite flush_all_app, Hbefore, bind_Ok.
  cbn [flush_all]. rewrite Hblock. reflexivity.
Qed.

End ErrorEventFacts.

(** ** Cancellation in the catch block *)

Section AbortFacts.
Context `{Host}.

Lemma startsWith_trans (s q p : string) :
  startsWith s q = true -> startsWith q p = true -> startsWith s p = true.
Proof.
  revert s q. induction p as [|a p IH]; intros s q Hsq Hqp.
  - destruct s; reflexivity.
  - destruct q as [|b q]; [discriminate|]. destruct s as [|c s]; [discriminate|].
    cbn [startsWith] in *.
    destruct (Ascii.eqb_spec a b) as [->|]; [|discriminate].
    destruct (Ascii.eqb b c); [|discriminate]. exact (IH _ _ Hsq Hqp).
Qed.

Lemma includes_empty (p : string) : includes "" p = startsWith "" p.
Proof. unfold includes. cbn [indexOf]. destruct (startsWith "" p); reflexivity. Qed.

(** A text that holds [q] holds every prefix of [q]. *)
Lemma includes_prefix (s q p : string) :
  startsWith q p = true -> includes s q = true -> includes s p = true.
Proof.
  intros Hqp. induction s as [|c s IH]; intros Hs.
  - rewrite includes_empty in *. exact (startsWith_trans _ _ _ Hs Hqp).
  - rewrite includes_cons in *. apply orb_true_iff in Hs. apply orb_true_iff.
    destruct Hs as [Hs|Hs]; [left|right; auto].
    exact (startsWith_trans _ _ _ Hs Hqp).
Qed.

(** A text holds what its end holds. *)
Lemma includes_append_r (s t p : string) :
  includes t p = true -> includes (s ++ t) p = true.
Proof.
  intros Ht. induction s as [|c s IH]; [exact Ht|].
  change (String c s ++ t) with (String c (s ++ t)).
  rewrite includes_cons, IH. apply orb_true_r.
Qed.

Lemma toLowerAscii_append (s t : string) :
  toLowerAscii (s ++ t) = toLowerAscii s ++ toLowerAscii t.
Proof. induction s as [|c s IH]; cbn; [reflexivity|]. rewrite IH. reflexivity. Qed.

Lemma test_ci_append_r (p s t : string) :
  test_ci p t = true -> test_ci p (s ++ t) = true.
Proof.
  unfold test_ci. rewrite toLowerAscii_append. apply includes_append_r.
Qed.

(** A message that matches shows in the string form of its error. *)
Lemma test_ci_error_toString (p : string) (err : error) :
  test_ci p (message err) = true -> test_ci p (error_toString err) = true.
Proof.
  intros Hm. unfold error_toString.
  destruct (name err =? ""); [assumption|].
  destruct (String.eqb_spec (message err) "") as [Hempty|_].
  - rewrite Hempty in Hm. destruct p as [|a p]; [|discriminate].
    unfold test_ci. destruct (toLowerAscii (name err)); reflexivity.
  - rewrite <- append_assoc. apply test_ci_append_r. assumption.
Qed.

(** The string form of [new Error(m)] matches [abort] when [m] does. *)
Lemma test_ci_Error (m : string) :
  test_ci "abort" (error_toString (Error m)) = test_ci "abort" m.
Proof.
  unfold error_toString, Error. cbn [name message String.eqb].
  destruct (String.eqb_spec m "") as [->|_]; [reflexivity|].
  unfold test_ci. rewrite toLowerAscii_append.
  cbn [toLowerAscii String.append].
  repeat (rewrite includes_cons; cbn [startsWith orb];
          match goal with |- context [Ascii.eqb ?a ?b] =>
            change (Ascii.eqb a b) with false end; cbn [orb]).
  reflexivity.
Qed.

(** When the catch block answers the cancellation marker. *)
Lemma chat_catch_cancelled (err : error) :
  chat_catch err = Cancelled
  <-> name err = "AbortError"
      \/ test_ci "abort" (message err) = true
      \/ test_ci "abort" (error_toString err) = true.
Proof.
  unfold chat_catch. split.
  - destruct (String.eqb_spec (name err) "AbortError") as [Hname|_]; [auto|].
    destruct (test_ci "aborted" (message err)) eqn:Haborted.
    + intros _. right. left.
      exact (includes_prefix _ "aborted" "abort" eq_refl Haborted).
    + destruct (test_ci "abort" (error_toString err)); [auto|].
      cbn [orb]. discriminate.
  - intros [Hname|[Hmessage|Hstring]].
    + rewrite Hname. reflexivity.
    + rewrite (test_ci_error_toString _ _ Hmessage), !orb_true_r. reflexivity.
    + rewrite Hstring, !orb_true_r. reflexivity.
Qed.

(** A failure that the catch block reports never mentions [abort]. *)
Lemma chat_catch_failed (err : error) (m : string) :
  chat_catch err = Failed m -> test_ci "abort" m = false.
Proof.
  intros Hfailed.
  assert (Hnot : chat_catch err <> Cancelled) by (rewrite Hfailed; discriminate).
  rewrite chat_catch_cancelled in Hnot.
  assert (Hmessage : test_ci "abort" (message err) = false).
  { destruct (test_ci "abort" (message err)); [exfalso; auto|reflexivity]. }
  assert (Hstring : test_ci "abort" (error_toString err) = false).
  { destruct (test_ci "abort" (error_toString err)); [exfalso; auto|reflexivity]. }
  unfold chat_catch in Hfailed.
  destruct ((name err =? "AbortError") || test_ci "aborted" (message err)
            || test_ci "abort" (error_toString err)); [discriminate|].
  injection Hfailed as <-.
  set (rawMsg := if negb (message err =? "") then message err else error_toString err).
  assert (Hraw : test_ci "abort" rawMsg = false).
  { unfold rawMsg. destruct (negb (message err =? "")); assumption. }
  destruct (rawMsg =? "Failed to fetch"); [reflexivity|].
  destruct (negb (rawMsg =? "")); [assumption|reflexivity].
Qed.

End AbortFacts.

Section CatchFacts.
Context `{Host}.

(** What the catch block makes of [new Error(m)]. *)
Lemma chat_catch_Error (m : string) :
  m <> "" ->
  chat_catch (Error m)
  = if test_ci "abort" m then Cancelled
    else if m =? "Failed to fetch"
    then Failed "Network error: Failed to fetch (temporary connection issue or API unreachable)."
    else Failed m.
Proof.
  intros Hm. unfold chat_catch. rewrite test_ci_Error.
  change (name (Error m)) with "Error". change (message (Error m)) with m.
  change ("Error" =? "AbortError") with false. cbn [orb].
  destruct (test_ci "abort" m) eqn:Habort; [rewrite orb_true_r; reflexivity|].
  destruct (test_ci "aborted" m) eqn:Haborted.
  { unfold test_ci in Habort, Haborted.
    rewrite (includes_prefix _ "aborted" "abort" eq_refl Haborted) in Habort. discriminate. }
  cbn [orb]. apply String.eqb_neq in Hm. rewrite Hm. cbn [negb].
  destruct (m =? "Failed to fetch"); [reflexivity|].
  rewrite Hm. reflexivity.
Qed.

Lemma carried_message_not_empty (payload : value number) :
  carried_message payload <> "".
Proof.
  unfold carried_message.
  destruct (prop (prop payload "error") "message"); try discriminate.
  destruct (String.eqb_spec (trim s) "") as [|Hblank]; [discriminate|].
  intros ->. apply Hblank. reflexivity.
Qed.

End CatchFacts.

(** C3, as the code has it.  Flushing a block whose data payload parses
    to an event of type [response.error] throws an [Error] with the
    message the event carries, or with [Response error.] when that message
    is absent, not a string or blank.  The decoder then stops: whatever
    blocks follow in the text and whatever the reader still holds, the
    read ends with this error.  The handler, whose messages were
    converted before the call, makes one HTTP call, none after the error,
    and answers [Failed] with the carried message, except
    that a message matching [abort] in any case is answered as [Cancelled]
    and the message [Failed to fetch] is replaced by the network
    diagnostic.  The event with the message [rate limited] is answered
    [Failed "rate limited"]. *)
Theorem error_event_aborts :
  (forall (H : Host),
      (forall block payload st,
          error_event block payload ->
          flushEventBlock block st = Throw (Error (carried_message payload)))
      /\ (forall chunks more buffer before block after payload st,
            fst (event_blocks (stream_text buffer chunks)) = (before ++ block :: after)%list ->
            flush_all before initial_accumulator = Ok st ->
            error_event block payload ->
            readSseTextStream (map Chunk chunks ++ more) buffer
            = Throw (Error (carried_message payload)))
      /\ (forall chunks buffer before block after payload st,
            stream_blocks (stream_text buffer chunks) = (before ++ block :: after)%list ->
            flush_all before initial_accumulator = Ok st ->
            error_event block payload ->
            readSseTextStream (map Chunk chunks) buffer
            = Throw (Error (carried_message payload)))
      /\ (forall payload m,
            prop (prop payload "error") "message" = VStr m -> trim m <> "" ->
            carried_message payload = m)
      /\ (forall payload,
            (forall m, prop (prop payload "error") "message" = VStr m -> trim m = "") ->
            carried_message payload = "Response error.")
      /\ (forall message_requestId messages input env reg cfg res payload,
            configured env cfg -> toResponsesInput messages = Ok input ->
            fetch env 0%nat = Resolved res -> ok res = true ->
            readResponseText res = Throw (Error (carried_message payload)) ->
            let outcome := chat message_requestId messages env reg in
            let m := carried_message payload in
            fetches (events outcome) = 1%nat
            /\ sent outcome
               = if test_ci "abort" m then Cancelled
                 else if m =? "Failed to fetch"
                 then Failed "Network error: Failed to fetch (temporary connection issue or API unreachable)."
                 else Failed m))
  /\ (let outcome :=
        chat None example_messages
          (answering (ok_response
             [event "{'type':'response.output_text.delta','delta':'Hi'}";
              event "{'type':'response.error','error':{'message':'rate limited'}}";
              event "{'type':'response.output_text.delta','delta':' there'}"]))
          (mkRegistry ∅ ∅) in
      sent outcome = Failed "rate limited" /\ fetches (events outcome) = 1%nat).
Proof.
  split; [|vm_compute; split; reflexivity].
  intros H. split; [|split; [|split; [|split; [|split]]]].
  - intros block payload st. apply flushEventBlock_error.
  - intros chunks more buffer before block after payload st Hblocks Hbefore Hevent.
    unfold readSseTextStream.
    rewrite (read_loop_abort _ more _ _ (Error (carried_message payload))); [reflexivity|].
    rewrite read_loop_blocks, Hblocks.
    rewrite (flush_all_abort before after block _ st (Error (carried_message payload)));
      [reflexivity|assumption|].
    apply flushEventBlock_error. assumption.
  - intros chunks buffer before block after payload st Hblocks Hbefore Hevent.
    rewrite readSseTextStream_blocks, Hblocks.
    rewrite (flush_all_abort before after block _ st (Error (carried_message payload)));
      [reflexivity|assumption|].
    apply flushEventBlock_error. assumption.
  - intros payload m Hm Hblank. unfold carried_message. rewrite Hm.
    apply String.eqb_neq in Hblank. rewrite Hblank. reflexivity.
  - intros payload Hblank. unfold carried_message.
    destruct (prop (prop payload "error") "message") as [| | | |m| |]; try reflexivity.
    rewrite (Hblank m eq_refl). reflexivity.
  - intros message_requestId messages input env reg cfg res payload
      Hcfg Hinput Hres Hok Hread outcome m.
    destruct (chat_resolved message_requestId messages input env reg cfg res
                Hcfg Hinput Hres Hok) as [Hevents Hsent].
    subst outcome. rewrite Hevents, Hsent, Hread. split; [reflexivity|].
    apply chat_catch_Error. apply carried_message_not_empty.
Qed.

(** C3 as the specification words it fails on a carried message that
    mentions an abort: the call is answered as cancelled, the message is
    not reported. *)
Lemma error_event_reported_cancelled :
  let outcome :=
    chat None example_messages
      (answering (ok_response
         [event "{'type':'response.error','error':{'message':'Upstream aborted the run'}}"]))
      (mkRegistry ∅ ∅) in
  readSseTextStream
    [Chunk (event "{'type':'response.error','error':{'message':'Upstream aborted the run'}}")] ""
  = Throw (Error "Upstream aborted the run")
  /\ sent outcome = Cancelled
  /\ sent outcome <> Failed "Upstream aborted the run".
Proof. vm_compute. repeat split; discriminate. Qed.

(** C10, as the code has it.  A failure that reaches the catch block,
    whatever threw it in the [try] block, is answered with the
    cancellation marker exactly when the name of the error is
    [AbortError] or its message or its string form matches [abort] in any
    case; so a [Failed] answer of the catch block never mentions [abort],
    and an error event whose carried message does is answered
    [Cancelled].  A response of a failed status whose body text is read
    does not reach the catch block: it is answered in the [try] block, as
    [Failed] with [HTTP], the status and the detail of the text, whatever
    the text says and whichever attempt brought the response.  When the
    read of that body is rejected, the rejection reaches the catch block
    as any other failure does. *)
Theorem catch_reports_cancellation (H : Host) (message_requestId : option string)
  (messages : value number) (env : chat_env) (reg : registry) :
  let response := sent (chat message_requestId messages env reg) in
  (forall err,
      snd (chat_try messages env) = Throw err ->
      (response = Cancelled
       <-> name err = "AbortError"
           \/ test_ci "abort" (message err) = true
           \/ test_ci "abort" (error_toString err) = true)
      /\ (forall m, response = Failed m -> test_ci "abort" m = false))
  /\ (forall block payload st,
        error_event block payload ->
        test_ci "abort" (carried_message payload) = true ->
        flushEventBlock block st = Throw (Error (carried_message payload))
        /\ chat_catch (Error (carried_message payload)) = Cancelled)
  /\ (forall cfg input res,
        configured env cfg -> toResponsesInput messages = Ok input ->
        snd (fetchWithRetry (fetch env) (trim (apiUrl cfg)) (chat_options cfg) 1 350)
        = Ok res ->
        ok res = false ->
        (forall text,
            response_text res = Ok text ->
            snd (chat_try messages env)
            = Ok (Failed ("HTTP " ++ pretty (status res) ++ ": " ++ failure_detail res text))
            /\ response
               = Failed ("HTTP " ++ pretty (status res) ++ ": " ++ failure_detail res text))
        /\ (forall err,
              response_text res = Throw err ->
              snd (chat_try messages env) = Throw err /\ response = chat_catch err)).
Proof.
  intros response. subst response. rewrite chat_sent. split; [|split].
  - intros err Hthrow. rewrite Hthrow.
    split; [apply chat_catch_cancelled|]. intros m. apply chat_catch_failed.
  - intros block payload st Hevent Habort. split.
    + apply flushEventBlock_error. assumption.
    + rewrite chat_catch_Error by apply carried_message_not_empty.
      rewrite Habort. reflexivity.
  - intros cfg input res Hcfg Hinput Hres Hok.
    rewrite (chat_try_configured messages input env cfg Hcfg Hinput).
    cbn [snd]. rewrite Hres, bind_Ok, Hok. cbn [negb].
    split.
    + intros text Htext. rewrite (http_failure_detail res text Htext).
      split; reflexivity.
    + intros err Htext. unfold http_failure. rewrite Htext.
      split; reflexivity.
Qed.

Lemma catch_reports_cancellation_witness :
  sent (chat (Some "req-1") example_messages cancelled_during_fetch
          (mkRegistry {["req-0" := 0%nat]} ∅)) = Cancelled.
Proof.
  apply (proj1 (catch_reports_cancellation json_host (Some "req-1") example_messages
                  cancelled_during_fetch (mkRegistry {["req-0" := 0%nat]} ∅))
           {| name := "AbortError"; message := "The user aborted a request." |}).
  - reflexivity.
  - left. reflexivity.
Defined.

(** C10 as the specification words it fails on a failed HTTP status whose
    error body mentions an abort: the answer is [Failed] and says so. *)
Lemma http_failure_mentions_abort :
  let outcome :=
    chat None example_messages
      (answering (failed_response 500 "Internal Server Error"
                    (quoted "{'error':{'message':'Request aborted'}}")))
      (mkRegistry ∅ ∅) in
  sent outcome = Failed "HTTP 500: Request aborted"
  /\ test_ci "abort" "HTTP 500: Request aborted" = true.
Proof. vm_compute. split; reflexivity. Qed.

(** ** The authorization header *)

Section HeaderFacts.
Context `{Host}.

(** Every call of [fetch] carries the url and the options it was given. *)
Lemma attempt_loop_options (fetch : transport) (url : string) (options : request_options)
  (retries delay : Z) (fuel attempt : nat) (last : option error)
  (url' : string) (options' : request_options) :
  In (EvFetch url' options')
     (fst (attempt_loop fetch url options retries delay fuel attempt last)) ->
  url' = url /\ options' = options.
Proof.
  revert attempt last. induction fuel as [|fuel IH]; intros attempt last; cbn [attempt_loop].
  - intros [].
  - destruct (fetch attempt) as [res|err ab].
    + intros [Heq|[]]. injection Heq as <- <-. split; reflexivity.
    + destruct (ab || (name err =? "AbortError")).
      * intros [Heq|[]]. injection Heq as <- <-. split; reflexivity.
      * destruct (attemptCount retries <=? Z.of_nat attempt + 1)%Z.
        -- intros [Heq|[]]. injection Heq as <- <-. split; reflexivity.
        -- specialize (IH (attempt + 1)%nat (Some err)).
           destruct (attempt_loop fetch url options retries delay fuel (attempt + 1) (Some err))
             as [events r].
           cbn [fst] in *. intros [Heq|[Heq|Hin]].
           ++ injection Heq as <- <-. split; reflexivity.
           ++ discriminate.
           ++ apply IH. assumption.
Qed.

Lemma chat_fetch_options (message_requestId : option string) (messages : value number)
  (env : chat_env) (reg : registry) (cfg : config) (url : string)
  (options : request_options) :
  loadConfig env = Ok cfg ->
  In (EvFetch url options) (events (chat message_requestId messages env reg)) ->
  options = chat_options cfg.
Proof.
  intros Hcfg. unfold chat, chat_try. rewrite Hcfg.
  destruct (trim (apiUrl cfg) =? ""); [intros []|].
  destruct (token cfg =? ""); [intros []|].
  destruct (model cfg =? ""); [intros []|].
  cbv zeta. destruct (toResponsesInput (VArr (as_array messages))); [|intros []].
  unfold fetchWithRetry.
  pose proof (attempt_loop_options (fetch env) (trim (apiUrl cfg)) (chat_options cfg)
                1 350 (Z.to_nat (attemptCount 1)) 0 None url options) as Hloop.
  destruct (attempt_loop (fetch env) (trim (apiUrl cfg)) (chat_options cfg) 1 350
              (Z.to_nat (attemptCount 1)) 0 None) as [evs r].
  cbn [events fst] in *. intros Hin. apply Hloop. assumption.
Qed.

End HeaderFacts.

(** C9, as the code has it.  The header is made from the token without
    the white space around it: no authorization header when nothing is
    left, and [Bearer ] before the trimmed token when that token carries
    no scheme (it begins neither with [Bearer] and white space nor with
    [Bearer], a backslash and an [s], in any case).  Every HTTP call of the
    handler carries these headers after its content type and its accept
    header. *)
Theorem authorization_of_trimmed_token :
  (forall token : string,
      (trim token = "" -> buildAuthHeaders token = [])
      /\ (trim token <> "" ->
          scheme_prefix (trim token) = false -> bearer_pattern (trim token) = false ->
          buildAuthHeaders token = [("Authorization", "Bearer " ++ trim token)]))
  /\ (forall (H : Host) message_requestId messages env reg cfg url options,
        loadConfig env = Ok cfg ->
        In (EvFetch url options) (events (chat message_requestId messages env reg)) ->
        headers options
        = ([("Content-Type", "application/json"); ("Accept", "text/event-stream")]
           ++ buildAuthHeaders (token cfg))%list).
Proof.
  split.
  - intros token. unfold buildAuthHeaders. split.
    + intros ->. reflexivity.
    + intros Hsome _ Hpattern. apply String.eqb_neq in Hsome.
      rewrite Hsome, Hpattern. reflexivity.
  - intros H message_requestId messages env reg cfg url options Hcfg Hin.
    rewrite (chat_fetch_options _ _ _ _ _ _ _ Hcfg Hin). reflexivity.
Qed.

(** C9 as the specification words it fails on a token with white space
    around it, which the header drops, and on a token of white space
    alone, for which no header is sent. *)
Lemma token_is_trimmed :
  buildAuthHeaders " sk-123 " = [("Authorization", "Bearer sk-123")]
  /\ described_authorization " sk-123 " = "Bearer  sk-123 "
  /\ buildAuthHeaders "   " = []
  /\ described_authorization "   " = "Bearer    ".
Proof. vm_compute. repeat split; reflexivity. Qed.

(** The pattern of [buildAuthHeaders] asks for a backslash after [Bearer]:
    a token that carries the scheme in the usual way gets it twice. *)
Lemma scheme_is_prefixed_again :
  buildAuthHeaders "Bearer sk-123" = [("Authorization", "Bearer Bearer sk-123")]
  /\ described_authorization "Bearer sk-123" = "Bearer sk-123"
  /\ buildAuthHeaders "Bearer\s sk-123" = [("Authorization", "Bearer\s sk-123")].
Proof. vm_compute. repeat split; reflexivity. Qed.

(** * Further properties of the code *)

(** ** The stream decoder *)

Section StreamFacts.
Context `{Host}.

(** The text of chunks of which none but the last may end on a carriage
    return is the normalised text of their concatenation. *)
Lemma stream_text_whole (chunks : list string) (initialBuffer : string) :
  Forall (fun decoded => ends_with_cr decoded = false) (removelast chunks) ->
  stream_text initialBuffer chunks
  = initialBuffer ++ normalize (String.concat "" chunks).
Proof.
  unfold stream_text. intros Hchunks. f_equal.
  induction chunks as [|decoded chunks IH]; [reflexivity|].
  destruct chunks as [|next chunks]; [reflexivity|].
  change (removelast (decoded :: next :: chunks))
    with (decoded :: removelast (next :: chunks)) in Hchunks.
  inversion Hchunks as [|? ? Hdecoded Hrest]; subst.
  cbn [map]. rewrite (concat_cons (normalize decoded)), (concat_cons decoded).
  cbn [map] in IH. rewrite (IH Hrest).
  symmetry. apply normalize_append. assumption.
Qed.

End StreamFacts.

(** X1. Chunk boundaries do not change the final text of the stream
    decoder as long as no chunk but the last ends on a carriage return:
    the chunks, delivered one by one after any initial buffer, decode as
    their concatenation delivered at once. *)
Theorem chunk_independence (H : Host) (chunks : list string) (initialBuffer : string) :
  Forall (fun decoded => ends_with_cr decoded = false) (removelast chunks) ->
  readSseTextStream (map Chunk chunks) initialBuffer
  = readSseTextStream [Chunk (String.concat "" chunks)] initialBuffer.
Proof.
  intros Hchunks.
  change [Chunk (String.concat "" chunks)] with (map Chunk [String.concat "" chunks]).
  rewrite !readSseTextStream_blocks, (stream_text_whole chunks initialBuffer Hchunks).
  rewrite (stream_text_whole [String.concat "" chunks] initialBuffer) by constructor.
  rewrite concat_cons, append_nil_r. reflexivity.
Qed.

Lemma chunk_independence_witness :
  let line := quoted "data: {'type':'response.output_text.delta','delta':'Hi'}" in
  readSseTextStream [Chunk "da"; Chunk ("ta" ++ slice_from 4 line ++ crlf); Chunk crlf] ""
  = readSseTextStream [Chunk (String.concat "" ["da"; "ta" ++ slice_from 4 line ++ crlf; crlf])] "".
Proof.
  apply (chunk_independence json_host
           ["da"; "ta" ++ slice_from 4 (quoted "data: {'type':'response.output_text.delta','delta':'Hi'}") ++ crlf; crlf] "").
  vm_compute. repeat constructor.
Defined.

Section BlockFacts.
Context `{Host}.

Lemma split_not_nil (sep : ascii) (s : string) : split sep s <> [].
Proof.
  destruct s as [|c s]; cbn [split]; [discriminate|].
  destruct (Ascii.eqb c sep); [discriminate|].
  destruct (split sep s); discriminate.
Qed.

(** The lines of two texts joined by a line feed are the lines of the one,
    then the lines of the other. *)
Lemma split_append_line (a b : string) :
  split LF (a ++ nl ++ b) = (split LF a ++ split LF b)%list.
Proof.
  induction a as [|c a IH].
  - reflexivity.
  - change (String c a ++ nl ++ b) with (String c (a ++ nl ++ b)).
    cbn [split]. rewrite IH.
    destruct (Ascii.eqb c LF); [reflexivity|].
    pose proof (split_not_nil LF a) as Hnil.
    destruct (split LF a) as [|l ls]; [contradiction|]. reflexivity.
Qed.

Lemma split_one_line (l : string) : includes l nl = false -> split LF l = [l].
Proof.
  induction l as [|c l IH]; [reflexivity|].
  rewrite includes_cons. intros Hl. apply orb_false_iff in Hl as [Hc Hl].
  cbn [split]. change nl with (String LF "") in Hc. cbn [startsWith] in Hc.
  destruct (Ascii.eqb_spec LF c) as [<-|Hne].
  - destruct l; discriminate.
  - destruct (Ascii.eqb_spec c LF) as [->|_]; [contradiction|].
    rewrite (IH Hl). reflexivity.
Qed.

Lemma dataLines_append_line (a b : string) :
  dataLines (a ++ nl ++ b) = (dataLines a ++ dataLines b)%list.
Proof.
  unfold dataLines. rewrite split_append_line, List.filter_app, List.map_app.
  reflexivity.
Qed.

Lemma dataLines_other_line (l : string) :
  includes l nl = false -> startsWith l "data:" = false -> dataLines l = [].
Proof.
  intros Hl Hdata. unfold dataLines. rewrite (split_one_line l Hl).
  cbn [List.filter]. rewrite Hdata. reflexivity.
Qed.

(** A block acts through its [data:] lines alone. *)
Lemma flushEventBlock_dataLines (block block' : string) (st : accumulator) :
  dataLines block = dataLines block' ->
  flushEventBlock block st = flushEventBlock block' st.
Proof.
  intros Hlines. unfold flushEventBlock, dataStr. rewrite Hlines. reflexivity.
Qed.

(** A block without payload, or with the end-of-stream sentinel, changes
    nothing. *)
Lemma flushEventBlock_ignored (block : string) (st : accumulator) :
  dataStr block = "" \/ dataStr block = "[DONE]" ->
  flushEventBlock block st = Ok st.
Proof.
  intros Hdata. unfold flushEventBlock.
  destruct (length (dataLines block) =? 0)%nat; [reflexivity|].
  destruct Hdata as [-> | ->]; reflexivity.
Qed.

(** What flushing a block does to the incremental chunks: nothing, or one
    more chunk at the end. *)
Lemma flushEventBlock_chunks (block : string) (st st' : accumulator) :
  flushEventBlock block st = Ok st' ->
  exists added, textChunks st' = (textChunks st ++ added)%list /\ (length added <= 1)%nat.
Proof.
  unfold flushEventBlock.
  destruct (length (dataLines block) =? 0)%nat.
  { intros Heq. injection Heq as <-. exists []. rewrite app_nil_r. auto. }
  destruct ((dataStr block =? "") || (dataStr block =? "[DONE]")).
  { intros Heq. injection Heq as <-. exists []. rewrite app_nil_r. auto. }
  destruct (JSON_parse (dataStr block)) as [payload|].
  - unfold handle_payload.
    destruct (is_str (prop payload "type") "response.completed" && truthy (prop payload "response")).
    { intros Heq. injection Heq as <-. exists []. cbn. rewrite app_nil_r. auto. }
    destruct (is_str (prop payload "type") "response.output_text.done"
              && typeof_string (prop payload "text")).
    { intros Heq. injection Heq as <-. exists []. cbn. rewrite app_nil_r. auto. }
    destruct (is_str (prop payload "type") "response.error"); [discriminate|].
    intros Heq. injection Heq as <-. cbn [textChunks].
    destruct (negb (extractStreamDelta payload =? "")).
    + exists [extractStreamDelta payload]. auto.
    + exists []. rewrite app_nil_r. auto.
  - intros Heq. injection Heq as <-. exists [dataStr block]. auto.
Qed.

End BlockFacts.

(** X2. Within an event block only the lines that begin with [data:]
    count: a line of any other field ([event:], [id:], [retry:], a
    comment), wherever it stands in the block, does not change what
    flushing the block does. *)
Theorem flushEventBlock_other_lines (H : Host) (a l b : string) (st : accumulator) :
  includes l nl = false -> startsWith l "data:" = false ->
  flushEventBlock (a ++ nl ++ l ++ nl ++ b) st = flushEventBlock (a ++ nl ++ b) st
  /\ flushEventBlock (l ++ nl ++ b) st = flushEventBlock b st
  /\ flushEventBlock (a ++ nl ++ l) st = flushEventBlock a st.
Proof.
  intros Hl Hdata. pose proof (dataLines_other_line l Hl Hdata) as Hnone.
  split; [|split]; apply flushEventBlock_dataLines;
    rewrite ?dataLines_append_line, Hnone, ?app_nil_r; reflexivity.
Qed.

Lemma flushEventBlock_other_lines_witness :
  flushEventBlock ("id: 7" ++ nl ++ "event: message" ++ nl ++ "data: hello")
    initial_accumulator
  = flushEventBlock ("id: 7" ++ nl ++ "data: hello") initial_accumulator.
Proof.
  exact (proj1 (flushEventBlock_other_lines json_host "id: 7" "event: message" "data: hello"
                  initial_accumulator eq_refl eq_refl)).
Defined.

(** X3. The decoder only ever appends to its incremental chunks: after
    any run of blocks that does not throw, the chunks it had are still
    there, in order, followed by at most one new chunk per block. *)
Theorem flush_all_appends (H : Host) (blocks : list string) (st st' : accumulator) :
  flush_all blocks st = Ok st' ->
  exists added,
    textChunks st' = (textChunks st ++ added)%list
    /\ (length added <= length blocks)%nat.
Proof.
  revert st. induction blocks as [|block blocks IH]; intros st; cbn [flush_all].
  - intros Heq. injection Heq as <-. exists []. rewrite app_nil_r. auto.
  - destruct (flushEventBlock block st) as [st1|err] eqn:Hblock; [|discriminate].
    rewrite bind_Ok. intros Hrest.
    destruct (flushEventBlock_chunks block st st1 Hblock) as (added1 & Hadded1 & Hlen1).
    destruct (IH st1 Hrest) as (added & Hadded & Hlen).
    exists (added1 ++ added)%list. rewrite Hadded, Hadded1, <- app_assoc.
    split; [reflexivity|]. rewrite length_app. cbn [length]. lia.
Qed.

Lemma flush_all_appends_witness :
  exists added,
    ["a"] = (@textChunks json_host initial_accumulator ++ added)%list
    /\ (length added <= 3)%nat.
Proof.
  exact (flush_all_appends json_host ["data: a"; ": ping"; "data: [DONE]"]
           initial_accumulator
           {| textChunks := ["a"]; doneText := ""; completedResponse := VNull |}
           eq_refl).
Defined.

Section KeepAliveFacts.
Context `{Host}.

Lemma slice_to_length (c t : string) : slice_to (String.length c) (c ++ t) = c.
Proof. induction c as [|x c IH]; cbn; [destruct t; reflexivity|]. rewrite IH. reflexivity. Qed.

Lemma slice_from_length (c t : string) : slice_from (String.length c) (c ++ t) = t.
Proof. induction c as [|x c IH]; cbn; [reflexivity|]. exact IH. Qed.

(** A text that begins with one terminated block: the block, then the
    blocks of what follows it. *)
Lemma event_blocks_first (c rest : string) :
  indexOf (c ++ nl ++ nl) (nl ++ nl) = Some (String.length c) ->
  event_blocks (c ++ nl ++ nl ++ rest)
  = (c :: fst (event_blocks rest), snd (event_blocks rest)).
Proof.
  intros Hsep. rewrite event_blocks_step.
  replace (c ++ nl ++ nl ++ rest) with ((c ++ nl ++ nl) ++ rest)
    by (rewrite !append_assoc; reflexivity).
  rewrite (indexOf_append _ rest _ _ Hsep).
  rewrite slice_to_append by (rewrite length_append; lia).
  rewrite slice_to_length.
  replace (String.length c + 2)%nat with (String.length (c ++ nl ++ nl))
    by (rewrite !length_append; cbn; lia).
  rewrite slice_from_length. reflexivity.
Qed.

(** The blocks of a text that goes on after a block boundary. *)
Lemma stream_blocks_boundary (a rest : string) :
  snd (event_blocks a) = "" ->
  stream_blocks (a ++ rest) = (fst (event_blocks a) ++ stream_blocks rest)%list.
Proof.
  intros Hboundary. unfold stream_blocks. rewrite event_blocks_append, Hboundary.
  cbn [String.append]. destruct (event_blocks rest) as [blocks tail].
  cbn [fst snd]. rewrite app_assoc. reflexivity.
Qed.

(** The loop over a reader that rejects after some chunks: the blocks of
    the text read so far are flushed, then the rejection is thrown. *)
Lemma read_loop_rejected (chunks : list string) (err : error) (more : list read_result)
  (buffer : string) (st : accumulator) :
  read_loop (map Chunk chunks ++ ReadError err :: more) buffer st
  = (flush_all (fst (event_blocks (stream_text buffer chunks))) st ≫= fun _ => Throw err).
Proof.
  revert buffer st. induction chunks as [|decoded chunks IH]; intros buffer st;
    cbn [map app read_loop]; rewrite drain_split.
  - unfold stream_text. cbn [map String.concat]. rewrite append_nil_r.
    destruct (flush_all (fst (event_blocks buffer)) st); reflexivity.
  - replace (stream_text buffer (decoded :: chunks))
      with (buffer ++ stream_text (normalize decoded) chunks).
    2:{ unfold stream_text. cbn [map]. rewrite concat_cons. reflexivity. }
    rewrite event_blocks_append. cbn [fst snd]. rewrite flush_all_app.
    destruct (flush_all (fst (event_blocks buffer)) st) as [st'|err']; [|reflexivity].
    rewrite !bind_Ok, IH. unfold stream_text. rewrite append_assoc. reflexivity.
Qed.

End KeepAliveFacts.

(** X4. A block that carries no payload (a comment or keep-alive, fields
    other than [data:], an empty [data:] line) or the sentinel [[DONE]]
    can stand between two events without changing the final text of the
    decoder. *)
Theorem ignorable_block_skipped (H : Host) (a c b : string) (chunks : list string) :
  snd (event_blocks a) = "" ->
  indexOf (c ++ nl ++ nl) (nl ++ nl) = Some (String.length c) ->
  dataStr c = "" \/ dataStr c = "[DONE]" ->
  readSseTextStream (map Chunk chunks) (a ++ c ++ nl ++ nl ++ b)
  = readSseTextStream (map Chunk chunks) (a ++ b).
Proof.
  intros Hboundary Hsep Hignored. rewrite !readSseTextStream_blocks.
  unfold stream_text. rewrite !append_assoc.
  set (rest := b ++ String.concat "" (map normalize chunks)).
  rewrite !(stream_blocks_boundary a) by assumption.
  unfold stream_blocks at 1. rewrite (event_blocks_first c rest Hsep).
  fold (stream_blocks rest). change ((c :: fst (event_blocks rest)) ++ [snd (event_blocks rest)])%list
    with (c :: (fst (event_blocks rest) ++ [snd (event_blocks rest)]))%list.
  replace (fst (event_blocks rest) ++ [snd (event_blocks rest)])%list with (stream_blocks rest)
    by (unfold stream_blocks; destruct (event_blocks rest); reflexivity).
  rewrite !flush_all_app.
  destruct (flush_all (fst (event_blocks a)) initial_accumulator) as [st|err]; [|reflexivity].
  rewrite !bind_Ok. cbn [flush_all].
  rewrite (flushEventBlock_ignored c st Hignored). reflexivity.
Qed.

Lemma ignorable_block_skipped_witness :
  let first := event "{'type':'response.output_text.delta','delta':'Hel'}" in
  let second := event "{'type':'response.output_text.delta','delta':'lo'}" in
  readSseTextStream (map Chunk []) (first ++ ": keep-alive" ++ nl ++ nl ++ second)
  = readSseTextStream (map Chunk []) (first ++ second).
Proof.
  apply (ignorable_block_skipped json_host
           (event "{'type':'response.output_text.delta','delta':'Hel'}")
           ": keep-alive"
           (event "{'type':'response.output_text.delta','delta':'lo'}") []);
    [vm_compute; reflexivity|vm_compute; reflexivity|left; vm_compute; reflexivity].
Defined.

(** X5. When a read of the body is rejected in the middle of an event
    stream (the request was aborted, the connection broke), the handler,
    whose messages were converted before the call, reports that rejection and none of the text decoded so far: an
    [AbortError] is answered as cancelled. *)
Theorem rejected_mid_stream (H : Host) (message_requestId : option string)
  (messages : value number) (input : list (value number))
  (env : chat_env) (reg : registry) (cfg : config) (res : response)
  (firstChunk : string) (chunks : list string) (err : error)
  (more : list read_result) (st : accumulator) :
  configured env cfg -> toResponsesInput messages = Ok input ->
  fetch env 0%nat = Resolved res -> ok res = true ->
  body res = Some (Chunk firstChunk :: map Chunk chunks ++ ReadError err :: more) ->
  sniff firstChunk = event_stream ->
  flush_all (fst (event_blocks (stream_text (normalize firstChunk) chunks)))
    initial_accumulator = Ok st ->
  sent (chat message_requestId messages env reg) = chat_catch err
  /\ (name err = "AbortError" ->
      sent (chat message_requestId messages env reg) = Cancelled).
Proof.
  intros Hcfg Hinput Hres Hok Hbody Hsniff Hblocks.
  destruct (chat_resolved message_requestId messages input env reg cfg res
              Hcfg Hinput Hres Hok) as [_ Hsent].
  assert (Hread : readResponseText res = Throw err).
  { destruct res as [ok' status' statusText' body']. cbn in Hbody. subst body'.
    rewrite readResponseText_first, Hsniff. unfold readSseTextStream.
    rewrite read_loop_rejected, Hblocks. reflexivity. }
  rewrite Hread in Hsent. split; [exact Hsent|].
  intros Hname. rewrite Hsent. apply chat_catch_cancelled. left. exact Hname.
Qed.

Lemma rejected_mid_stream_witness :
  sent (chat None example_messages
          (answering
             {| ok := true; status := 200; statusText := "OK";
                body := Some [Chunk (event "{'type':'response.output_text.delta','delta':'Hel'}");
                              Chunk (event "{'type':'response.output_text.delta','delta':'lo'}");
                              ReadError {| name := "AbortError";
                                           message := "BodyStreamBuffer was aborted" |}] |})
          (mkRegistry ∅ ∅))
  = Cancelled.
Proof.
  set (res := {| ok := true; status := 200; statusText := "OK";
                 body := Some [Chunk (event "{'type':'response.output_text.delta','delta':'Hel'}");
                               Chunk (event "{'type':'response.output_text.delta','delta':'lo'}");
                               ReadError {| name := "AbortError";
                                            message := "BodyStreamBuffer was aborted" |}] |}).
  refine (proj2 (rejected_mid_stream json_host None example_messages example_input
                   (answering res) (mkRegistry ∅ ∅)
                   example_config res
                   (event "{'type':'response.output_text.delta','delta':'Hel'}")
                   [event "{'type':'response.output_text.delta','delta':'lo'}"]
                   {| name := "AbortError"; message := "BodyStreamBuffer was aborted" |}
                   []
                   {| textChunks := ["Hel"; "lo"]; doneText := ""; completedResponse := VNull |}
                   _ eq_refl eq_refl eq_refl eq_refl _ _) eq_refl).
  - unfold configured. cbn. repeat split; discriminate.
  - vm_compute. reflexivity.
  - vm_compute. reflexivity.
Defined.

(** ** The transport retrier *)

Section RetrierOutcome.
Variable fetch : transport.
Variables (url : string) (options : request_options).
Variables (retries delay : Z).

Let last_attempt : nat := Z.to_nat retries.

Lemma attemptCount_last : attemptCount retries = (Z.of_nat last_attempt + 1)%Z.
Proof. unfold last_attempt, attemptCount. lia. Qed.

(** The loop returns the response of the first call that resolves, if
    every call before it was rejected without a cancellation. *)
Lemma attempt_loop_returns (fuel attempt : nat) (last : option error) (res : response) :
  (attempt + fuel = last_attempt + 1)%nat ->
  snd (attempt_loop fetch url options retries delay fuel attempt last) = Ok res
  <-> exists i, (attempt <= i <= last_attempt)%nat
        /\ fetch i = Resolved res
        /\ forall j, (attempt <= j < i)%nat -> is_transient (fetch j) = true.
Proof.
  revert attempt last. induction fuel as [|fuel IH]; intros attempt last Hsum.
  - cbn. split; [destruct last; discriminate|]. intros (i & Hi & _). lia.
  - cbn [attempt_loop]. destruct (fetch attempt) as [res'|err ab] eqn:Hat.
    + cbn [snd]. split.
      * intros Heq. injection Heq as ->. exists attempt.
        split; [lia|]. split; [assumption|]. intros j Hj. lia.
      * intros (i & Hi & Hres & Hbefore).
        destruct (Nat.eq_dec i attempt) as [->|Hne].
        -- rewrite Hat in Hres. injection Hres as ->. reflexivity.
        -- specialize (Hbefore attempt ltac:(lia)). rewrite Hat in Hbefore. discriminate.
    + destruct (ab || (name err =? "AbortError")) eqn:Hcancel.
      * cbn [snd]. split; [discriminate|].
        intros (i & Hi & Hres & Hbefore).
        destruct (Nat.eq_dec i attempt) as [->|Hne].
        -- rewrite Hat in Hres. discriminate.
        -- specialize (Hbefore attempt ltac:(lia)). rewrite Hat in Hbefore.
           cbn in Hbefore. rewrite Hcancel in Hbefore. discriminate.
      * rewrite attemptCount_last.
        destruct (Z.leb_spec (Z.of_nat last_attempt + 1) (Z.of_nat attempt + 1)) as [Hlast|Hmore].
        -- cbn [snd throw_lastError]. split; [discriminate|].
           intros (i & Hi & Hres & Hbefore).
           assert (i = attempt) as -> by lia. rewrite Hat in Hres. discriminate.
        -- specialize (IH (attempt + 1)%nat (Some err) ltac:(lia)).
           destruct (attempt_loop fetch url options retries delay fuel (attempt + 1) (Some err))
             as [evs r].
           cbn [snd] in *. rewrite IH. split.
           ++ intros (i & Hi & Hres & Hbefore). exists i.
              split; [lia|]. split; [assumption|].
              intros j Hj. destruct (Nat.eq_dec j attempt) as [->|Hne].
              ** rewrite Hat. cbn. rewrite Hcancel. reflexivity.
              ** apply Hbefore. lia.
           ++ intros (i & Hi & Hres & Hbefore).
              destruct (Nat.eq_dec i attempt) as [->|Hne].
              ** rewrite Hat in Hres. discriminate.
              ** exists i. split; [lia|]. split; [assumption|].
                 intros j Hj. apply Hbefore. lia.
Qed.

(** What the loop throws is the rejection of a call that was a
    cancellation or the last of the budget, every call before it having
    been rejected otherwise. *)
Lemma attempt_loop_thrown (fuel attempt : nat) (last : option error) (err : error) :
  (attempt + fuel = last_attempt + 1)%nat -> (0 < fuel)%nat ->
  snd (attempt_loop fetch url options retries delay fuel attempt last) = Throw err ->
  exists i signal_aborted,
    (attempt <= i <= last_attempt)%nat
    /\ fetch i = Rejected err signal_aborted
    /\ (forall j, (attempt <= j < i)%nat -> is_transient (fetch j) = true)
    /\ (is_cancellation (fetch i) = true \/ i = last_attempt).
Proof.
  revert attempt last. induction fuel as [|fuel IH]; intros attempt last Hsum Hpos; [lia|].
  cbn [attempt_loop]. destruct (fetch attempt) as [res'|err' ab] eqn:Hat.
  - cbn [snd]. discriminate.
  - destruct (ab || (name err' =? "AbortError")) eqn:Hcancel.
    + cbn [snd]. intros Heq. injection Heq as <-. exists attempt, ab.
      split; [lia|]. split; [assumption|]. split; [intros j Hj; lia|].
      left. rewrite Hat. exact Hcancel.
    + rewrite attemptCount_last.
      destruct (Z.leb_spec (Z.of_nat last_attempt + 1) (Z.of_nat attempt + 1)) as [Hlast|Hmore].
      * cbn [snd throw_lastError]. intros Heq. injection Heq as <-. exists attempt, ab.
        split; [lia|]. split; [assumption|]. split; [intros j Hj; lia|]. right. lia.
      * specialize (IH (attempt + 1)%nat (Some err') ltac:(lia) ltac:(lia)).
        destruct (attempt_loop fetch url options retries delay fuel (attempt + 1) (Some err'))
          as [evs r].
        cbn [snd] in *. intros Hthrow.
        destruct (IH Hthrow) as (i & ab' & Hi & Hrej & Hbefore & Hwhy).
        exists i, ab'. split; [lia|]. split; [assumption|]. split; [|assumption].
        intros j Hj. destruct (Nat.eq_dec j attempt) as [->|Hne].
        -- rewrite Hat. cbn. rewrite Hcancel. reflexivity.
        -- apply Hbefore. lia.
Qed.

End RetrierOutcome.

(** X6. What [fetchWithRetry] comes to, for any budget (a negative
    [retries] counts as none).  It returns a response exactly when some
    call among the first [retries + 1] resolves to it and every call
    before was rejected without a cancellation.  What it throws is always
    the rejection of one of these calls, again after such rejections only,
    and that call was a cancellation or the last of the budget. *)
Theorem fetchWithRetry_outcome (fetch : transport) (url : string)
  (options : request_options) (retries retryDelayMs : Z) :
  let outcome := snd (fetchWithRetry fetch url options retries retryDelayMs) in
  let last_attempt := Z.to_nat retries in
  (forall res,
      outcome = Ok res
      <-> exists i, (i <= last_attempt)%nat
            /\ fetch i = Resolved res
            /\ forall j, (j < i)%nat -> is_transient (fetch j) = true)
  /\ (forall err,
        outcome = Throw err ->
        exists i signal_aborted,
          (i <= last_attempt)%nat
          /\ fetch i = Rejected err signal_aborted
          /\ (forall j, (j < i)%nat -> is_transient (fetch j) = true)
          /\ (is_cancellation (fetch i) = true \/ i = last_attempt)).
Proof.
  intros outcome last_attempt. subst outcome. unfold fetchWithRetry.
  assert (Hfuel : (0 + Z.to_nat (attemptCount retries) = Z.to_nat retries + 1)%nat)
    by (unfold attemptCount; lia).
  split.
  - intros res. rewrite (attempt_loop_returns fetch url options retries retryDelayMs _ 0 None res Hfuel).
    split; intros (i & Hi & Hres & Hbefore); exists i;
      (split; [subst last_attempt; lia|]); (split; [assumption|]);
      intros j Hj; apply Hbefore; lia.
  - intros err Hthrow.
    destruct (attempt_loop_thrown fetch url options retries retryDelayMs _ 0 None err Hfuel
                ltac:(unfold attemptCount; lia) Hthrow)
      as (i & ab & Hi & Hrej & Hbefore & Hwhy).
    exists i, ab. split; [subst last_attempt; lia|]. split; [assumption|].
    split; [|exact Hwhy]. intros j Hj. apply Hbefore. lia.
Qed.

(** X7. With a budget of no retry, or a negative one, [fetchWithRetry]
    calls [fetch] once, arms no timer, and returns or throws what that
    call came to. *)
Theorem fetchWithRetry_single (fetch : transport) (url : string)
  (options : request_options) (retries retryDelayMs : Z) :
  (retries <= 0)%Z ->
  fetchWithRetry fetch url options retries retryDelayMs
  = ([EvFetch url options],
     match fetch 0%nat with
     | Resolved res => Ok res
     | Rejected err _ => Throw err
     end).
Proof.
  intros Hretries. unfold fetchWithRetry.
  replace (Z.to_nat (attemptCount retries)) with 1%nat by (unfold attemptCount; lia).
  cbn [attempt_loop]. destruct (fetch 0%nat) as [res|err ab]; [reflexivity|].
  destruct (ab || (name err =? "AbortError")); [reflexivity|].
  replace (attemptCount retries <=? Z.of_nat 0 + 1)%Z with true
    by (symmetry; apply Z.leb_le; unfold attemptCount; lia).
  reflexivity.
Qed.

Lemma fetchWithRetry_single_witness :
  fetchWithRetry failing_twice "https://api" (mkOptions "POST" []) (-3) 350
  = ([EvFetch "https://api" (mkOptions "POST" [])],
     Throw {| name := "TypeError"; message := "Failed to fetch" |}).
Proof.
  exact (fetchWithRetry_single failing_twice "https://api" (mkOptions "POST" []) (-3) 350
           ltac:(lia)).
Defined.

(** ** The calls and the answers of the handler *)

(** X9. What a configuration that is not complete is answered, in the
    order of the checks: a blank URL, then an empty token, then an empty
    model, each with its own message and without any HTTP call. *)
Theorem chat_unconfigured (H : Host) (message_requestId : option string)
  (messages : value number) (env : chat_env) (reg : registry) (cfg : config) :
  loadConfig env = Ok cfg ->
  let outcome := chat message_requestId messages env reg in
  (trim (apiUrl cfg) = "" ->
   sent outcome = Failed "Missing API URL (internal error)." /\ events outcome = [])
  /\ (trim (apiUrl cfg) <> "" -> token cfg = "" ->
      sent outcome = Failed "Missing API token. Set it in Options." /\ events outcome = [])
  /\ (trim (apiUrl cfg) <> "" -> token cfg <> "" -> model cfg = "" ->
      sent outcome = Failed "Missing model. Set it in Options." /\ events outcome = []).
Proof.
  intros Hcfg outcome. subst outcome. rewrite chat_sent, chat_events.
  unfold chat_try. rewrite Hcfg. split; [|split].
  - intros ->. split; reflexivity.
  - intros Hurl ->. apply String.eqb_neq in Hurl. rewrite Hurl. split; reflexivity.
  - intros Hurl Htoken ->. apply String.eqb_neq in Hurl, Htoken.
    rewrite Hurl, Htoken. split; reflexivity.
Qed.

Lemma chat_unconfigured_witness :
  let env := {| loadConfig := Ok {| apiUrl := "https://api.openai.com/v1/responses";
                                    token := ""; model := "gpt-5.2"; systemPrompt := "" |};
                makeRequestId := "req-1"; new_controller := 1%nat;
                fetch := failing_twice; meanwhile := fun reg => reg |} in
  sent (chat None example_messages env (mkRegistry ∅ ∅))
  = Failed "Missing API token. Set it in Options."
  /\ events (chat None example_messages env (mkRegistry ∅ ∅)) = [].
Proof.
  intros env.
  refine (proj1 (proj2 (chat_unconfigured json_host None example_messages env
                          (mkRegistry ∅ ∅) _ eq_refl)) _ eq_refl).
  vm_compute. discriminate.
Defined.

(** X10. For messages that are converted, a response that comes at the
    second attempt is answered as the same response at the first attempt
    is: the retry shows in the calls made, not in the answer. *)
Theorem chat_retry_transparent (H : Host) (message_requestId : option string)
  (messages : value number) (input : list (value number))
  (env : chat_env) (reg : registry) (cfg : config) (err : error) (res : response) :
  configured env cfg -> toResponsesInput messages = Ok input ->
  fetch env 0%nat = Rejected err false -> name err <> "AbortError" ->
  fetch env 1%nat = Resolved res ->
  sent (chat message_requestId messages env reg)
  = sent (chat message_requestId messages (with_fetch env (fun _ => Resolved res)) reg)
  /\ events (chat message_requestId messages env reg)
     = [chat_fetch cfg; EvTimer 350; chat_fetch cfg].
Proof.
  intros Hcfg Hinput Hfirst Hname Hsecond.
  assert (Hcfg' : configured (with_fetch env (fun _ => Resolved res)) cfg) by exact Hcfg.
  rewrite !chat_sent, chat_events.
  rewrite (chat_try_configured messages input env cfg Hcfg Hinput),
    (chat_try_configured messages input _ cfg Hcfg' Hinput).
  rewrite !fetchWithRetry_default. cbn [with_fetch fetch].
  rewrite Hfirst. apply String.eqb_neq in Hname. rewrite Hname. cbn [orb].
  rewrite Hsecond. split; reflexivity.
Qed.

Lemma chat_retry_transparent_witness :
  let res := ok_response [event "{'type':'response.output_text.delta','delta':'Hi'}"] in
  let env := with_fetch (answering res) (failing_once res) in
  sent (chat None example_messages env (mkRegistry ∅ ∅))
  = sent (chat None example_messages (with_fetch env (fun _ => Resolved res))
            (mkRegistry ∅ ∅))
  /\ events (chat None example_messages env (mkRegistry ∅ ∅))
     = [chat_fetch example_config; EvTimer 350; chat_fetch example_config].
Proof.
  intros res env.
  refine (chat_retry_transparent json_host None example_messages example_input
            env (mkRegistry ∅ ∅) example_config
            {| name := "TypeError"; message := "Failed to fetch" |} res
            _ eq_refl eq_refl _ eq_refl).
  - unfold configured. cbn. repeat split; discriminate.
  - discriminate.
Defined.

(** X11. A transport that is rejected at both attempts without a
    cancellation, for messages that are converted: the handler reports the
    second rejection, and a [TypeError] that says [Failed to fetch] as the
    network diagnostic. *)
Theorem chat_transport_failure (H : Host) (message_requestId : option string)
  (messages : value number) (input : list (value number))
  (env : chat_env) (reg : registry) (cfg : config) (first second : error)
  (aborted_second : bool) :
  configured env cfg -> toResponsesInput messages = Ok input ->
  fetch env 0%nat = Rejected first false -> name first <> "AbortError" ->
  fetch env 1%nat = Rejected second aborted_second ->
  let outcome := chat message_requestId messages env reg in
  sent outcome = chat_catch second
  /\ events outcome = [chat_fetch cfg; EvTimer 350; chat_fetch cfg]
  /\ (second = {| name := "TypeError"; message := "Failed to fetch" |} ->
      sent outcome
      = Failed "Network error: Failed to fetch (temporary connection issue or API unreachable).").
Proof.
  intros Hcfg Hinput Hfirst Hname Hsecond outcome.
  assert (Hsent : sent outcome = chat_catch second
                  /\ events outcome = [chat_fetch cfg; EvTimer 350; chat_fetch cfg]).
  { subst outcome.
    rewrite chat_sent, chat_events, (chat_try_configured messages input env cfg Hcfg Hinput).
    rewrite fetchWithRetry_default, Hfirst. apply String.eqb_neq in Hname.
    rewrite Hname, Hsecond. split; reflexivity. }
  destruct Hsent as [Hsent Hevents]. split; [exact Hsent|]. split; [exact Hevents|].
  intros ->. rewrite Hsent. reflexivity.
Qed.

Lemma chat_transport_failure_witness :
  let env := with_fetch (answering (ok_response [])) failing_twice in
  sent (chat None example_messages env (mkRegistry ∅ ∅))
  = Failed "Network error: Failed to fetch (temporary connection issue or API unreachable).".
Proof.
  intros env.
  refine (proj2 (proj2 (chat_transport_failure json_host None
                          example_messages example_input
                          env (mkRegistry ∅ ∅) example_config
                          {| name := "TypeError"; message := "Failed to fetch" |}
                          {| name := "TypeError"; message := "Failed to fetch" |} false
                          _ eq_refl eq_refl _ eq_refl)) eq_refl).
  - unfold configured. cbn. repeat split; discriminate.
  - discriminate.
Defined.

(** X12. For messages that are converted, a response whose status is not
    a success and whose body text is read is answered [Failed] with
    [HTTP], the status and a detail: the message of a JSON error body
    when it has one that is a string and not blank, else the body text,
    else the status text.  Its body is not read as a reply. *)
Theorem chat_http_failure (H : Host) (message_requestId : option string)
  (messages : value number) (input : list (value number))
  (env : chat_env) (reg : registry) (cfg : config) (res : response) (text : string) :
  configured env cfg -> toResponsesInput messages = Ok input ->
  fetch env 0%nat = Resolved res -> ok res = false ->
  response_text res = Ok text ->
  sent (chat message_requestId messages env reg)
  = Failed ("HTTP " ++ pretty (status res) ++ ": " ++ failure_detail res text).
Proof.
  intros Hcfg Hinput Hres Hok Htext.
  rewrite chat_sent, (chat_try_configured messages input env cfg Hcfg Hinput),
    fetchWithRetry_default, Hres.
  cbn [snd]. rewrite bind_Ok, Hok. cbn [negb].
  rewrite (http_failure_detail res text Htext). reflexivity.
Qed.

Lemma chat_http_failure_witness :
  sent (chat None example_messages
          (answering (failed_response 429 "Too Many Requests"
                        (quoted "{'error':{'message':'Rate limit reached'}}")))
          (mkRegistry ∅ ∅))
  = Failed "HTTP 429: Rate limit reached".
Proof.
  refine (chat_http_failure json_host None example_messages example_input
            (answering (failed_response 429 "Too Many Requests"
                          (quoted "{'error':{'message':'Rate limit reached'}}")))
            (mkRegistry ∅ ∅) example_config
            (failed_response 429 "Too Many Requests"
               (quoted "{'error':{'message':'Rate limit reached'}}"))
            (quoted "{'error':{'message':'Rate limit reached'}}")
            _ eq_refl eq_refl eq_refl eq_refl).
  unfold configured. cbn. repeat split; discriminate.
Defined.

(** ** The registry of in-flight calls *)

Section RegistryFootprint.
Context `{Host}.

Lemma registry_eq (reg reg' : registry) :
  inflightChats reg = inflightChats reg' -> aborted reg = aborted reg' -> reg = reg'.
Proof. destruct reg, reg'. cbn. intros -> ->. reflexivity. Qed.

Lemma chat_registry_after (message_requestId : option string) (messages : value number)
  (env : chat_env) (reg : registry) :
  registry_after (chat message_requestId messages env reg)
  = retire (chat_requestId message_requestId env)
      (meanwhile env
         (register (chat_requestId message_requestId env) (new_controller env) reg)).
Proof. unfold chat. destruct (chat_try messages env). reflexivity. Qed.

End RegistryFootprint.

(** X13. A [CHAT] call during which no other handler runs leaves the
    controllers it found untouched and every other entry of the registry
    in place, and leaves no entry under its own id: if the id was free the
    registry is as before the call; if the id was taken, the entry found
    there is gone with the call, and a later cancellation of that id finds
    nothing. *)
Theorem chat_registry_footprint (H : Host) (message_requestId : option string)
  (messages : value number) (env : chat_env) (reg : registry) :
  (forall r, meanwhile env r = r) ->
  let requestId := chat_requestId message_requestId env in
  let after := registry_after (chat message_requestId messages env reg) in
  aborted after = aborted reg
  /\ (forall other, other <> requestId ->
        inflightChats after !! other = inflightChats reg !! other)
  /\ inflightChats after !! requestId = None
  /\ (inflightChats reg !! requestId = None -> after = reg)
  /\ cancel_chat (Some requestId) after = (false, after).
Proof.
  intros Hquiet requestId after. subst after. rewrite chat_registry_after, Hquiet.
  fold requestId. unfold retire, register. cbn [inflightChats aborted].
  split; [reflexivity|]. split; [|split; [|split]].
  - intros other Hother. rewrite lookup_delete_ne by congruence.
    apply lookup_insert_ne. congruence.
  - apply lookup_delete_eq.
  - intros Hfree. apply registry_eq; cbn [inflightChats aborted]; [|reflexivity].
    rewrite delete_insert_eq. apply delete_id. assumption.
  - unfold cancel_chat. cbn [inflightChats]. rewrite lookup_delete_eq. reflexivity.
Qed.

Lemma chat_registry_footprint_witness :
  let reg := {| inflightChats := {["req-0" := 0%nat]}; aborted := ∅ |} in
  registry_after (chat (Some "req-0") example_messages (answering (ok_response [])) reg)
  = {| inflightChats := ∅; aborted := ∅ |}.
Proof.
  intros reg.
  pose proof (chat_registry_footprint json_host (Some "req-0") example_messages
                (answering (ok_response [])) reg
                (fun r => eq_refl)) as (Haborted & _ & _ & _ & _).
  apply registry_eq; [|exact Haborted].
  vm_compute. reflexivity.
Defined.

(** X14. What a [CANCEL_CHAT] changes: nothing when it finds no entry;
    otherwise it aborts the one controller it found and removes that one
    entry.  Entries under other ids stay, no controller is ever taken out
    of the aborted ones, and a second cancellation of the same id finds
    nothing and changes nothing. *)
Theorem cancel_chat_footprint (message_requestId : option string) (reg : registry) :
  let requestId := match message_requestId with Some s => s | None => "" end in
  let found := fst (cancel_chat message_requestId reg) in
  let after := snd (cancel_chat message_requestId reg) in
  (forall other, other <> requestId ->
     inflightChats after !! other = inflightChats reg !! other)
  /\ aborted reg ⊆ aborted after
  /\ (found = false <-> inflightChats reg !! requestId = None)
  /\ (found = false -> after = reg)
  /\ (forall controller, inflightChats reg !! requestId = Some controller ->
        aborted after = {[controller]} ∪ aborted reg)
  /\ cancel_chat message_requestId after = (false, after).
Proof.
  intros requestId found after. subst found after. unfold cancel_chat. fold requestId.
  destruct (inflightChats reg !! requestId) as [controller|] eqn:Hlookup.
  - cbn [fst snd retire inflightChats aborted].
    split; [intros other Hother; apply lookup_delete_ne; congruence|].
    split; [set_solver|]. split; [split; discriminate|]. split; [discriminate|].
    split; [intros c Hc; injection Hc as <-; reflexivity|].
    rewrite lookup_delete_eq. reflexivity.
  - cbn [fst snd]. split; [reflexivity|]. split; [reflexivity|].
    split; [split; reflexivity|]. split; [reflexivity|].
    split; [discriminate|]. rewrite Hlookup. reflexivity.
Qed.

(** X15. A cancellation that arrives while a call is in flight aborts the
    controller of the call when it names the id the call is registered
    under, which is the trimmed id.  Sent with the white space that the
    [CHAT] message had around its id, it finds no entry and aborts
    nothing. *)
Theorem cancel_in_flight (H : Host) (s : string) (messages : value number)
  (env : chat_env) (reg : registry) :
  trim s <> "" ->
  (new_controller env
   ∈ aborted (registry_after
                (chat (Some s) messages (cancelled_meanwhile env (trim s)) reg)))
  /\ (trim s <> s -> inflightChats reg !! s = None ->
      aborted (registry_after (chat (Some s) messages (cancelled_meanwhile env s) reg))
      = aborted reg).
Proof.
  intros Hid.
  assert (Hrid : forall env', chat_requestId (Some s) env' = trim s).
  { intros env'. unfold chat_requestId. apply String.eqb_neq in Hid. rewrite Hid. reflexivity. }
  split.
  - rewrite chat_registry_after, Hrid. cbn [cancelled_meanwhile meanwhile new_controller].
    unfold cancel_chat, register. cbn [inflightChats aborted].
    rewrite lookup_insert_eq. cbn [snd retire aborted]. set_solver.
  - intros Hpadded Hfree.
    rewrite chat_registry_after, Hrid. cbn [cancelled_meanwhile meanwhile new_controller].
    unfold cancel_chat, register. cbn [inflightChats aborted].
    rewrite lookup_insert_ne by congruence. rewrite Hfree. reflexivity.
Qed.

Lemma cancel_in_flight_witness :
  let env := answering (ok_response []) in
  (1%nat ∈ aborted (registry_after
                      (chat (Some " req-7 ") example_messages
                         (cancelled_meanwhile env "req-7") (mkRegistry ∅ ∅))))
  /\ aborted (registry_after
                (chat (Some " req-7 ") example_messages
                   (cancelled_meanwhile env " req-7 ") (mkRegistry ∅ ∅)))
     = ∅.
Proof.
  intros env.
  pose proof (cancel_in_flight json_host " req-7 " example_messages env (mkRegistry ∅ ∅)
                ltac:(vm_compute; discriminate)) as [Hfound Hmissed].
  split; [exact Hfound|].
  apply Hmissed; [vm_compute; discriminate|reflexivity].
Defined.

(** ** The chat history *)

Section HistoryFacts.
Context `{Host}.
Import History.

Lemma trimChatHistory_drop (history : value number) :
  trimChatHistory history
  = drop (length (as_array history) - MAX_MESSAGES) (as_array history).
Proof.
  unfold trimChatHistory.
  destruct (Nat.leb_spec (length (as_array history)) MAX_MESSAGES) as [Hle|Hlt];
    [|reflexivity].
  replace (length (as_array history) - MAX_MESSAGES)%nat with 0%nat by lia.
  reflexivity.
Qed.

Lemma trimChatHistory_short (items : list (value number)) :
  (length items <= MAX_MESSAGES)%nat ->
  trimChatHistory (VArr items) = items.
Proof.
  intros Hle. unfold trimChatHistory. cbn [as_array].
  destruct (Nat.leb_spec (length items) MAX_MESSAGES); [reflexivity|lia].
Qed.

Lemma trimChatHistory_length (history : value number) :
  length (trimChatHistory history)
  = Nat.min (length (as_array history)) MAX_MESSAGES.
Proof.
  rewrite trimChatHistory_drop, length_drop. lia.
Qed.

Lemma is_chat_message_drop (n : nat) (msgs : list (value number)) :
  Forall is_chat_message msgs -> Forall is_chat_message (drop n msgs).
Proof.
  intros Hall. rewrite <- (take_drop n msgs) in Hall.
  apply Forall_app in Hall. tauto.
Qed.

Lemma is_chat_message_trim (msgs : list (value number)) :
  Forall is_chat_message msgs ->
  Forall is_chat_message (trimChatHistory (VArr msgs)).
Proof.
  intros Hall. rewrite trimChatHistory_drop. now apply is_chat_message_drop.
Qed.

(** The three passes of [loadChatHistory] keep a list of well-formed
    messages as it is. *)
Lemma load_passes_id (msgs : list (value number)) :
  Forall is_chat_message msgs ->
  List.filter
    (fun m => (is_str (prop m "role") "user" || is_str (prop m "role") "assistant")
              && typeof_string (prop m "content"))
    (map (fun m => VObj [("role", prop m "role"); ("content", prop m "content")])
         (List.filter (fun m => truthy m && typeof_object m) msgs))
  = msgs.
Proof.
  induction 1 as [|m msgs (role & content & -> & Hrole) _ IH]; [reflexivity|].
  destruct Hrole as [-> | ->]; simpl; f_equal; exact IH.
Qed.

(** The passes keep well-formed messages only, whatever they are given. *)
Lemma load_passes_valid (arr : list (value number)) :
  Forall is_chat_message
    (List.filter
       (fun m => (is_str (prop m "role") "user" || is_str (prop m "role") "assistant")
                 && typeof_string (prop m "content"))
       (map (fun m => VObj [("role", prop m "role"); ("content", prop m "content")])
            (List.filter (fun m => truthy m && typeof_object m) arr))).
Proof.
  apply List.Forall_forall. intros m Hin.
  apply filter_In in Hin. destruct Hin as [Hin Hkeep].
  apply in_map_iff in Hin. destruct Hin as (m0 & <- & _).
  change (prop (VObj [("role", prop m0 "role"); ("content", prop m0 "content")]) "role")
    with (prop m0 "role") in Hkeep.
  change (prop (VObj [("role", prop m0 "role"); ("content", prop m0 "content")]) "content")
    with (prop m0 "content") in Hkeep.
  apply andb_prop in Hkeep. destruct Hkeep as [Hrole Hcontent].
  destruct (prop m0 "role") as [| | | |role| |]; try discriminate Hrole.
  destruct (prop m0 "content") as [| | | |content| |]; try discriminate Hcontent.
  exists role, content. split; [reflexivity|].
  cbn [is_str] in Hrole. apply orb_prop in Hrole.
  destruct Hrole as [Hrole|Hrole]; apply String.eqb_eq in Hrole; auto.
Qed.

Lemma loadChatHistory_saved (history : value number) (area : storage_area number) :
  Forall is_chat_message (as_array history) ->
  loadChatHistory (saveChatHistory history area) = trimChatHistory history.
Proof.
  intros Hall. unfold loadChatHistory, saveChatHistory, storage_get.
  rewrite lookup_insert_eq. cbn [as_array].
  rewrite load_passes_id.
  - apply trimChatHistory_short. rewrite trimChatHistory_length. lia.
  - rewrite trimChatHistory_drop. now apply is_chat_message_drop.
Qed.

Lemma loadChatHistory_messages (area : storage_area number) :
  Forall is_chat_message (loadChatHistory area).
Proof.
  unfold loadChatHistory. apply is_chat_message_trim, load_passes_valid.
Qed.

(** X16. [trimChatHistory] keeps the latest messages, at most
    [MAX_MESSAGES] of them and in their order: what it drops is the
    beginning of the history. Trimming what is trimmed changes nothing. *)
Theorem trimChatHistory_latest (history : value number) :
  exists dropped,
    as_array history = (dropped ++ trimChatHistory history)%list
    /\ length (trimChatHistory history)
       = Nat.min (length (as_array history)) MAX_MESSAGES
    /\ trimChatHistory (VArr (trimChatHistory history)) = trimChatHistory history.
Proof.
  exists (take (length (as_array history) - MAX_MESSAGES) (as_array history)).
  split; [|split].
  - rewrite trimChatHistory_drop. symmetry. apply take_drop.
  - apply trimChatHistory_length.
  - apply trimChatHistory_short. rewrite trimChatHistory_length. lia.
Qed.

(** X17. Whatever the storage area holds, [loadChatHistory] gives at most
    [MAX_MESSAGES] messages, each an object of a role ["user"] or
    ["assistant"] and a string content and of nothing else. *)
Theorem loadChatHistory_valid (area : storage_area number) :
  Forall is_chat_message (loadChatHistory area)
  /\ (length (loadChatHistory area) <= MAX_MESSAGES)%nat.
Proof.
  split; [apply loadChatHistory_messages|].
  unfold loadChatHistory. rewrite trimChatHistory_length. lia.
Qed.

(** X18. A history of well-formed messages that is saved is loaded again
    as its latest [MAX_MESSAGES] messages, and saving touches no other
    key of the area. *)
Theorem history_round_trip (msgs : list (value number)) (area : storage_area number) :
  Forall is_chat_message msgs ->
  loadChatHistory (saveChatHistory (VArr msgs) area) = trimChatHistory (VArr msgs)
  /\ forall key, key <> HISTORY_KEY ->
       saveChatHistory (VArr msgs) area !! key = area !! key.
Proof.
  intros Hall. split.
  - now apply loadChatHistory_saved.
  - intros key Hkey. unfold saveChatHistory.
    apply lookup_insert_ne. congruence.
Qed.

(** X19. What [loadChatHistory] gives is stable: saved and loaded again it
    is the same history. *)
Theorem loadChatHistory_stable (area : storage_area number) :
  loadChatHistory (saveChatHistory (VArr (loadChatHistory area)) area)
  = loadChatHistory area.
Proof.
  rewrite loadChatHistory_saved by apply loadChatHistory_messages.
  apply trimChatHistory_short.
  unfold loadChatHistory. rewrite trimChatHistory_length. lia.
Qed.

End HistoryFacts.

Lemma history_round_trip_witness :
  History.loadChatHistory
    (History.saveChatHistory
       (VArr [History.chat_message (H := json_host) "user" "hello";
              History.chat_message "assistant" "hi"]) ∅)
  = History.trimChatHistory
      (VArr [History.chat_message (H := json_host) "user" "hello";
             History.chat_message "assistant" "hi"])
  /\ forall key, key <> History.HISTORY_KEY ->
       History.saveChatHistory
         (VArr [History.chat_message (H := json_host) "user" "hello";
                History.chat_message "assistant" "hi"]) ∅ !! key
       = (∅ : storage_area number) !! key.
Proof.
  apply (history_round_trip (H := json_host)).
  repeat constructor; eexists _, _; split; try reflexivity; auto.
Defined.

(** ** The request input *)

Section RequestInputFacts.
Context `{Host}.
Import History.

Lemma map_throwing_Forall2 {A B : Type} (f : A -> result B) (l : list A) (ys : list B) :
  map_throwing f l = Ok ys -> Forall2 (fun x y => f x = Ok y) l ys.
Proof.
  revert ys. induction l as [|x l IH]; intros ys Hmap; cbn in Hmap.
  - injection Hmap as <-. constructor.
  - destruct (f x) as [y|err] eqn:Hx; [|discriminate Hmap]. cbn in Hmap.
    destruct (map_throwing f l) as [ys'|err]; [|discriminate Hmap]. cbn in Hmap.
    injection Hmap as <-. constructor; [exact Hx|]. now apply IH.
Qed.

Lemma map_throwing_thrown {A B : Type} (f : A -> result B) (l : list A) (err : error) :
  map_throwing f l = Throw err -> exists x, In x l /\ f x = Throw err.
Proof.
  induction l as [|x l IH]; intros Hmap; cbn in Hmap; [discriminate Hmap|].
  destruct (f x) as [y|e] eqn:Hx; cbn in Hmap.
  - destruct (map_throwing f l) as [ys'|e]; cbn in Hmap; [discriminate Hmap|].
    destruct (IH Hmap) as (x' & Hin & Hthrown). exists x'. split; [now right|exact Hthrown].
  - injection Hmap as <-. exists x. split; [now left|exact Hx].
Qed.

(** [String(v)] throws nothing but the [TypeError] of the conversion. *)
Lemma js_String_error : forall (v : value number) (err : error),
  js_String v = Throw err -> err = TypeError_primitive.
Proof.
  fix IH 1. intros v err. destruct v as [| | b | n | s | items | fields]; cbn;
    try discriminate.
  - induction items as [|x items IHitems]; cbn; [discriminate|].
    intros Hthrow. pose proof (IH x err) as IHx.
    destruct (match x with
              | VUndefined | VNull => Ok ""
              | _ => js_String x
              end) as [s|e] eqn:Hx; cbn in Hthrow.
    + match type of Hthrow with
      | context [?each items] =>
          destruct (each items) as [rest|e] eqn:Hrest; cbn in *
      end; [discriminate Hthrow|].
      apply IHitems. exact Hthrow.
    + injection Hthrow as <-.
      destruct x; try discriminate Hx; apply (IHx Hx).
  - destruct (has_field "toString" fields); [|discriminate].
    intros [= <-]. reflexivity.
Qed.

Lemma toResponsesInput_messages (msgs : list (value number)) :
  Forall is_chat_message msgs ->
  exists items,
    toResponsesInput (VArr msgs) = Ok items
    /\ Forall2 (fun m item => exists role content,
                  m = chat_message role content /\ item = input_item role content)
               msgs items.
Proof.
  unfold toResponsesInput. cbn [as_array].
  induction 1 as [|m msgs (role & content & -> & Hrole) _ (items & Hitems & Hall)].
  - exists []. split; [reflexivity|constructor].
  - exists (input_item role content :: items). split.
    + cbn [List.filter chat_message truthy typeof_object andb map_throwing].
      rewrite Hitems.
      change (prop (VObj [("role", VStr role); ("content", VStr content)]) "role")
        with (VStr role : value number).
      change (prop (VObj [("role", VStr role); ("content", VStr content)]) "content")
        with (VStr content : value number).
      cbn [is_str]. destruct content; reflexivity.
    + constructor; [|exact Hall]. exists role, content. split; reflexivity.
Qed.

Lemma trimChatHistory_pushed (history : list (value number)) (m : value number) :
  exists kept,
    trimChatHistory (VArr (history ++ [m])) = (kept ++ [m])%list
    /\ length kept = Nat.min (length history) (MAX_MESSAGES - 1)
    /\ exists dropped, history = (dropped ++ kept)%list.
Proof.
  rewrite trimChatHistory_drop. cbn [as_array].
  rewrite length_app. cbn [length].
  exists (drop (length history + 1 - MAX_MESSAGES) history). split; [|split].
  - rewrite drop_app_le; [reflexivity|]. unfold MAX_MESSAGES. lia.
  - rewrite length_drop. unfold MAX_MESSAGES. lia.
  - exists (take (length history + 1 - MAX_MESSAGES) history).
    symmetry. apply take_drop.
Qed.

(** X20. [toResponsesInput] gives one item per message that is an object,
    in the order of the messages: the item of a message has the role of
    that message and one text part, whose text is the content of the
    message converted to a string (the empty string for a content that is
    falsy) and whose type is ["output_text"] for the role ["assistant"]
    and ["input_text"] for any other.  A value that is no array gives no
    item.  It throws exactly when the content of one of these messages
    cannot be converted, and then the [TypeError] of that conversion. *)
Theorem toResponsesInput_items (messages : value number) :
  let objects :=
    List.filter (fun m => truthy m && typeof_object m) (as_array messages) in
  let content (m : value number) :=
    if truthy (prop m "content") then prop m "content" else VStr "" in
  match toResponsesInput messages with
  | Ok items =>
      Forall2 (fun m item =>
                 exists text,
                   js_String (content m) = Ok text
                   /\ item = VObj [("role", prop m "role");
                                   ("content",
                                    VArr [VObj [("type",
                                                 VStr (if is_str (prop m "role") "assistant"
                                                       then "output_text"
                                                       else "input_text"));
                                                ("text", VStr text)]])])
              objects items
  | Throw err =>
      err = TypeError_primitive
      /\ exists m, In m objects /\ js_String (content m) = Throw err
  end.
Proof.
  cbv zeta.
  destruct (toResponsesInput messages) as [items|err] eqn:Hinput;
    unfold toResponsesInput in Hinput.
  - apply map_throwing_Forall2 in Hinput.
    induction Hinput as [|m item objects items Hitem _ IH]; constructor; [|exact IH].
    destruct (js_String _) as [text|e]; [|discriminate Hitem].
    rewrite bind_Ok in Hitem. injection Hitem as <-.
    exists text. split; reflexivity.
  - apply map_throwing_thrown in Hinput. destruct Hinput as (m & Hin & Hitem).
    destruct (js_String _) as [text|e] eqn:Htext; [discriminate Hitem|].
    injection Hitem as <-.
    split; [exact (js_String_error _ _ Htext)|].
    exists m. split; [exact Hin|exact Htext].
Qed.

(** X21. A history of well-formed messages is never refused: its items
    are the messages' in their order, each with the role and the text of
    its message. *)
Theorem toResponsesInput_history (msgs : list (value number)) :
  Forall is_chat_message msgs ->
  exists items,
    toResponsesInput (VArr msgs) = Ok items
    /\ Forall2 (fun m item => exists role content,
                  m = chat_message role content /\ item = input_item role content)
               msgs items.
Proof.
  apply toResponsesInput_messages.
Qed.

(** X22. The history a page sends is its history of well-formed messages
    with the user's message pushed on it, trimmed. It is accepted, and the
    last item of the request is the user's message as ["input_text"], also
    when the history was full. *)
Theorem pushed_message_is_last_item (history : list (value number)) (content : string) :
  Forall is_chat_message history ->
  exists items,
    toResponsesInput
      (VArr (trimChatHistory (VArr (history ++ [chat_message "user" content]))))
    = Ok items
    /\ length items = Nat.min (length history + 1) MAX_MESSAGES
    /\ last items = Some (input_item "user" content).
Proof.
  intros Hvalid.
  destruct (trimChatHistory_pushed history (chat_message "user" content))
    as (kept & Htrim & Hlen & dropped & Hhist).
  rewrite Htrim.
  destruct (toResponsesInput_messages (kept ++ [chat_message "user" content]))
    as (items & Hitems & Hall).
  { apply Forall_app. split.
    - rewrite Hhist in Hvalid. apply Forall_app in Hvalid. tauto.
    - repeat constructor. exists "user", content. auto. }
  exists items. split; [exact Hitems|].
  pose proof (Forall2_length _ _ _ Hall) as Hlength.
  rewrite length_app in Hlength. cbn [length] in Hlength.
  split.
  - rewrite <- Hlength, Hlen. unfold MAX_MESSAGES. lia.
  - apply Forall2_app_inv_l in Hall.
    destruct Hall as (items1 & items2 & _ & Hlast & ->).
    inversion Hlast as [|m item ms rest (role & text & Hm & ->) Hnil]; subst.
    inversion Hnil; subst.
    rewrite last_snoc.
    unfold chat_message in Hm. injection Hm as <- <-. reflexivity.
Qed.

End RequestInputFacts.

Lemma toResponsesInput_history_witness :
  exists items,
    toResponsesInput
      (VArr [History.chat_message (H := json_host) "user" "hello";
             History.chat_message "assistant" "hi"])
    = Ok items
    /\ Forall2 (fun m item => exists role content,
                  m = History.chat_message role content
                  /\ item = input_item role content)
               [History.chat_message (H := json_host) "user" "hello";
                History.chat_message "assistant" "hi"]
               items.
Proof.
  apply (toResponsesInput_history (H := json_host)).
  repeat constructor; eexists _, _; split; try reflexivity; auto.
Defined.

Lemma pushed_message_is_last_item_witness :
  exists items,
    toResponsesInput
      (VArr (History.trimChatHistory
               (VArr ([History.chat_message (H := json_host) "user" "hello";
                       History.chat_message "assistant" "hi"]
                      ++ [History.chat_message "user" "and then?"]))))
    = Ok items
    /\ length items = Nat.min (2 + 1) History.MAX_MESSAGES
    /\ last items = Some (input_item "user" "and then?").
Proof.
  apply (pushed_message_is_last_item (H := json_host)
           [History.chat_message "user" "hello"; History.chat_message "assistant" "hi"]).
  repeat constructor; eexists _, _; split; try reflexivity; auto.
Defined.

(** ** Settings *)

Lemma trimEnd_idempotent (s : string) : trimEnd (trimEnd s) = trimEnd s.
Proof.
  induction s as [|c s IH]; [reflexivity|].
  cbn [trimEnd]. destruct (trimEnd s) as [|a r] eqn:Hend.
  - destruct (is_space c) eqn:Hc; [reflexivity|].
    cbn [trimEnd]. rewrite Hc. reflexivity.
  - cbn [trimEnd] in *. rewrite IH. reflexivity.
Qed.

Lemma trimEnd_head (c : ascii) (r : string) :
  is_space c = false -> exists r', trimEnd (String c r) = String c r'.
Proof.
  intros Hc. cbn [trimEnd]. rewrite Hc.
  destruct (trimEnd r); eauto.
Qed.

Lemma trimStart_trim (s : string) : trimStart (trim s) = trim s.
Proof.
  unfold trim. destruct (trimStart s) as [|c r] eqn:Hstart; [reflexivity|].
  apply trimStart_head in Hstart.
  destruct (trimEnd_head c r Hstart) as [r' ->].
  cbn [trimStart]. rewrite Hstart. reflexivity.
Qed.

Lemma trim_idempotent (s : string) : trim (trim s) = trim s.
Proof.
  unfold trim at 1. rewrite trimStart_trim. unfold trim.
  apply trimEnd_idempotent.
Qed.

Section ConfigFacts.
Context `{Host} `{UrlHost}.
Import Config.

Lemma normalizeApiUrl_string (raw : string) :
  normalizeApiUrl (VStr raw)
  = Ok (if trim raw =? "" then DEFAULT_API_URL
        else match URL_parse (trim raw) with
             | Some u => if negb (protocol u =? "https:") then DEFAULT_API_URL else href u
             | None => DEFAULT_API_URL
             end).
Proof.
  unfold normalizeApiUrl. cbn [truthy].
  destruct raw as [|c raw]; [reflexivity|].
  cbn [String.eqb negb js_String]. rewrite bind_Ok.
  destruct (trim (String c raw) =? ""); [reflexivity|].
  destruct (URL_parse _) as [u|]; [|reflexivity].
  destruct (negb _); reflexivity.
Qed.

Lemma normalizeApiUrl_normalized (value : value number) (normalizedUrl : string) :
  normalizeApiUrl value = Ok normalizedUrl -> normalized normalizedUrl.
Proof.
  unfold normalizeApiUrl.
  destruct (js_String _) as [converted|err]; [|discriminate].
  rewrite bind_Ok.
  destruct (trim converted =? ""); [intros [= <-]; now left|].
  destruct (URL_parse (trim converted)) as [u|] eqn:Hparse; [|intros [= <-]; now left].
  destruct (protocol u =? "https:") eqn:Hprotocol; cbn [negb];
    [|intros [= <-]; now left].
  intros [= <-]. right. exists (trim converted), u.
  apply String.eqb_eq in Hprotocol. auto.
Qed.

Lemma normalizeApiUrl_error (value : value number) (err : error) :
  normalizeApiUrl value = Throw err -> err = TypeError_primitive.
Proof.
  unfold normalizeApiUrl.
  destruct (js_String _) as [converted|e] eqn:Hconverted.
  - rewrite bind_Ok. destruct (trim converted =? ""); [discriminate|].
    destruct (URL_parse _) as [u|]; [|discriminate].
    destruct (negb _); discriminate.
  - intros [= <-]. exact (js_String_error _ _ Hconverted).
Qed.

Lemma loaded_model (modelRaw : string) :
  let model := if negb (trim modelRaw =? "") then trim modelRaw else DEFAULT_MODEL in
  model <> "" /\ trim model = model.
Proof.
  cbn zeta. destruct (trim modelRaw =? "") eqn:Hblank; cbn [negb].
  - split; [discriminate|reflexivity].
  - split; [|apply trim_idempotent].
    intros Hempty. rewrite Hempty in Hblank. discriminate Hblank.
Qed.

(** The settings read from an object that [saveConfig] wrote. *)
Lemma loadConfig_written (savedUrl savedToken savedModel : string) (enabled : bool)
    (sync : storage_area number) :
  loadConfig
    (<[CONFIG_KEY := VObj [("apiUrl", VStr savedUrl);
                           ("token", VStr savedToken);
                           ("model", VStr savedModel);
                           ("enableSelectionActions", VBool enabled)]]> sync)
  = (normalizedUrl ← normalizeApiUrl (VStr savedUrl);
     Ok {| base := {| apiUrl := normalizedUrl;
                      token := savedToken;
                      model := if negb (trim savedModel =? "")
                               then trim savedModel else DEFAULT_MODEL;
                      systemPrompt := FIXED_SYSTEM_PROMPT |};
           enableSelectionActions := enabled |}).
Proof.
  unfold loadConfig, saved_config, storage_get.
  rewrite lookup_insert_eq. reflexivity.
Qed.

Lemma loadConfig_nothing (sync : storage_area number) :
  truthy (storage_get sync CONFIG_KEY) && typeof_object (storage_get sync CONFIG_KEY)
  = false ->
  loadConfig sync = Ok DEFAULT_CONFIG.
Proof.
  intros Hkept. unfold loadConfig, saved_config. rewrite Hkept. reflexivity.
Qed.

Lemma saveConfig_written (nextConfig : value number) (sync sync' : storage_area number)
    (cfg : settings) :
  saveConfig nextConfig sync = Ok (cfg, sync') ->
  sync' = <[CONFIG_KEY := VObj [("apiUrl", VStr (apiUrl (base cfg)));
                                ("token", VStr (token (base cfg)));
                                ("model", VStr (model (base cfg)));
                                ("enableSelectionActions",
                                 VBool (enableSelectionActions cfg))]]> sync.
Proof.
  unfold saveConfig.
  destruct (loadConfig sync) as [current|err]; [|discriminate]. rewrite bind_Ok.
  match goal with
  | |- context [?m ≫= _] => destruct m as [nextApiUrl|err]; [|discriminate]
  end.
  rewrite bind_Ok. intros [= <- <-]. reflexivity.
Qed.

(** X23. Whatever the storage holds, the settings [loadConfig] gives have
    a model that is not empty and has no outer white space, the fixed
    prompt, and a URL that is the default or parsed as [https:]; the only
    error it can throw is the [TypeError] of a kept URL that cannot be
    converted to a string. Where no object is kept under the key, it gives
    the defaults. *)
Theorem loadConfig_settings (sync : storage_area number) :
  match loadConfig sync with
  | Ok cfg =>
      model (base cfg) <> ""
      /\ trim (model (base cfg)) = model (base cfg)
      /\ systemPrompt (base cfg) = FIXED_SYSTEM_PROMPT
      /\ normalized (apiUrl (base cfg))
  | Throw err => err = TypeError_primitive
  end
  /\ (truthy (storage_get sync CONFIG_KEY) && typeof_object (storage_get sync CONFIG_KEY)
      = false ->
      loadConfig sync = Ok DEFAULT_CONFIG).
Proof.
  split; [|apply loadConfig_nothing].
  unfold loadConfig.
  destruct (normalizeApiUrl _) as [normalizedUrl|err] eqn:Hurl.
  - rewrite bind_Ok. cbn [base model systemPrompt apiUrl].
    pose proof (loaded_model
                  (if typeof_string (prop (saved_config sync) "model")
                   then str_of (prop (saved_config sync) "model") else "")) as Hmodel.
    cbn zeta in Hmodel. destruct Hmodel as [Hset Htrimmed].
    repeat split; try assumption.
    exact (normalizeApiUrl_normalized _ _ Hurl).
  - cbn. exact (normalizeApiUrl_error _ _ Hurl).
Qed.

(** X24. What [saveConfig] saved is what a later [loadConfig] gives: the
    same token and switch, the model without its outer white space (the
    default model if nothing is left of it), and the URL normalized once
    more. Saving touches no other key of the area. *)
Theorem saveConfig_round_trip (nextConfig : value number)
    (sync sync' : storage_area number) (cfg : settings) :
  saveConfig nextConfig sync = Ok (cfg, sync') ->
  exists loaded,
    loadConfig sync' = Ok loaded
    /\ token (base loaded) = token (base cfg)
    /\ enableSelectionActions loaded = enableSelectionActions cfg
    /\ model (base loaded)
       = (if trim (model (base cfg)) =? "" then DEFAULT_MODEL else trim (model (base cfg)))
    /\ normalizeApiUrl (VStr (apiUrl (base cfg))) = Ok (apiUrl (base loaded))
    /\ forall key, key <> CONFIG_KEY -> sync' !! key = sync !! key.
Proof.
  intros Hsave. rewrite (saveConfig_written _ _ _ _ Hsave).
  rewrite loadConfig_written, normalizeApiUrl_string, bind_Ok.
  eexists. split; [reflexivity|].
  cbn [base token model enableSelectionActions apiUrl].
  repeat split.
  - destruct (trim (model (base cfg)) =? ""); reflexivity.
  - intros key Hkey. apply lookup_insert_ne. congruence.
Qed.

End ConfigFacts.

Lemma saveConfig_round_trip_witness :
  exists loaded,
    Config.loadConfig (H := json_host) (H0 := example_urls)
      (<[Config.CONFIG_KEY :=
           VObj [("apiUrl", VStr "https://example.org/v1/responses");
                 ("token", VStr "sk-1");
                 ("model", VStr " gpt-x ");
                 ("enableSelectionActions", VBool false)]]> ∅)
    = Ok loaded
    /\ token (Config.base loaded) = "sk-1"
    /\ Config.enableSelectionActions loaded = false
    /\ model (Config.base loaded)
       = (if trim " gpt-x " =? "" then Config.DEFAULT_MODEL else trim " gpt-x ")
    /\ Config.normalizeApiUrl (H := json_host) (H0 := example_urls)
         (VStr "https://example.org/v1/responses")
       = Ok (apiUrl (Config.base loaded))
    /\ forall key, key <> Config.CONFIG_KEY ->
         (<[Config.CONFIG_KEY :=
              VObj [("apiUrl", VStr "https://example.org/v1/responses");
                    ("token", VStr "sk-1");
                    ("model", VStr " gpt-x ");
                    ("enableSelectionActions", VBool false)]]> ∅
            : storage_area number) !! key
         = (∅ : storage_area number) !! key.
Proof.
  apply (saveConfig_round_trip (H := json_host) (H0 := example_urls)
           (VObj [("apiUrl", VStr " https://example.org/v1/responses ");
                  ("token", VStr "sk-1");
                  ("model", VStr " gpt-x ")])
           ∅ _
           {| Config.base := {| apiUrl := "https://example.org/v1/responses";
                                token := "sk-1";
                                model := " gpt-x ";
                                systemPrompt := Config.FIXED_SYSTEM_PROMPT |};
              Config.enableSelectionActions := false |}).
  reflexivity.
Defined.

(** ** The options page *)

Section OptionsFacts.
Context `{Host} `{UrlHost}.
Import Config.

Lemma page_normalizeApiUrl_normalized (value normalizedUrl : string) :
  Options.normalizeApiUrl value = Ok normalizedUrl -> normalized normalizedUrl.
Proof.
  unfold Options.normalizeApiUrl.
  destruct (trim value =? ""); [intros [= <-]; now left|].
  destruct (URL_parse (trim value)) as [u|] eqn:Hparse; [|discriminate].
  destruct (protocol u =? "https:") eqn:Hprotocol; cbn [negb]; [|discriminate].
  intros [= <-]. right. exists (trim value), u.
  apply String.eqb_eq in Hprotocol. auto.
Qed.


(** X25. The page's [normalizeApiUrl] and the one of [config.js] agree on
    what they accept: a text the page accepts is normalized alike by both,
    and a text the page refuses is replaced by the default URL in
    [config.js]. What the page accepts is the default URL or the text of a
    URL that was parsed as [https:]. *)
Theorem normalizeApiUrl_agree (value : string) :
  match Options.normalizeApiUrl value with
  | Ok normalizedUrl =>
      normalizeApiUrl (VStr value) = Ok normalizedUrl /\ normalized normalizedUrl
  | Throw err =>
      normalizeApiUrl (VStr value) = Ok DEFAULT_API_URL
      /\ (err = Error "API URL is invalid."
          \/ err = Error "API URL must start with https://")
  end.
Proof.
  destruct (Options.normalizeApiUrl value) as [normalizedUrl|err] eqn:Hpage.
  - split; [|exact (page_normalizeApiUrl_normalized _ _ Hpage)].
    rewrite normalizeApiUrl_string. revert Hpage. unfold Options.normalizeApiUrl.
    destruct (trim value =? ""); [congruence|].
    destruct (URL_parse (trim value)) as [u|]; [|discriminate].
    destruct (negb _); [discriminate|congruence].
  - rewrite normalizeApiUrl_string. revert Hpage. unfold Options.normalizeApiUrl.
    destruct (trim value =? ""); [discriminate|].
    destruct (URL_parse (trim value)) as [u|]; [|intros [= <-]; auto].
    destruct (negb _); [intros [= <-]; auto|discriminate].
Qed.

(** X26. [onSubmit] refuses a form before it touches the storage: a URL
    that does not parse, a URL of another protocol than [https:] and a
    blank model each leave their own message in the status line, with no
    timer to clear it. Whenever the status is not [Saved.], the storage is
    as it was. *)
Theorem onSubmit_refused (fields : Options.form) (sync : storage_area number) :
  let outcome := Options.onSubmit fields sync in
  let refused text :=
    outcome = {| Options.status_text := text;
                 Options.status_cleared_after := None;
                 Options.sync_after := sync |} in
  (trim (Options.apiUrl_value fields) <> "" ->
   URL_parse (trim (Options.apiUrl_value fields)) = None ->
   refused "API URL is invalid.")
  /\ (forall u,
        trim (Options.apiUrl_value fields) <> "" ->
        URL_parse (trim (Options.apiUrl_value fields)) = Some u ->
        protocol u <> "https:" ->
        refused "API URL must start with https://")
  /\ (forall normalizedUrl,
        Options.normalizeApiUrl (Options.apiUrl_value fields) = Ok normalizedUrl ->
        trim (Options.model_value fields) = "" ->
        refused "Model is required.")
  /\ (Options.status_text outcome <> "Saved." -> Options.sync_after outcome = sync).
Proof.
  cbn zeta. unfold Options.onSubmit, Options.submit, Options.normalizeApiUrl.
  split; [|split; [|split]].
  - intros Hraw Hparse. apply String.eqb_neq in Hraw. rewrite Hraw, Hparse. reflexivity.
  - intros u Hraw Hparse Hprotocol.
    apply String.eqb_neq in Hraw. apply String.eqb_neq in Hprotocol.
    rewrite Hraw, Hparse, Hprotocol. reflexivity.
  - intros normalizedUrl Hurl Hmodel.
    unfold Options.normalizeApiUrl in Hurl. rewrite Hurl, bind_Ok, Hmodel. reflexivity.
  - match goal with
    | |- context [match ?m with Ok _ => _ | Throw _ => _ end] => destruct m
    end; cbn [Options.status_text Options.sync_after]; congruence.
Qed.


(** X28. [onReset] on a storage that can be read: the form shows an empty
    token, the default model and the switch off, the status line says
    [Reset.], and no other key of the storage is touched. The URL shown is
    the default one on a host that parses it as it is written. *)
Theorem onReset_defaults (sync : storage_area number) (current : settings) :
  loadConfig sync = Ok current ->
  exists shown outcome,
    Options.onReset sync = Ok (shown, outcome)
    /\ Options.token_value shown = ""
    /\ Options.model_value shown = DEFAULT_MODEL
    /\ Options.enableSelectionActions_value shown = "false"
    /\ Options.status_text outcome = "Reset."
    /\ (URL_parse DEFAULT_API_URL
        = Some {| protocol := "https:"; href := DEFAULT_API_URL |} ->
        Options.apiUrl_value shown = DEFAULT_API_URL)
    /\ forall key, key <> CONFIG_KEY -> Options.sync_after outcome !! key = sync !! key.
Proof.
  intros Hload. unfold Options.onReset, saveConfig.
  rewrite Hload, bind_Ok.
  change (prop (VObj [("apiUrl", VStr DEFAULT_API_URL);
                      ("token", VStr "");
                      ("model", VStr DEFAULT_MODEL);
                      ("enableSelectionActions", VBool false)]) "apiUrl")
    with (VStr DEFAULT_API_URL : value number).
  cbn [typeof_string]. rewrite normalizeApiUrl_string, !bind_Ok.
  cbn -[DEFAULT_API_URL DEFAULT_MODEL trim String.eqb insert].
  unfold Options.fillForm.
  rewrite loadConfig_written, normalizeApiUrl_string, !bind_Ok.
  eexists _, _. split; [reflexivity|].
  cbn [Options.token_value Options.model_value Options.enableSelectionActions_value
       Options.apiUrl_value Options.status_text Options.sync_after
       base token model enableSelectionActions apiUrl].
  repeat split.
  - intros Hparse.
    change (trim DEFAULT_API_URL) with DEFAULT_API_URL.
    change (DEFAULT_API_URL =? "") with false. cbn iota.
    rewrite Hparse. cbn [protocol href]. 
    change ("https:" =? "https:") with true. cbn [negb].
    change (trim DEFAULT_API_URL) with DEFAULT_API_URL.
    change (DEFAULT_API_URL =? "") with false. cbn iota.
    rewrite Hparse. reflexivity.
  - intros key Hkey. apply lookup_insert_ne. congruence.
Qed.

End OptionsFacts.


Lemma onReset_defaults_witness :
  exists shown outcome,
    Options.onReset (H := json_host) (H0 := example_urls) ∅ = Ok (shown, outcome)
    /\ Options.token_value shown = ""
    /\ Options.model_value shown = Config.DEFAULT_MODEL
    /\ Options.enableSelectionActions_value shown = "false"
    /\ Options.status_text outcome = "Reset."
    /\ (URL_parse (UrlHost := example_urls) Config.DEFAULT_API_URL
        = Some {| protocol := "https:"; href := Config.DEFAULT_API_URL |} ->
        Options.apiUrl_value shown = Config.DEFAULT_API_URL)
    /\ forall key, key <> Config.CONFIG_KEY ->
         Options.sync_after outcome !! key = (∅ : storage_area number) !! key.
Proof.
  apply (onReset_defaults (H := json_host) (H0 := example_urls) ∅ Config.DEFAULT_CONFIG).
  reflexivity.
Defined.

(** ** The authorization header *)

Lemma trimEnd_append (a b : string) :
  trimEnd b <> "" -> trimEnd (a ++ b) = a ++ trimEnd b.
Proof.
  intros Hb. induction a as [|c a IH]; [reflexivity|].
  cbn [String.append trimEnd]. rewrite IH.
  destruct (a ++ trimEnd b) as [|d r] eqn:Happ; [|reflexivity].
  destruct a; [|discriminate Happ]. cbn in Happ. contradiction.
Qed.

Lemma trim_bearer (t : string) :
  t <> "" -> trim t = t -> trim ("Bearer " ++ t) = "Bearer " ++ t.
Proof.
  intros Hsome Htrim.
  assert (Hend : trimEnd t = t).
  { rewrite <- Htrim at 1. unfold trim. rewrite trimEnd_idempotent. exact Htrim. }
  unfold trim. change (trimStart ("Bearer " ++ t)) with ("Bearer " ++ t).
  rewrite trimEnd_append; rewrite Hend; [reflexivity|exact Hsome].
Qed.

(** X29. [buildAuthHeaders] does not depend on the white space around the
    token. It gives no header exactly when the token is blank; else one
    [Authorization] header, whose value has no outer white space and is
    the trimmed token, alone or after [Bearer ]. *)
Theorem buildAuthHeaders_shape (token : string) :
  buildAuthHeaders (trim token) = buildAuthHeaders token
  /\ (buildAuthHeaders token = [] <-> trim token = "")
  /\ (trim token <> "" ->
      exists value,
        buildAuthHeaders token = [("Authorization", value)]
        /\ trim value = value
        /\ (value = trim token \/ value = "Bearer " ++ trim token)).
Proof.
  unfold buildAuthHeaders. rewrite trim_idempotent.
  split; [reflexivity|split].
  - destruct (trim token =? "") eqn:Hblank.
    + apply String.eqb_eq in Hblank. tauto.
    + apply String.eqb_neq in Hblank.
      destruct (bearer_pattern (trim token)); split; (discriminate || contradiction).
  - intros Hsome. pose proof Hsome as Hblank. apply String.eqb_neq in Hblank.
    rewrite Hblank. destruct (bearer_pattern (trim token)).
    + eexists. split; [reflexivity|]. split; [apply trim_idempotent|now left].
    + eexists. split; [reflexivity|]. split; [|now right].
      apply trim_bearer; [exact Hsome|apply trim_idempotent].
Qed.

(** ** The text of a response document *)

Section DocumentFacts.
Context `{Host}.

Lemma nullish_or_string (a : value number) (s : string) :
  nullish_or a (VStr s) <> VUndefined /\ nullish_or a (VStr s) <> VNull.
Proof. destruct a; cbn; split; discriminate. Qed.

Lemma nullish_or_set (a b : value number) :
  b <> VUndefined /\ b <> VNull ->
  nullish_or a b <> VUndefined /\ nullish_or a b <> VNull.
Proof. intros Hb. destruct a; cbn; try exact Hb; split; discriminate. Qed.

Lemma part_texts (parts : list (value number)) (texts : list string) :
  Forall2 is_output_text parts texts ->
  flat_map (fun c : value number =>
      if negb (truthy c) || negb (typeof_object c) then []
      else
        ((if is_str (prop c "type") "output_text" && typeof_string (prop c "text")
          then [str_of (prop c "text")] else [])
         ++
         (if is_str (prop c "type") "text" && typeof_string (prop c "text")
          then [str_of (prop c "text")] else []))%list)
    parts
  = texts.
Proof.
  induction 1 as [|part text parts texts (Hobject & Htype & Htext) _ IH]; [reflexivity|].
  cbn [flat_map]. rewrite IH.
  apply andb_prop in Hobject. destruct Hobject as [-> ->].
  rewrite Htype, Htext. reflexivity.
Qed.

Lemma item_texts (output : list (value number)) (texts : list (list string)) :
  Forall2 has_output_texts output texts ->
  flat_map (fun item : value number =>
      flat_map (fun c : value number =>
          if negb (truthy c) || negb (typeof_object c) then []
          else
            ((if is_str (prop c "type") "output_text" && typeof_string (prop c "text")
              then [str_of (prop c "text")] else [])
             ++
             (if is_str (prop c "type") "text" && typeof_string (prop c "text")
              then [str_of (prop c "text")] else []))%list)
        match prop item "content" with VArr l => l | _ => [] end)
    output
  = concat texts.
Proof.
  induction 1 as [|item ts output texts (parts & Hcontent & Hparts) _ IH]; [reflexivity|].
  cbn [flat_map concat]. rewrite IH, Hcontent, (part_texts _ _ Hparts). reflexivity.
Qed.

(** X30. [extractResponseText] never gives [undefined] or [null]. For a
    document with no [output_text] string of its own whose output items
    carry parts of the type ["output_text"], it gives the texts of the
    parts joined in their order, if there is one at least. *)
Theorem extractResponseText_document (data : value number) :
  (extractResponseText data <> VUndefined /\ extractResponseText data <> VNull)
  /\ forall output texts,
       truthy data && typeof_object data = true ->
       typeof_string (prop data "output_text") = false ->
       prop data "output" = VArr output ->
       Forall2 has_output_texts output texts ->
       concat texts <> [] ->
       extractResponseText data = VStr (join "" (concat texts)).
Proof.
  split.
  - unfold extractResponseText.
    destruct (negb (truthy data) || negb (typeof_object data));
      [split; discriminate|].
    destruct (prop data "output_text") eqn:Houtput; cbn [typeof_string];
      try (match goal with
           | |- context [if negb ?b then _ else _] =>
               destruct b; cbn [negb];
               [apply nullish_or_set, nullish_or_string|split; discriminate]
           end).
    split; discriminate.
  - intros output texts Hobject Houtput_text Houtput Hitems Hsome.
    unfold extractResponseText.
    apply andb_prop in Hobject. destruct Hobject as [-> ->]. cbn [negb orb].
    rewrite Houtput_text, Houtput, (item_texts _ _ Hitems).
    destruct (concat texts) as [|t ts]; [contradiction|]. reflexivity.
Qed.

End DocumentFacts.

(** ** The calls of the handler *)

Section HandlerCalls.
Context `{Host}.

(** The only error of [toResponsesInput] is the [TypeError] of a
    conversion. *)
Lemma toResponsesInput_error (messages : value number) (err : error) :
  toResponsesInput messages = Throw err -> err = TypeError_primitive.
Proof.
  unfold toResponsesInput. intros Hinput.
  apply map_throwing_thrown in Hinput. destruct Hinput as (m & _ & Hitem).
  destruct (js_String _) as [text|e] eqn:Htext; [discriminate Hitem|].
  injection Hitem as <-. exact (js_String_error _ _ Htext).
Qed.

End HandlerCalls.

(** X8. The HTTP calls of one [CHAT] request.  Without a URL, a token and
    a model in the configuration the handler calls nothing.  With them,
    messages that [toResponsesInput] refuses end the request before any
    call, and the [TypeError] of the conversion is answered as a failure;
    messages that it converts are sent to the endpoint once, or twice with
    one timer of 350 ms between the calls, always with the same URL and
    options.  The handler never calls more. *)
Theorem chat_calls (H : Host) (message_requestId : option string)
  (messages : value number) (env : chat_env) (reg : registry) :
  let outcome := chat message_requestId messages env reg in
  let calls := events outcome in
  (forall cfg input,
      configured env cfg -> toResponsesInput messages = Ok input ->
      calls = [chat_fetch cfg]
      \/ calls = [chat_fetch cfg; EvTimer 350; chat_fetch cfg])
  /\ (forall cfg err,
        configured env cfg -> toResponsesInput messages = Throw err ->
        calls = []
        /\ sent outcome = Failed "Cannot convert object to primitive value")
  /\ ((forall cfg, ~ configured env cfg) -> calls = [])
  /\ (calls = []
      \/ (exists cfg, calls = [chat_fetch cfg])
      \/ (exists cfg, calls = [chat_fetch cfg; EvTimer 350; chat_fetch cfg])).
Proof.
  intros outcome calls. subst calls outcome. rewrite chat_sent, chat_events.
  assert (Hsome : forall cfg input,
             configured env cfg -> toResponsesInput messages = Ok input ->
             fst (chat_try messages env) = [chat_fetch cfg]
             \/ fst (chat_try messages env)
                = [chat_fetch cfg; EvTimer 350; chat_fetch cfg]).
  { intros cfg input Hcfg Hinput.
    rewrite (chat_try_configured messages input env cfg Hcfg Hinput). cbn [fst].
    rewrite fetchWithRetry_default. unfold chat_fetch.
    destruct (fetch env 0%nat) as [res|err0 ab0]; [left; reflexivity|].
    destruct (ab0 || (name err0 =? "AbortError")); [left|right]; reflexivity. }
  assert (Hnone : (forall cfg, ~ configured env cfg) -> fst (chat_try messages env) = []).
  { intros Hnone. unfold chat_try.
    destruct (loadConfig env) as [cfg|err] eqn:Hcfg; [|reflexivity].
    destruct (String.eqb_spec (trim (apiUrl cfg)) "") as [|Hurl]; [reflexivity|].
    destruct (String.eqb_spec (token cfg) "") as [|Htoken]; [reflexivity|].
    destruct (String.eqb_spec (model cfg) "") as [|Hmodel]; [reflexivity|].
    exfalso. apply (Hnone cfg). unfold configured. auto. }
  split; [exact Hsome|]. split; [|split; [exact Hnone|]].
  - intros cfg err Hcfg Hinput.
    rewrite (chat_try_refused messages err env cfg Hcfg Hinput). cbn [fst snd].
    split; [reflexivity|].
    rewrite (toResponsesInput_error messages err Hinput). reflexivity.
  - clear Hsome Hnone. unfold chat_try.
    destruct (loadConfig env) as [cfg|err]; [|left; reflexivity].
    destruct (trim (apiUrl cfg) =? ""); [left; reflexivity|].
    destruct (token cfg =? ""); [left; reflexivity|].
    destruct (model cfg =? ""); [left; reflexivity|].
    cbv zeta. destruct (toResponsesInput _); [|left; reflexivity].
    right. rewrite fetchWithRetry_default. unfold chat_fetch.
    destruct (fetch env 0%nat) as [res|err0 ab0]; [left; exists cfg; reflexivity|].
    destruct (ab0 || (name err0 =? "AbortError")); [left|right]; exists cfg; reflexivity.
Qed.

Lemma chat_calls_witness :
  events (chat None refused_messages (answering (ok_response [])) (mkRegistry ∅ ∅)) = []
  /\ sent (chat None refused_messages (answering (ok_response [])) (mkRegistry ∅ ∅))
     = Failed "Cannot convert object to primitive value".
Proof.
  refine (proj1 (proj2 (chat_calls json_host None refused_messages
                          (answering (ok_response [])) (mkRegistry ∅ ∅)))
            example_config TypeError_primitive _ eq_refl).
  unfold configured. cbn. repeat split; discriminate.
Defined.
